(** * Digital wallet: ledger and transfer coordination

    A shallow embedding of [backend/src/services/walletService.js], the mock
    payment gateway it calls, and the MySQL schema it runs against, followed by
    the properties of the wallet specification checked on that embedding.
    Embedded besides: [backend/src/services/authService.js], [generateOTP]
    of [utils/crypto.js], and the transfer of [tests/concurrency.test.js].

    Modelling conventions.
    - Money is counted in paise ([Z], hundredths of a rupee): the domain of
      the [DECIMAL(15,2)] columns.  Amounts with more than two decimals and
      the rounding of JavaScript doubles are outside the model, as are the
      range limits of column types (DECIMAL digits, VARCHAR lengths).
    - The store is the set of tables of the schema.  The declared [CHECK] and
      [UNIQUE] constraints are enforced by the statements that write a table:
      a violating statement throws, as the server rejects it.
    - [AUTO_INCREMENT] primary keys of [otps] are the positions of the rows
      (no statement of the service ever deletes a row).
    - Everything the service draws from its surroundings (clock, uuidv4,
      the random OTP digits, the answer of the payment gateway) is supplied
      by an explicit environment record.
    - A service method is a state-and-exception computation on the store;
      [beginTransaction ... commit] with [rollback] in the [catch] block is
      the combinator [atomic]. *)

From Stdlib Require Import ZArith List Bool Lia String.
From stdpp Require Import base gmap strings list fin_maps.

Local Open Scope string_scope.
Local Open Scope Z_scope.

(** ** Configuration (config/constants.js) *)

Record config := {
  MIN_TRANSACTION_AMOUNT : Z;
  MAX_TRANSACTION_AMOUNT : Z;
  DAILY_TRANSFER_LIMIT : Z;
  DAILY_ADD_MONEY_LIMIT : Z;
  OTP_VALIDITY_MINUTES : Z
}.

Definition rupees (n : Z) : Z := n * 100.

(** The values taken when no environment variable overrides them. *)
Definition default_config : config := {|
  MIN_TRANSACTION_AMOUNT := rupees 100;
  MAX_TRANSACTION_AMOUNT := rupees 200000;
  DAILY_TRANSFER_LIMIT := rupees 500000;
  DAILY_ADD_MONEY_LIMIT := rupees 500000;
  OTP_VALIDITY_MINUTES := 5
|}.

Inductive transaction_type := ADD_MONEY | TRANSFER_DEBIT | TRANSFER_CREDIT.
Inductive transaction_status := PENDING | SUCCESS | FAILED.
Inductive payment_method := UPI | CARD | NET_BANKING.


Definition transaction_status_eqb (a b : transaction_status) : bool :=
  match a, b with
  | PENDING, PENDING | SUCCESS, SUCCESS | FAILED, FAILED => true
  | _, _ => false
  end.

(** ** Tables (database/schema.sql) *)

(** gatewayResponse of a successful payment; the ledger keeps its JSON text
    in the [metadata] column, here the record itself. *)
Record gateway_response := {
  g_method : payment_method;
  g_amount : Z;
  g_timestamp : Z
}.

Record user := {
  id : Z;
  name : string;
  email : string;
  is_active : bool
}.

Record wallet := {
  balance : Z;
  currency : string
}.

Record transaction := {
  transaction_id : string;
  idempotency_key : option string;
  user_id : Z;
  type : transaction_type;
  amount : Z;
  balance_before : Z;
  balance_after : Z;
  status : transaction_status;
  txn_payment_method : option payment_method;
  counterparty_user_id : option Z;
  counterparty_transaction_id : option string;
  metadata : option gateway_response;
  failure_reason : option string
}.

Record daily_limit := {
  total_added : Z;
  total_transferred : Z
}.

Record otp := {
  otp_user_id : Z;
  otp_code : string;
  purpose : string;
  reference_id : string;
  is_used : bool;
  expires_at : Z
}.

(** [wallets] is keyed by [user_id] (UNIQUE NOT NULL) and [daily_limits] by
    [(user_id, date)] (UNIQUE KEY unique_user_date). *)
Record db := {
  users : list user;
  wallets : gmap Z wallet;
  transactions : list transaction;
  daily_limits : gmap (Z * Z) daily_limit;
  otps : list otp
}.

(** ** Errors *)

Inductive constraint :=
  | chk_positive_balance
  | chk_positive_amount
  | unique_transaction_id
  | unique_idempotency_key.

Inductive error :=
  | Wallet_not_found
  | Minimum_transaction_amount
  | Maximum_transaction_amount
  | Maximum_2_decimal_places
  | Daily_add_money_limit_exceeded
  | Daily_transfer_limit_exceeded
  | Recipient_not_found
  | Cannot_transfer_to_yourself
  | Insufficient_balance
  | Invalid_or_expired_OTP
  | Gateway_exception
  | Constraint_violation (c : constraint).

Inductive outcome (A : Type) :=
  | Return (a : A)
  | Throw (e : error).
Arguments Return {A} a.
Arguments Throw {A} e.

(** ** The store monad *)

Definition M (A : Type) : Type := db -> db * outcome A.

Definition ret {A} (a : A) : M A := fun s => (s, Return a).
Definition throw {A} (e : error) : M A := fun s => (s, Throw e).
Definition bind {A B} (m : M A) (k : A -> M B) : M B :=
  fun s => match m s with
           | (s', Return a) => k a s'
           | (s', Throw e) => (s', Throw e)
           end.
Definition gets {A} (f : db -> A) : M A := fun s => (s, Return (f s)).
Definition modify (f : db -> db) : M unit := fun s => (f s, Return tt).

(** [beginTransaction; body; commit], with the [rollback] of the enclosing
    [catch] block: a statement that throws restores the store of the
    [beginTransaction] and the exception goes on to the caller. *)
Definition atomic {A} (body : M A) : M A :=
  fun s => match body s with
           | (s', Return a) => (s', Return a)
           | (_, Throw e) => (s, Throw e)
           end.

Notation "x <- m ;; k" := (bind m (fun x => k))
  (at level 100, m at next level, right associativity).
Notation "m ;;; k" := (bind m (fun _ => k))
  (at level 100, right associativity).

Definition lift {A} (o : outcome A) : M A := fun s => (s, o).

(** ** Surroundings of a call *)

(** What [await paymentGateway.processPayment(...)] can hand back to
    [addMoney]: a result object with [success] true or false, or an
    exception (the call sits inside the [try] block). *)
Inductive payment_result :=
  | Payment_success (message : string) (gatewayResponse : gateway_response)
  | Payment_failure (message : string)
  | Payment_throws.

(** [now]: the clock when the call starts ([Date.now()], [NOW()],
    [new Date()]), in milliseconds; [uuid1], [uuid2]: the successive results
    of [uuidv4()]; [otp_digits]: the result of [generateOTP(6)];
    [payment]: the gateway's answer; [gateway_delay]: the time the gateway
    call took. *)
Record env := {
  now : Z;
  uuid1 : string;
  uuid2 : string;
  otp_digits : string;
  payment : payment_result;
  gateway_delay : Z
}.

(** [new Date().toISOString().split('T')[0]]: the UTC calendar day. *)
Definition today (t : Z) : Z := t / 86400000.

(** ** Mock payment gateway (services/paymentGateway.js) *)

Definition method_name (m : payment_method) : string :=
  match m with UPI => "UPI" | CARD => "CARD" | NET_BANKING => "NET_BANKING" end.

Definition failures (m : payment_method) : list string :=
  match m with
  | UPI =>
      [ "UPI transaction failed - Insufficient balance in bank account";
        "UPI transaction declined by bank";
        "UPI PIN incorrect";
        "Transaction timeout - Please try again";
        "UPI app not responding" ]
  | CARD =>
      [ "Card declined - Insufficient funds";
        "Invalid CVV";
        "Card expired";
        "Transaction declined by bank";
        "3D Secure authentication failed";
        "Card blocked - Contact your bank" ]
  | NET_BANKING =>
      [ "Net banking session timeout";
        "Invalid credentials";
        "Bank server not responding";
        "Transaction declined by bank";
        "Daily transaction limit exceeded" ]
  end.

(** [pick] stands for [Math.floor(Math.random() * methodFailures.length)]. *)
Definition simulateFailure (pick : nat) (method : payment_method) : payment_result :=
  let methodFailures := failures method in
  Payment_failure (nth (pick mod length methodFailures) methodFailures "Transaction failed").

(** [shouldFail] stands for [Math.random() < failureRate]. *)
Definition processPayment (shouldFail : bool) (pick : nat) (timestamp : Z)
    (method : payment_method) (amount : Z) : payment_result :=
  if shouldFail then simulateFailure pick method
  else Payment_success (String.append "Payment successful via " (method_name method))
         {| g_method := method; g_amount := amount; g_timestamp := timestamp |}.

(** ** SQL statements of the service *)

Definition set_wallets (f : gmap Z wallet -> gmap Z wallet) (s : db) : db :=
  {| users := users s; wallets := f (wallets s); transactions := transactions s;
     daily_limits := daily_limits s; otps := otps s |}.

Definition set_transactions (f : list transaction -> list transaction) (s : db) : db :=
  {| users := users s; wallets := wallets s; transactions := f (transactions s);
     daily_limits := daily_limits s; otps := otps s |}.

Definition set_daily_limits
    (f : gmap (Z * Z) daily_limit -> gmap (Z * Z) daily_limit) (s : db) : db :=
  {| users := users s; wallets := wallets s; transactions := transactions s;
     daily_limits := f (daily_limits s); otps := otps s |}.

Definition set_otps (f : list otp -> list otp) (s : db) : db :=
  {| users := users s; wallets := wallets s; transactions := transactions s;
     daily_limits := daily_limits s; otps := f (otps s) |}.

(** [SELECT id, name FROM users WHERE email = ? AND is_active = TRUE] *)
Definition active_with_email (toEmail : string) (u : user) : bool :=
  String.eqb (email u) toEmail && is_active u.

Definition SELECT_users_by_email (toEmail : string) : M (list user) :=
  gets (fun s => List.filter (active_with_email toEmail) (users s)).

(** [SELECT balance, currency FROM wallets WHERE user_id = ?] (with or without
    [FOR UPDATE]: the lock has no effect on what is read). *)
Definition SELECT_wallet (userId : Z) : M (list wallet) :=
  gets (fun s => match wallets s !! userId with Some w => [w] | None => [] end).

Definition wallet_row (s : db) (u : Z) : option (Z * wallet) :=
  match wallets s !! u with Some w => Some (u, w) | None => None end.

(** [SELECT user_id, balance FROM wallets WHERE user_id IN (?, ?) FOR UPDATE]:
    the rows whose user_id is one of the two values, each once. *)
Definition SELECT_wallets_IN (userIds : list Z) : M (list (Z * wallet)) :=
  gets (fun s => omap (wallet_row s) (remove_dups userIds)).

(** [UPDATE wallets SET balance = ? WHERE user_id = ?], under
    [CONSTRAINT chk_positive_balance CHECK (balance >= 0)]. *)
Definition UPDATE_wallets_SET_balance (newBalance : Z) (userId : Z) : M unit :=
  fun s =>
    match wallets s !! userId with
    | None => (s, Return tt)
    | Some w =>
        if newBalance <? 0 then (s, Throw (Constraint_violation chk_positive_balance))
        else (set_wallets <[userId := {| balance := newBalance; currency := currency w |}]> s,
              Return tt)
    end.

Definition has_transaction_id (tid : string) (l : list transaction) : bool :=
  existsb (fun t => String.eqb (transaction_id t) tid) l.

Definition by_key (k : string) (t : transaction) : bool :=
  match idempotency_key t with Some k' => String.eqb k' k | None => false end.

Definition has_idempotency_key (k : string) (l : list transaction) : bool :=
  existsb (by_key k) l.

(** [INSERT INTO transactions (...) VALUES (...)], under
    [CHECK (amount > 0)], [transaction_id ... UNIQUE] and
    [idempotency_key ... UNIQUE] (NULL keys never collide). *)
Definition INSERT_INTO_transactions (row : transaction) : M unit :=
  fun s =>
    if negb (0 <? amount row) then (s, Throw (Constraint_violation chk_positive_amount))
    else if has_transaction_id (transaction_id row) (transactions s)
    then (s, Throw (Constraint_violation unique_transaction_id))
    else if match idempotency_key row with
            | Some k => has_idempotency_key k (transactions s)
            | None => false
            end
    then (s, Throw (Constraint_violation unique_idempotency_key))
    else (set_transactions (fun l => app l [row]) s, Return tt).

(** [UPDATE transactions SET ... WHERE transaction_id = ?] *)
Definition UPDATE_transactions (f : transaction -> transaction) (tid : string) : M unit :=
  modify (set_transactions
            (List.map (fun t => if String.eqb (transaction_id t) tid then f t else t))).

(** [SELECT ... FROM transactions WHERE idempotency_key = ?] *)
Definition SELECT_transactions_by_key (k : string) : M (list transaction) :=
  gets (fun s => List.filter (by_key k) (transactions s)).

(** [SELECT total_added, total_transferred FROM daily_limits
     WHERE user_id = ? AND date = ?] *)
Definition SELECT_daily_limit (userId : Z) (date : Z) : M (list daily_limit) :=
  gets (fun s => match daily_limits s !! (userId, date) with Some d => [d] | None => [] end).

Inductive limit_column := col_total_added | col_total_transferred.

(** [INSERT INTO daily_limits (user_id, date, column) VALUES (?, ?, ?)
     ON DUPLICATE KEY UPDATE column = column + ?]; the column that is not
    named takes its default 0.00 in a new row. *)
Definition upsert_daily_limit (userId : Z) (date : Z) (column : limit_column) (amt : Z)
    (m : gmap (Z * Z) daily_limit) : gmap (Z * Z) daily_limit :=
  match m !! (userId, date), column with
  | None, col_total_added =>
      <[(userId, date) := {| total_added := amt; total_transferred := 0 |}]> m
  | None, col_total_transferred =>
      <[(userId, date) := {| total_added := 0; total_transferred := amt |}]> m
  | Some d, col_total_added =>
      <[(userId, date) := {| total_added := total_added d + amt;
                             total_transferred := total_transferred d |}]> m
  | Some d, col_total_transferred =>
      <[(userId, date) := {| total_added := total_added d;
                             total_transferred := total_transferred d + amt |}]> m
  end.

Definition INSERT_daily_limits_ON_DUPLICATE_KEY_UPDATE
    (userId : Z) (date : Z) (column : limit_column) (amt : Z) : M unit :=
  modify (set_daily_limits (upsert_daily_limit userId date column amt)).

(** [INSERT INTO otps (user_id, otp_code, purpose, reference_id, expires_at)
     VALUES (?, ?, 'TRANSFER', ?, ?)]; [is_used] defaults to FALSE. *)
Definition INSERT_INTO_otps (userId : Z) (code : string) (referenceId : string)
    (expiresAt : Z) : M unit :=
  modify (set_otps (fun l => app l [{| otp_user_id := userId; otp_code := code;
                                         purpose := "TRANSFER"; reference_id := referenceId;
                                         is_used := false; expires_at := expiresAt |}])).

Definition otp_matches (userId : Z) (referenceId code : string) (t : Z) (o : otp) : bool :=
  (otp_user_id o =? userId) && String.eqb (reference_id o) referenceId
  && String.eqb (otp_code o) code && negb (is_used o) && (t <? expires_at o).

Fixpoint matching_ids (p : otp -> bool) (i : nat) (l : list otp) : list nat :=
  match l with
  | [] => []
  | o :: l' => if p o then i :: matching_ids p (S i) l' else matching_ids p (S i) l'
  end.

(** [SELECT id FROM otps WHERE user_id = ? AND reference_id = ? AND
     otp_code = ? AND is_used = FALSE AND expires_at > NOW()] *)
Definition SELECT_otps (userId : Z) (referenceId code : string) (t : Z) : M (list nat) :=
  gets (fun s => matching_ids (otp_matches userId referenceId code t) 0 (otps s)).

Definition mark_used (o : otp) : otp :=
  {| otp_user_id := otp_user_id o; otp_code := otp_code o; purpose := purpose o;
     reference_id := reference_id o; is_used := true; expires_at := expires_at o |}.

(** [UPDATE otps SET is_used = TRUE WHERE id = ?] *)
Definition UPDATE_otps_SET_is_used (otpId : nat) : M unit :=
  modify (set_otps (alter mark_used otpId)).

(** ** WalletService (services/walletService.js) *)

(** The [transaction] object of a fresh response. *)
Record receipt := {
  r_id : string;
  r_amount : Z;
  r_balance : Z;
  r_paymentMethod : option payment_method;
  r_recipient : option string;
  r_status : transaction_status
}.

(** What [addMoney] and [transfer] return: their own response, or the one
    [checkIdempotency] builds from the stored row ([isDuplicate: true],
    message 'Duplicate request - returning cached response'). *)
Inductive response :=
  | Response (success : bool) (message : string) (txn : receipt)
  | Duplicate_response (success : bool) (txn : transaction).

Definition success (r : response) : bool :=
  match r with Response b _ _ => b | Duplicate_response b _ => b end.

Definition isDuplicate (r : response) : bool :=
  match r with Response _ _ _ => false | Duplicate_response _ _ => true end.

(** The ledger entry a response refers to: [transaction.id] of a fresh
    response, [transaction.transaction_id] of a cached one. *)
Definition entry_id (r : response) : string :=
  match r with
  | Response _ _ t => r_id t
  | Duplicate_response _ t => transaction_id t
  end.

Record otp_response := {
  referenceId : string;
  recipient_name : string;
  recipient_email : string;
  otp_sent : string
}.

(** What [addMoney] keeps in local variables across the gateway call. *)
Record add_money_call := {
  am_transactionId : string;
  am_userId : Z;
  am_amount : Z;
  am_paymentMethod : payment_method;
  am_currentBalance : Z
}.

Section Service.

Variable cfg : config.

Definition getBalance (userId : Z) : M wallet :=
  wallets <- SELECT_wallet userId ;;
  match wallets with
  | [] => throw Wallet_not_found
  | w :: _ => ret w
  end.

(** The regular expression [/^\d+(\.\d{1,2})?$/] on [amount.toString()]: on
    amounts in paise it rules out the leading minus sign only. *)
Definition validateAmount (amount : Z) : outcome unit :=
  if amount <? MIN_TRANSACTION_AMOUNT cfg then Throw Minimum_transaction_amount
  else if MAX_TRANSACTION_AMOUNT cfg <? amount then Throw Maximum_transaction_amount
  else if negb (0 <=? amount) then Throw Maximum_2_decimal_places
  else Return tt.

Definition checkIdempotency (idempotencyKey : option string) : M (option response) :=
  match idempotencyKey with
  | None => ret None
  | Some k =>
      if String.eqb k "" then ret None
      else
        transactions <- SELECT_transactions_by_key k ;;
        match transactions with
        | txn :: _ =>
            ret (Some (Duplicate_response (transaction_status_eqb (status txn) SUCCESS) txn))
        | [] => ret None
        end
  end.

Definition checkDailyAddMoneyLimit (t : Z) (userId amount : Z) : M unit :=
  limits <- SELECT_daily_limit userId (today t) ;;
  let totalAdded := match limits with d :: _ => total_added d | [] => 0 end in
  if DAILY_ADD_MONEY_LIMIT cfg <? totalAdded + amount
  then throw Daily_add_money_limit_exceeded
  else ret tt.

Definition checkDailyTransferLimit (t : Z) (userId amount : Z) : M unit :=
  limits <- SELECT_daily_limit userId (today t) ;;
  let totalTransferred := match limits with d :: _ => total_transferred d | [] => 0 end in
  if DAILY_TRANSFER_LIMIT cfg <? totalTransferred + amount
  then throw Daily_transfer_limit_exceeded
  else ret tt.

Definition updateDailyLimit (t : Z) (userId : Z) (column : limit_column) (amount : Z) : M unit :=
  INSERT_daily_limits_ON_DUPLICATE_KEY_UPDATE userId (today t) column amount.

(** [addMoney] up to the call of the gateway: validation, daily limit,
    idempotency, and the first transaction, which records the PENDING entry.
    [inl] is the early [return existingTransaction]. *)
Definition addMoney_begin (e : env) (userId amount : Z) (paymentMethod : payment_method)
    (idempotencyKey : option string) : M (response + add_money_call) :=
  lift (validateAmount amount) ;;;
  checkDailyAddMoneyLimit (now e) userId amount ;;;
  existingTransaction <- checkIdempotency idempotencyKey ;;
  match existingTransaction with
  | Some r => ret (inl r)
  | None =>
      let transactionId := uuid1 e in
      call <- atomic (
        wallets <- SELECT_wallet userId ;;
        match wallets with
        | [] => throw Wallet_not_found
        | w :: _ =>
            let currentBalance := balance w in
            INSERT_INTO_transactions
              {| transaction_id := transactionId;
                 idempotency_key := idempotencyKey;
                 user_id := userId;
                 type := ADD_MONEY;
                 amount := amount;
                 balance_before := currentBalance;
                 balance_after := currentBalance;
                 status := PENDING;
                 txn_payment_method := Some paymentMethod;
                 counterparty_user_id := None;
                 counterparty_transaction_id := None;
                 metadata := None;
                 failure_reason := None |} ;;;
            ret {| am_transactionId := transactionId; am_userId := userId;
                   am_amount := amount; am_paymentMethod := paymentMethod;
                   am_currentBalance := currentBalance |}
        end) ;;
      ret (inr call)
  end.

Definition set_success (newBalance : Z) (g : gateway_response) (t : transaction) : transaction :=
  {| transaction_id := transaction_id t; idempotency_key := idempotency_key t;
     user_id := user_id t; type := type t; amount := amount t;
     balance_before := balance_before t; balance_after := newBalance;
     status := SUCCESS; txn_payment_method := txn_payment_method t;
     counterparty_user_id := counterparty_user_id t;
     counterparty_transaction_id := counterparty_transaction_id t;
     metadata := Some g;
     failure_reason := failure_reason t |}.

Definition set_failed (reason : string) (t : transaction) : transaction :=
  {| transaction_id := transaction_id t; idempotency_key := idempotency_key t;
     user_id := user_id t; type := type t; amount := amount t;
     balance_before := balance_before t; balance_after := balance_after t;
     status := FAILED; txn_payment_method := txn_payment_method t;
     counterparty_user_id := counterparty_user_id t;
     counterparty_transaction_id := counterparty_transaction_id t;
     metadata := metadata t;
     failure_reason := Some reason |}.

(** [addMoney] from the answer of the gateway on; [t] is the clock then.
    An exception of the gateway call reaches the [catch] block, whose
    [rollback] finds no open transaction, and is thrown again. *)
Definition addMoney_finish (t : Z) (call : add_money_call) (paymentResult : payment_result)
    : M response :=
  let transactionId := am_transactionId call in
  let userId := am_userId call in
  let amount := am_amount call in
  let currentBalance := am_currentBalance call in
  match paymentResult with
  | Payment_throws => throw Gateway_exception
  | Payment_success message gatewayResponse =>
      atomic (
        let newBalance := currentBalance + amount in
        UPDATE_wallets_SET_balance newBalance userId ;;;
        UPDATE_transactions (set_success newBalance gatewayResponse) transactionId ;;;
        updateDailyLimit t userId col_total_added amount ;;;
        ret (Response true message
               {| r_id := transactionId; r_amount := amount; r_balance := newBalance;
                  r_paymentMethod := Some (am_paymentMethod call); r_recipient := None;
                  r_status := SUCCESS |}))
  | Payment_failure message =>
      atomic (
        UPDATE_transactions (set_failed message) transactionId ;;;
        ret (Response false message
               {| r_id := transactionId; r_amount := amount; r_balance := currentBalance;
                  r_paymentMethod := Some (am_paymentMethod call); r_recipient := None;
                  r_status := FAILED |}))
  end.

(** [addMoney] when nothing else touches the store during the gateway call. *)
Definition addMoney (e : env) (userId amount : Z) (paymentMethod : payment_method)
    (idempotencyKey : option string) : M response :=
  r <- addMoney_begin e userId amount paymentMethod idempotencyKey ;;
  match r with
  | inl existingTransaction => ret existingTransaction
  | inr call => addMoney_finish (now e + gateway_delay e) call (payment e)
  end.

Definition generateTransferOTP (e : env) (userId : Z) (toEmail : string) (amount : Z)
    : M otp_response :=
  lift (validateAmount amount) ;;;
  recipients <- SELECT_users_by_email toEmail ;;
  match recipients with
  | [] => throw Recipient_not_found
  | recipient :: _ =>
      let recipientId := id recipient in
      if recipientId =? userId then throw Cannot_transfer_to_yourself
      else
        wallets <- SELECT_wallet userId ;;
        if match wallets with [] => true | w :: _ => balance w <? amount end
        then throw Insufficient_balance
        else
          checkDailyTransferLimit (now e) userId amount ;;;
          let otp := otp_digits e in
          let referenceId := uuid1 e in
          let expiresAt := now e + OTP_VALIDITY_MINUTES cfg * 60 * 1000 in
          INSERT_INTO_otps userId otp referenceId expiresAt ;;;
          ret {| referenceId := referenceId; recipient_name := name recipient;
                 recipient_email := toEmail; otp_sent := otp |}
  end.

(** [[userId, recipientId].sort((a, b) => a - b)] *)
Definition sort_ids (a b : Z) : list Z := if b <? a then [b; a] else [a; b].

Definition find_wallet (userId : Z) (rows : list (Z * wallet)) : option (Z * wallet) :=
  List.find (fun w => fst w =? userId) rows.

Definition transfer (e : env) (userId : Z) (toEmail : string) (amount : Z)
    (otp referenceId : string) (idempotencyKey : option string) : M response :=
  otps <- SELECT_otps userId referenceId otp (now e) ;;
  match otps with
  | [] => throw Invalid_or_expired_OTP
  | otpId :: _ =>
      existingTransaction <- checkIdempotency idempotencyKey ;;
      match existingTransaction with
      | Some r => ret r
      | None =>
          let debitTransactionId := uuid1 e in
          let creditTransactionId := uuid2 e in
          atomic (
            recipients <- SELECT_users_by_email toEmail ;;
            match recipients with
            | [] => throw Recipient_not_found
            | recipient :: _ =>
                let recipientId := id recipient in
                let userIds := sort_ids userId recipientId in
                wallets <- SELECT_wallets_IN userIds ;;
                match find_wallet userId wallets, find_wallet recipientId wallets with
                | Some senderWallet, Some recipientWallet =>
                    let senderBalance := balance (snd senderWallet) in
                    let recipientBalance := balance (snd recipientWallet) in
                    if senderBalance <? amount then throw Insufficient_balance
                    else
                      let newSenderBalance := senderBalance - amount in
                      let newRecipientBalance := recipientBalance + amount in
                      UPDATE_wallets_SET_balance newSenderBalance userId ;;;
                      UPDATE_wallets_SET_balance newRecipientBalance recipientId ;;;
                      INSERT_INTO_transactions
                        {| transaction_id := debitTransactionId;
                           idempotency_key := idempotencyKey;
                           user_id := userId;
                           type := TRANSFER_DEBIT;
                           amount := amount;
                           balance_before := senderBalance;
                           balance_after := newSenderBalance;
                           status := SUCCESS;
                           txn_payment_method := None;
                           counterparty_user_id := Some recipientId;
                           counterparty_transaction_id := Some creditTransactionId;
                           metadata := None;
                           failure_reason := None |} ;;;
                      INSERT_INTO_transactions
                        {| transaction_id := creditTransactionId;
                           idempotency_key := None;
                           user_id := recipientId;
                           type := TRANSFER_CREDIT;
                           amount := amount;
                           balance_before := recipientBalance;
                           balance_after := newRecipientBalance;
                           status := SUCCESS;
                           txn_payment_method := None;
                           counterparty_user_id := Some userId;
                           counterparty_transaction_id := Some debitTransactionId;
                           metadata := None;
                           failure_reason := None |} ;;;
                      UPDATE_otps_SET_is_used otpId ;;;
                      updateDailyLimit (now e) userId col_total_transferred amount ;;;
                      ret (Response true "Transfer successful"
                             {| r_id := debitTransactionId; r_amount := amount;
                                r_balance := newSenderBalance; r_paymentMethod := None;
                                r_recipient := Some toEmail; r_status := SUCCESS |})
                | _, _ => throw Wallet_not_found
                end
            end)
      end
  end.

End Service.

(** ** Route layer (routes/walletRoutes.js)

    The validator of the amount in POST /transfer,
    [body('amount').isFloat({ min: 100, max: 200000 })]; a request that fails
    it is answered with status 400 and never reaches [transfer]. *)

Definition route_accepts_amount (amt : Z) : bool :=
  (rupees 100 <=? amt) && (amt <=? rupees 200000).

(** ** Concurrent requests

    Requests are served one step at a time.  [addMoney] gives way to other
    requests while it awaits the gateway, so its two halves are separate
    steps, with the calls that await the gateway kept in [in_flight];
    [Req_addMoney] is a call that nothing interrupts.  Every other method is
    one step: what it reads before its transaction is read at the moment the
    transaction runs. *)

Record system := {
  store : db;
  in_flight : list add_money_call
}.

Inductive request :=
  | Req_getBalance (userId : Z)
  | Req_addMoney (e : env) (userId amount : Z) (paymentMethod : payment_method)
      (idempotencyKey : option string)
  | Req_addMoney_begin (e : env) (userId amount : Z) (paymentMethod : payment_method)
      (idempotencyKey : option string)
  | Req_addMoney_finish (t : Z) (n : nat) (paymentResult : payment_result)
  | Req_generateTransferOTP (e : env) (userId : Z) (toEmail : string) (amount : Z)
  | Req_transfer (e : env) (userId : Z) (toEmail : string) (amount : Z)
      (otp referenceId : string) (idempotencyKey : option string).

Definition step (cfg : config) (r : request) (sys : system) : system :=
  match r with
  | Req_getBalance userId =>
      {| store := fst (getBalance userId (store sys)); in_flight := in_flight sys |}
  | Req_addMoney e userId amount paymentMethod idempotencyKey =>
      {| store := fst (addMoney cfg e userId amount paymentMethod idempotencyKey (store sys));
         in_flight := in_flight sys |}
  | Req_addMoney_begin e userId amount paymentMethod idempotencyKey =>
      match addMoney_begin cfg e userId amount paymentMethod idempotencyKey (store sys) with
      | (s', Return (inr call)) => {| store := s'; in_flight := app (in_flight sys) [call] |}
      | (s', _) => {| store := s'; in_flight := in_flight sys |}
      end
  | Req_addMoney_finish t n paymentResult =>
      match in_flight sys !! n with
      | Some call =>
          {| store := fst (addMoney_finish t call paymentResult (store sys));
             in_flight := delete n (in_flight sys) |}
      | None => sys
      end
  | Req_generateTransferOTP e userId toEmail amount =>
      {| store := fst (generateTransferOTP cfg e userId toEmail amount (store sys));
         in_flight := in_flight sys |}
  | Req_transfer e userId toEmail amount otp referenceId idempotencyKey =>
      {| store := fst (transfer e userId toEmail amount otp referenceId idempotencyKey
                         (store sys));
         in_flight := in_flight sys |}
  end.

Definition run (cfg : config) (l : list request) (sys : system) : system :=
  fold_left (fun sys r => step cfg r sys) l sys.

Definition idle (s : db) : system := {| store := s; in_flight := [] |}.

(** ** The transfer of the concurrency test (tests/concurrency.test.js)

    [performTransfer] is the test's own copy of the transfer: no OTP, no
    idempotency key, no daily total, the recipient given by id.  It never
    throws: its [catch] block rolls back and returns a failure. *)

Inductive transfer_failure :=
  | Reason_insufficient_balance
  | Reason_undefined_wallet
  | Reason_error (err : error).

Inductive test_result :=
  | Test_success (debitTxnId creditTxnId : string)
  | Test_failure (reason : transfer_failure).

Definition performTransfer (e : env) (fromUserId toUserId amount : Z)
    : db -> db * test_result :=
  fun s =>
    let debitTxnId := uuid1 e in
    let creditTxnId := uuid2 e in
    let userIds := sort_ids fromUserId toUserId in
    let wallets := omap (wallet_row s) (remove_dups userIds) in
    match find_wallet fromUserId wallets, find_wallet toUserId wallets with
    | Some senderWallet, Some recipientWallet =>
        let senderBalance := balance (snd senderWallet) in
        let recipientBalance := balance (snd recipientWallet) in
        if senderBalance <? amount then (s, Test_failure Reason_insufficient_balance)
        else
          let newSenderBalance := senderBalance - amount in
          let newRecipientBalance := recipientBalance + amount in
          match
            (UPDATE_wallets_SET_balance newSenderBalance fromUserId ;;;
             UPDATE_wallets_SET_balance newRecipientBalance toUserId ;;;
             INSERT_INTO_transactions
               {| transaction_id := debitTxnId;
                  idempotency_key := None;
                  user_id := fromUserId;
                  type := TRANSFER_DEBIT;
                  amount := amount;
                  balance_before := senderBalance;
                  balance_after := newSenderBalance;
                  status := SUCCESS;
                  txn_payment_method := None;
                  counterparty_user_id := Some toUserId;
                  counterparty_transaction_id := Some creditTxnId;
                  metadata := None;
                  failure_reason := None |} ;;;
             INSERT_INTO_transactions
               {| transaction_id := creditTxnId;
                  idempotency_key := None;
                  user_id := toUserId;
                  type := TRANSFER_CREDIT;
                  amount := amount;
                  balance_before := recipientBalance;
                  balance_after := newRecipientBalance;
                  status := SUCCESS;
                  txn_payment_method := None;
                  counterparty_user_id := Some fromUserId;
                  counterparty_transaction_id := Some debitTxnId;
                  metadata := None;
                  failure_reason := None |}) s
          with
          | (s', Return _) => (s', Test_success debitTxnId creditTxnId)
          | (_, Throw err) => (s, Test_failure (Reason_error err))
          end
    | _, _ => (s, Test_failure Reason_undefined_wallet)
    end.

(** ** Transaction history (walletService.getTransactionHistory)

    The rows of the model keep no [created_at]; the order in which MySQL
    hands back the rows under [ORDER BY t.created_at DESC], which is free
    among entries created within the same second, is a parameter. *)

Record history_row := {
  h_transaction_id : string;
  h_type : transaction_type;
  h_amount : Z;
  h_balance_after : Z;
  h_status : transaction_status;
  h_payment_method : option payment_method;
  h_failure_reason : option string;
  h_counterparty_email : option string;
  h_counterparty_name : option string
}.

(** What [Math.ceil(total / limit)] can be. *)
Inductive js_number := Finite (z : Z) | Infinity | NaN.

Record pagination := {
  p_page : Z;
  p_limit : Z;
  p_total : Z;
  p_totalPages : js_number
}.

(** The object [getTransactionHistory] returns, or the error of the first
    query: MySQL refuses a negative LIMIT or OFFSET. *)
Inductive history_result :=
  | History (transactions : list history_row) (p : pagination)
  | History_query_fails.

Definition select_row (t : transaction) (u : option user) : history_row :=
  {| h_transaction_id := transaction_id t; h_type := type t; h_amount := amount t;
     h_balance_after := balance_after t; h_status := status t;
     h_payment_method := txn_payment_method t; h_failure_reason := failure_reason t;
     h_counterparty_email := email <$> u; h_counterparty_name := name <$> u |}.

(** [FROM transactions t LEFT JOIN users u ON t.counterparty_user_id = u.id]:
    a row for every matching user, and one row with NULLs when there is
    none. *)
Definition LEFT_JOIN_users (us : list user) (t : transaction) : list history_row :=
  match counterparty_user_id t with
  | None => [select_row t None]
  | Some c =>
      match List.filter (fun u => id u =? c) us with
      | [] => [select_row t None]
      | matches => List.map (fun u => select_row t (Some u)) matches
      end
  end.

(** [Math.ceil(total / limit)] for a count [total] and a [limit] that is not
    negative. *)
Definition ceil_quotient (total limit : Z) : js_number :=
  if limit =? 0 then (if total =? 0 then NaN else Infinity)
  else Finite (- ((- total) / limit)).

Definition getTransactionHistory
    (ORDER_BY_created_at_DESC : list history_row -> list history_row)
    (userId page limit : Z) (s : db) : history_result :=
  let offset := (page - 1) * limit in
  if (limit <? 0) || (offset <? 0) then History_query_fails
  else
    let own := List.filter (fun t => user_id t =? userId) (transactions s) in
    let transactions :=
      take (Z.to_nat limit)
        (drop (Z.to_nat offset)
           (ORDER_BY_created_at_DESC (flat_map (LEFT_JOIN_users (users s)) own))) in
    let total := Z.of_nat (length own) in
    History transactions
      {| p_page := page; p_limit := limit; p_total := total;
         p_totalPages := ceil_quotient total limit |}.

(** ** One-time codes (utils/crypto.js) *)




Definition digits : string := "0123456789".




(** ** AuthService (services/authService.js)

    The [password_hash] column of [users] is kept beside the store, by user
    id.  [email_eq] is the equality of the collation of the [email] column;
    [hashPassword] is SHA-256 in hexadecimal; [sign now userId email name] is
    [jwt.sign({ userId, email, name }, JWT_SECRET, { expiresIn })] at the
    time [now]; [insertId] is the id that AUTO_INCREMENT hands out. *)

Record auth_db := {
  wallet_db : db;
  password_hashes : gmap Z string
}.

Inductive auth_error :=
  | Email_already_registered
  | Invalid_email_or_password
  | User_not_found
  | Duplicate_entry.

Inductive auth_outcome (A : Type) :=
  | Auth_return (a : A)
  | Auth_throw (e : auth_error).
Arguments Auth_return {A} a.
Arguments Auth_throw {A} e.

Record auth_user := {
  au_id : Z;
  au_name : string;
  au_email : string
}.

Record auth_response := {
  a_success : bool;
  a_user : auth_user;
  a_token : string
}.

(** A row of [getProfile]; the wallet columns are NULL when the user has no
    wallet. *)
Record profile := {
  pr_id : Z;
  pr_name : string;
  pr_email : string;
  pr_balance : option Z;
  pr_currency : option string
}.

Section Auth.

Variable email_eq : string -> string -> bool.
Variable hashPassword : string -> string.
Variable sign : Z -> Z -> string -> string -> string.

Definition verifyPassword (password : string) (hash : option string) : bool :=
  let passwordHash := hashPassword password in
  match hash with
  | Some h => String.eqb passwordHash h
  | None => false
  end.

(** [INSERT INTO users (name, email, password_hash) VALUES (?, ?, ?)] and
    [INSERT INTO wallets (user_id, balance) VALUES (?, 0.00)], in one
    transaction: a taken id or a user who has a wallet already is a duplicate
    entry, which rolls both back.  (The UNIQUE index on [email] cannot fail
    after the SELECT.) *)
Definition register (now : Z) (insertId : Z) (userName userEmail password : string)
    : auth_db -> auth_db * auth_outcome auth_response :=
  fun a =>
    let s := wallet_db a in
    let existingUsers := List.filter (fun u => email_eq (email u) userEmail) (users s) in
    match existingUsers with
    | _ :: _ => (a, Auth_throw Email_already_registered)
    | [] =>
        let passwordHash := hashPassword password in
        if existsb (fun u => id u =? insertId) (users s) then (a, Auth_throw Duplicate_entry)
        else
          let userId := insertId in
          match wallets s !! userId with
          | Some _ => (a, Auth_throw Duplicate_entry)
          | None =>
              ({| wallet_db :=
                    {| users := app (users s)
                                  [{| id := userId; name := userName; email := userEmail;
                                      is_active := true |}];
                       wallets := <[userId := {| balance := 0; currency := "INR" |}]>
                                    (wallets s);
                       transactions := transactions s;
                       daily_limits := daily_limits s;
                       otps := otps s |};
                  password_hashes := <[userId := passwordHash]> (password_hashes a) |},
               Auth_return {| a_success := true;
                              a_user := {| au_id := userId; au_name := userName;
                                           au_email := userEmail |};
                              a_token := sign now userId userEmail userName |})
          end
    end.

Definition login (now : Z) (userEmail password : string)
    : auth_db -> auth_db * auth_outcome auth_response :=
  fun a =>
    let s := wallet_db a in
    let users :=
      List.filter (fun u => email_eq (email u) userEmail && is_active u) (users s) in
    match users with
    | [] => (a, Auth_throw Invalid_email_or_password)
    | user :: _ =>
        let isValidPassword := verifyPassword password (password_hashes a !! id user) in
        if negb isValidPassword then (a, Auth_throw Invalid_email_or_password)
        else
          (a, Auth_return {| a_success := true;
                             a_user := {| au_id := id user; au_name := name user;
                                          au_email := email user |};
                             a_token := sign now (id user) (email user) (name user) |})
    end.

(** [FROM users u LEFT JOIN wallets w ON u.id = w.user_id
     WHERE u.id = ? AND u.is_active = TRUE] *)
Definition getProfile (userId : Z) : auth_db -> auth_db * auth_outcome profile :=
  fun a =>
    let s := wallet_db a in
    let users :=
      List.map (fun u => {| pr_id := id u; pr_name := name u; pr_email := email u;
                            pr_balance := balance <$> wallets s !! id u;
                            pr_currency := currency <$> wallets s !! id u |})
        (List.filter (fun u => (id u =? userId) && is_active u) (users s)) in
    match users with
    | [] => (a, Auth_throw User_not_found)
    | row :: _ => (a, Auth_return row)
    end.

End Auth.

(** * Vocabulary of the properties *)

(** ** Reading the store *)

(** The answer of [checkIdempotency], which only reads. *)
Definition cached (key : option string) (s : db) : option response :=
  match key with
  | None => None
  | Some k =>
      if String.eqb k "" then None
      else match List.filter (by_key k) (transactions s) with
           | txn :: _ =>
               Some (Duplicate_response (transaction_status_eqb (status txn) SUCCESS) txn)
           | [] => None
           end
  end.

(** ** What a call of [transfer] can do *)

Definition debit_entry (e : env) (u : Z) (amt : Z) (key : option string)
    (recipient : user) (sw : wallet) : transaction :=
  {| transaction_id := uuid1 e; idempotency_key := key; user_id := u;
     type := TRANSFER_DEBIT; amount := amt; balance_before := balance sw;
     balance_after := balance sw - amt; status := SUCCESS;
     txn_payment_method := None; counterparty_user_id := Some (id recipient);
     counterparty_transaction_id := Some (uuid2 e); metadata := None;
     failure_reason := None |}.

Definition credit_entry (e : env) (u : Z) (amt : Z) (recipient : user) (rw : wallet)
    : transaction :=
  {| transaction_id := uuid2 e; idempotency_key := None; user_id := id recipient;
     type := TRANSFER_CREDIT; amount := amt; balance_before := balance rw;
     balance_after := balance rw + amt; status := SUCCESS;
     txn_payment_method := None; counterparty_user_id := Some u;
     counterparty_transaction_id := Some (uuid1 e); metadata := None;
     failure_reason := None |}.

(** The store a committed transfer leaves behind. *)
Definition transfer_commit (e : env) (u : Z) (amt : Z) (key : option string) (otpId : nat)
    (recipient : user) (sw rw : wallet) (s : db) : db :=
  {| users := users s;
     wallets :=
       <[id recipient := {| balance := balance rw + amt; currency := currency rw |}]>
         (<[u := {| balance := balance sw - amt; currency := currency sw |}]> (wallets s));
     transactions :=
       app (app (transactions s) [debit_entry e u amt key recipient sw])
           [credit_entry e u amt recipient rw];
     daily_limits :=
       upsert_daily_limit u (today (now e)) col_total_transferred amt (daily_limits s);
     otps := alter mark_used otpId (otps s) |}.

Definition key_unused (key : option string) (l : list transaction) : bool :=
  match key with Some k => negb (has_idempotency_key k l) | None => true end.

Inductive transfer_spec (e : env) (u : Z) (toEmail : string) (amt : Z)
    (otp ref : string) (key : option string) (s : db) : db → outcome response → Prop :=
  | transfer_rejected err :
      transfer_spec e u toEmail amt otp ref key s s (Throw err)
  | transfer_replayed otpId rest c :
      matching_ids (otp_matches u ref otp (now e)) 0 (otps s) = otpId :: rest →
      cached key s = Some c →
      transfer_spec e u toEmail amt otp ref key s s (Return c)
  | transfer_committed otpId rest recipient rest' sw rw :
      matching_ids (otp_matches u ref otp (now e)) 0 (otps s) = otpId :: rest →
      cached key s = None →
      List.filter (active_with_email toEmail) (users s) = recipient :: rest' →
      wallets s !! u = Some sw →
      wallets s !! id recipient = Some rw →
      amt ≤ balance sw →
      0 ≤ balance rw + amt →
      0 < amt →
      has_transaction_id (uuid1 e) (transactions s) = false →
      has_transaction_id (uuid2 e) (transactions s) = false →
      uuid1 e ≠ uuid2 e →
      key_unused key (transactions s) = true →
      transfer_spec e u toEmail amt otp ref key s
        (transfer_commit e u amt key otpId recipient sw rw s)
        (Return (Response true "Transfer successful"
                   {| r_id := uuid1 e; r_amount := amt; r_balance := balance sw - amt;
                      r_paymentMethod := None; r_recipient := Some toEmail;
                      r_status := SUCCESS |})).

(** ** Invariants of the store *)

(** [preserves I m]: whatever [m] does, and whether it returns or throws, it
    takes a store in [I] to a store in [I]. *)
Definition preserves {A} (I : db → Prop) (m : M A) : Prop :=
  ∀ s s' r, I s → m s = (s', r) → I s'.

(** ** Non-negative balances *)

Definition balances_nonneg (s : db) : Prop :=
  ∀ u w, wallets s !! u = Some w → 0 ≤ balance w.

(** ** A small bank to run the service on *)

Definition alice : user := {| id := 1; name := "Alice"; email := "a@x.com"; is_active := true |}.
Definition bob : user := {| id := 2; name := "Bob"; email := "b@x.com"; is_active := true |}.
Definition carol : user := {| id := 3; name := "Carol"; email := "c@x.com"; is_active := true |}.

Definition INR (b : Z) : wallet := {| balance := b; currency := "INR" |}.

(** Alice holds 1000.00, Bob 500.00, Carol nothing; no history. *)
Definition bank : db := {|
  users := [alice; bob; carol];
  wallets := <[1 := INR (rupees 1000)]> (<[2 := INR (rupees 500)]> (<[3 := INR 0]> ∅));
  transactions := [];
  daily_limits := ∅;
  otps := []
|}.

Definition at_time (t : Z) (u1 u2 digits : string) (p : payment_result) : env :=
  {| now := t; uuid1 := u1; uuid2 := u2; otp_digits := digits; payment := p;
     gateway_delay := 1500 |}.

Definition paid (m : payment_method) (a : Z) : payment_result :=
  processPayment false 0 0 m a.

Definition a_busy_day : list request :=
  [ Req_addMoney (at_time 1000 "t1" "" "" (paid UPI (rupees 700))) 3 (rupees 700) UPI (Some "k1");
    Req_generateTransferOTP (at_time 2000 "ref1" "" "111111" Payment_throws) 1 "b@x.com" (rupees 400);
    Req_transfer (at_time 3000 "t2" "t3" "" Payment_throws) 1 "b@x.com" (rupees 400)
      "111111" "ref1" (Some "k2");
    Req_getBalance 1 ].

(** ** Transfers move money between two wallets *)

Definition balance_of (s : db) (u : Z) : option Z := balance <$> wallets s !! u.

(** The user an e-mail address resolves to: [recipients[0].id]. *)
Definition resolve (toEmail : string) (s : db) : option Z :=
  id <$> head (List.filter (active_with_email toEmail) (users s)).


(** Alice has sent 400.00 to Bob under the idempotency key k2, and holds a
    second, unused OTP. *)
Definition after_a_transfer : db :=
  store (run default_config
    [ Req_generateTransferOTP (at_time 2000 "ref1" "" "111111" Payment_throws)
        1 "b@x.com" (rupees 400);
      Req_transfer (at_time 3000 "t2" "t3" "" Payment_throws) 1 "b@x.com" (rupees 400)
        "111111" "ref1" (Some "k2");
      Req_generateTransferOTP (at_time 4000 "ref2" "" "222222" Payment_throws)
        1 "b@x.com" (rupees 400) ]
    (idle bank)).

(** ** One-time passwords *)

(** The OTP row a call presents: issued to [u] under [ref] with code [code],
    not yet used, not yet expired at time [t]. *)
Definition redeemable (u : Z) (ref code : string) (t : Z) (o : otp) : Prop :=
  otp_user_id o = u ∧ reference_id o = ref ∧ otp_code o = code ∧
  is_used o = false ∧ t < expires_at o.

(** *** A spent OTP stays spent *)

(** No row issued to [u] under [ref] with code [code] is left unused. *)
Definition spent (u : Z) (ref code : string) (s : db) : Prop :=
  ∀ o, o ∈ otps s →
    otp_user_id o = u → reference_id o = ref → otp_code o = code → is_used o = true.

(** The reference id names at most one row of [otps], as the ids that
    [uuidv4] hands out do. *)
Definition issued_once (ref : string) (s : db) : Prop :=
  (length (List.filter (λ o, String.eqb (reference_id o) ref) (otps s)) ≤ 1)%nat.


(** ** The ledger: every debit has its credit *)

(** [c] is the credit entry paired with the debit entry [d]. *)
Definition pairs (d c : transaction) : Prop :=
  type c = TRANSFER_CREDIT ∧ amount c = amount d ∧
  counterparty_user_id d = Some (user_id c) ∧
  counterparty_user_id c = Some (user_id d) ∧
  counterparty_transaction_id d = Some (transaction_id c) ∧
  counterparty_transaction_id c = Some (transaction_id d).

Definition entry_ids (s : db) : list string := List.map transaction_id (transactions s).

Definition ids_unique (s : db) : Prop := NoDup (entry_ids s).

Definition debits_paired (s : db) : Prop :=
  ∀ d, d ∈ transactions s → type d = TRANSFER_DEBIT →
       ∃ c, c ∈ transactions s ∧ pairs d c.

(** The columns a status update leaves alone. *)
Definition same_keys (t t' : transaction) : Prop :=
  transaction_id t = transaction_id t' ∧ type t = type t' ∧ amount t = amount t' ∧
  user_id t = user_id t' ∧ counterparty_user_id t = counterparty_user_id t' ∧
  counterparty_transaction_id t = counterparty_transaction_id t'.

(** How the ledger changes outside of transfers: entries keep their key
    columns, and the only new entries are ADD_MONEY entries. *)
Definition ledger_evolves (s s' : db) : Prop :=
  (∀ t', t' ∈ transactions s' → type t' ≠ ADD_MONEY →
         ∃ t, t ∈ transactions s ∧ same_keys t t') ∧
  (∀ t, t ∈ transactions s → ∃ t', t' ∈ transactions s' ∧ same_keys t t').

(** [evolves m]: whatever [m] does, the ledger it leaves evolved from the
    one it found. *)
Definition evolves {A} (m : M A) : Prop :=
  ∀ s s' r, m s = (s', r) → ledger_evolves s s'.

(** *** One step of the system, seen from the ledger *)

(** Either the ledger evolved without any new transfer entry, or exactly one
    debit and its credit were appended together, under ids the ledger did not
    hold. *)
Definition ledger_step (s s' : db) : Prop :=
  ledger_evolves s s' ∨
  ∃ d c, type d = TRANSFER_DEBIT ∧ pairs d c ∧
         transactions s' = app (transactions s) [d; c] ∧
         (transaction_id d ∉ entry_ids s) ∧ (transaction_id c ∉ entry_ids s).

Definition ledger_ok (s : db) : Prop := ids_unique s ∧ debits_paired s.

(** ** What a call of [addMoney] can do *)

(** The user's add-money total of a day; 0 without a row. *)
Definition added_on (s : db) (u day : Z) : Z :=
  match daily_limits s !! (u, day) with Some d => total_added d | None => 0 end.

Definition pending_entry (e : env) (u amt : Z) (pm : payment_method) (key : option string)
    (w : wallet) : transaction :=
  {| transaction_id := uuid1 e; idempotency_key := key; user_id := u; type := ADD_MONEY;
     amount := amt; balance_before := balance w; balance_after := balance w;
     status := PENDING; txn_payment_method := Some pm; counterparty_user_id := None;
     counterparty_transaction_id := None; metadata := None; failure_reason := None |}.

Inductive addMoney_begin_spec (cfg : config) (e : env) (u amt : Z) (pm : payment_method)
    (key : option string) (s : db) : db → outcome (response + add_money_call) → Prop :=
  | begin_rejected err :
      addMoney_begin_spec cfg e u amt pm key s s (Throw err)
  | begin_replayed c :
      validateAmount cfg amt = Return tt →
      added_on s u (today (now e)) + amt ≤ DAILY_ADD_MONEY_LIMIT cfg →
      cached key s = Some c →
      addMoney_begin_spec cfg e u amt pm key s s (Return (inl c))
  | begin_pending w :
      validateAmount cfg amt = Return tt →
      added_on s u (today (now e)) + amt ≤ DAILY_ADD_MONEY_LIMIT cfg →
      cached key s = None →
      wallets s !! u = Some w →
      0 < amt →
      has_transaction_id (uuid1 e) (transactions s) = false →
      key_unused key (transactions s) = true →
      addMoney_begin_spec cfg e u amt pm key s
        (set_transactions (λ l, app l [pending_entry e u amt pm key w]) s)
        (Return (inr {| am_transactionId := uuid1 e; am_userId := u; am_amount := amt;
                        am_paymentMethod := pm; am_currentBalance := balance w |})).

(** The wallet table after [UPDATE wallets SET balance = v WHERE user_id = u]. *)
Definition with_balance (v : Z) (u : Z) (m : gmap Z wallet) : gmap Z wallet :=
  match m !! u with
  | Some w => <[u := {| balance := v; currency := currency w |}]> m
  | None => m
  end.

Definition update_entry (f : transaction → transaction) (tid : string)
    (l : list transaction) : list transaction :=
  List.map (λ t, if String.eqb (transaction_id t) tid then f t else t) l.

(** The store after the second transaction of a paid [addMoney]. *)
Definition addMoney_commit (t : Z) (call : add_money_call) (g : gateway_response) (s : db)
    : db :=
  let newBalance := am_currentBalance call + am_amount call in
  {| users := users s;
     wallets := with_balance newBalance (am_userId call) (wallets s);
     transactions :=
       update_entry (set_success newBalance g) (am_transactionId call) (transactions s);
     daily_limits :=
       upsert_daily_limit (am_userId call) (today t) col_total_added (am_amount call)
         (daily_limits s);
     otps := otps s |}.

Definition addMoney_receipt (call : add_money_call) (b : Z) (st : transaction_status)
    : receipt :=
  {| r_id := am_transactionId call; r_amount := am_amount call; r_balance := b;
     r_paymentMethod := Some (am_paymentMethod call); r_recipient := None; r_status := st |}.

(** ** addMoney when the gateway reports success *)

(** Bob adds 300.00; while the gateway works, Alice's transfer of 400.00 to
    Bob commits; then the gateway reports success. *)
Definition credit_during_gateway_call : list request :=
  [ Req_generateTransferOTP (at_time 2000 "ref1" "" "111111" Payment_throws)
      1 "b@x.com" (rupees 400);
    Req_addMoney_begin (at_time 3000 "t1" "" "" Payment_throws) 2 (rupees 300) UPI (Some "k1");
    Req_transfer (at_time 4000 "t2" "t3" "" Payment_throws) 1 "b@x.com" (rupees 400)
      "111111" "ref1" (Some "k2") ].

(** ** The daily add-money ceiling *)

(** The per-transaction bounds raised by the environment; the daily
    ceilings as by default. *)
Definition raised_maximum : config := {|
  MIN_TRANSACTION_AMOUNT := rupees 100;
  MAX_TRANSACTION_AMOUNT := rupees 1000000;
  DAILY_TRANSFER_LIMIT := rupees 500000;
  DAILY_ADD_MONEY_LIMIT := rupees 500000;
  OTP_VALIDITY_MINUTES := 5
|}.

(** ** Amounts that [transfer] accepts *)


Definition with_otp : db :=
  fst (generateTransferOTP default_config
         (at_time 2000 "ref1" "" "111111" Payment_throws) 1 "b@x.com" (rupees 100) bank).

(** ** Replays under a used idempotency key *)

(** Carol has added 200,000 twice today, under the keys k1 and k2. *)
Definition after_two_additions : db :=
  store (run default_config
    [ Req_addMoney (at_time 1000 "t1" "" "" (paid UPI (rupees 200000))) 3 (rupees 200000)
        UPI (Some "k1");
      Req_addMoney (at_time 5000 "t2" "" "" (paid UPI (rupees 200000))) 3 (rupees 200000)
        UPI (Some "k2") ]
    (idle bank)).

(** ** Issuing an OTP *)

(** The user's transferred total of a day; 0 without a row. *)
Definition transferred_on (s : db) (u day : Z) : Z :=
  match daily_limits s !! (u, day) with Some d => total_transferred d | None => 0 end.

(** The row [generateTransferOTP] inserts. *)
Definition issued_otp (cfg : config) (e : env) (u : Z) : otp :=
  {| otp_user_id := u; otp_code := otp_digits e; purpose := "TRANSFER";
     reference_id := uuid1 e; is_used := false;
     expires_at := now e + OTP_VALIDITY_MINUTES cfg * 60 * 1000 |}.

(** What [generateTransferOTP] asks for before it issues an OTP: an amount
    within the bounds, an active recipient other than the caller, a wallet
    that holds the amount, and room under the daily transfer ceiling. *)
Definition can_issue (cfg : config) (e : env) (u : Z) (toEmail : string) (amt : Z)
    (s : db) : Prop :=
  validateAmount cfg amt = Return tt ∧
  ∃ recipient w,
    head (List.filter (active_with_email toEmail) (users s)) = Some recipient ∧
    id recipient ≠ u ∧
    wallets s !! u = Some w ∧
    amt ≤ balance w ∧
    transferred_on s u (today (now e)) + amt ≤ DAILY_TRANSFER_LIMIT cfg.

(** ** The money in the system *)

(** The sum of all wallet balances, as the concurrency test adds them up
    ([finalWallets.reduce((sum, w) => sum + parseFloat(w.balance), 0)]). *)
Definition sum_balances (m : gmap Z wallet) : Z :=
  map_fold (λ _ w acc, balance w + acc) 0 m.

Definition total_balance (s : db) : Z := sum_balances (wallets s).

(** ** Methods that never read the daily totals *)

(** Two stores that differ at most in the [daily_limits] table. *)
Definition same_but_daily_limits (s1 s2 : db) : Prop :=
  users s1 = users s2 ∧ wallets s1 = wallets s2 ∧
  transactions s1 = transactions s2 ∧ otps s1 = otps s2.

(** [ignores_daily_limits m]: run on two such stores, [m] ends the same way
    and leaves two such stores. *)
Definition ignores_daily_limits {A} (m : M A) : Prop :=
  ∀ s1 s2, same_but_daily_limits s1 s2 →
    same_but_daily_limits (fst (m s1)) (fst (m s2)) ∧ snd (m s1) = snd (m s2).

(** ** The ways a call of [addMoney] can end *)

(** What lets [addMoney] record its PENDING entry. *)
Definition begins (cfg : config) (e : env) (u amt : Z) (key : option string) (w : wallet)
    (s : db) : Prop :=
  validateAmount cfg amt = Return tt ∧
  added_on s u (today (now e)) + amt ≤ DAILY_ADD_MONEY_LIMIT cfg ∧
  cached key s = None ∧
  wallets s !! u = Some w ∧
  0 < amt ∧
  has_transaction_id (uuid1 e) (transactions s) = false ∧
  key_unused key (transactions s) = true.

Definition pending_call (e : env) (u amt : Z) (pm : payment_method) (w : wallet)
    : add_money_call :=
  {| am_transactionId := uuid1 e; am_userId := u; am_amount := amt;
     am_paymentMethod := pm; am_currentBalance := balance w |}.

(** The store after the first transaction of [addMoney]. *)
Definition with_pending (e : env) (u amt : Z) (pm : payment_method) (key : option string)
    (w : wallet) (s : db) : db :=
  set_transactions (λ l, app l [pending_entry e u amt pm key w]) s.

Inductive addMoney_spec (cfg : config) (e : env) (u amt : Z) (pm : payment_method)
    (key : option string) (s : db) : db → outcome response → Prop :=
  | addMoney_rejected err :
      addMoney_spec cfg e u amt pm key s s (Throw err)
  | addMoney_replayed c :
      cached key s = Some c →
      addMoney_spec cfg e u amt pm key s s (Return c)
  | addMoney_paid w msg g :
      begins cfg e u amt key w s →
      payment e = Payment_success msg g →
      0 ≤ balance w + amt →
      addMoney_spec cfg e u amt pm key s
        (addMoney_commit (now e + gateway_delay e) (pending_call e u amt pm w) g
           (with_pending e u amt pm key w s))
        (Return (Response true msg
                   (addMoney_receipt (pending_call e u amt pm w) (balance w + amt) SUCCESS)))
  | addMoney_overdrawn w msg g :
      begins cfg e u amt key w s →
      payment e = Payment_success msg g →
      balance w + amt < 0 →
      addMoney_spec cfg e u amt pm key s (with_pending e u amt pm key w s)
        (Throw (Constraint_violation chk_positive_balance))
  | addMoney_declined w msg :
      begins cfg e u amt key w s →
      payment e = Payment_failure msg →
      addMoney_spec cfg e u amt pm key s
        (set_transactions (update_entry (set_failed msg) (uuid1 e))
           (with_pending e u amt pm key w s))
        (Return (Response false msg
                   (addMoney_receipt (pending_call e u amt pm w) (balance w) FAILED)))
  | addMoney_gateway_threw w :
      begins cfg e u amt key w s →
      payment e = Payment_throws →
      addMoney_spec cfg e u amt pm key s (with_pending e u amt pm key w s)
        (Throw Gateway_exception).

(** ** One entry per idempotency key *)

(** No two entries of the ledger carry the same idempotency key
    ([idempotency_key VARCHAR(36) UNIQUE]). *)
Definition keys_unique (s : db) : Prop :=
  NoDup (omap idempotency_key (transactions s)).

(** ** Entries that add up *)

(** An entry whose columns explain each other: a positive amount; a balance
    after that is the balance before plus the amount (less the amount, for a
    debit) once the entry is SUCCESS, and the balance before as long as it is
    PENDING or FAILED; no status but SUCCESS on a transfer entry; and no
    debit of more than the balance before. *)
Definition entry_consistent (t : transaction) : Prop :=
  0 < amount t ∧
  balance_after t =
    match status t, type t with
    | SUCCESS, TRANSFER_DEBIT => balance_before t - amount t
    | SUCCESS, _ => balance_before t + amount t
    | _, _ => balance_before t
    end ∧
  (type t ≠ ADD_MONEY → status t = SUCCESS) ∧
  (type t = TRANSFER_DEBIT → amount t ≤ balance_before t).

(** The PENDING entry of a call of [addMoney] that awaits the gateway. *)
Definition awaits_gateway (s : db) (call : add_money_call) : Prop :=
  ∃ t, t ∈ transactions s ∧ transaction_id t = am_transactionId call ∧
       status t = PENDING ∧ type t = ADD_MONEY ∧
       amount t = am_amount call ∧ balance_before t = am_currentBalance call.

(** The ledger and the calls in flight fit together: entry ids are unique,
    every entry adds up, and the calls that await the gateway are distinct
    and have their PENDING entries. *)
Definition books_ok (sys : system) : Prop :=
  ids_unique (store sys) ∧
  (∀ t, t ∈ transactions (store sys) → entry_consistent t) ∧
  (∀ call, call ∈ in_flight sys → awaits_gateway (store sys) call) ∧
  NoDup (List.map am_transactionId (in_flight sys)).

(** Every settled entry of [s] is an entry of [s'], as it was. *)
Definition settled_kept (s s' : db) : Prop :=
  ∀ t, t ∈ transactions s → status t ≠ PENDING → t ∈ transactions s'.

(** ** Reconciling the wallets with the ledger *)



(** ** What no request changes *)

(** The users and, wallet by wallet, the currency (and so the set of
    wallets) are those of [s0]. *)
Definition same_accounts (s0 s : db) : Prop :=
  users s = users s0 ∧
  ∀ v, currency <$> wallets s !! v = currency <$> wallets s0 !! v.

(** Every OTP row of [s] is a row of [s'] under the same id, as it was or
    marked used. *)
Definition otps_kept (s s' : db) : Prop :=
  ∀ i o, otps s !! i = Some o →
         otps s' !! i = Some o ∨ otps s' !! i = Some (mark_used o).

(** ** Transaction history *)

(** The entries of a user, and their number. *)
Definition entries_of (u : Z) (s : db) : list transaction :=
  List.filter (fun t => user_id t =? u) (transactions s).

(** ** One-time codes *)


(** ** AuthService *)

(** The id AUTO_INCREMENT hands out is one no user and no wallet carries. *)
Definition fresh_id (insertId : Z) (s : db) : Prop :=
  (∀ u, u ∈ users s → id u ≠ insertId) ∧ wallets s !! insertId = None.

(** No row of [users], active or not, carries the e-mail address. *)
Definition email_free (email_eq : string → string → bool) (userEmail : string) (s : db)
    : Prop :=
  ∀ u, u ∈ users s → email_eq (email u) userEmail = false.

(** A small setting to run the AuthService in: addresses compared as they
    are written, a stand-in for SHA-256, and a token that spells out its
    payload. *)
Definition toy_hash (password : string) : string := String.append "#" password.
Definition toy_sign (now userId : Z) (userEmail userName : string) : string :=
  String.append userEmail (String.append "/" userName).
Definition no_accounts : auth_db := {| wallet_db := bank; password_hashes := ∅ |}.

(** * Properties *)

Set Warnings "-clear-no-such-hyp".

Ltac exec := unfold bind, ret, throw, gets, modify, atomic, lift in *.

(** ** Reading the store *)

Lemma find_wallet_omap (s : db) (u : Z) (l : list Z) :
  find_wallet u (omap (wallet_row s) l)
  = if decide (u ∈ l) then wallet_row s u else None.
Proof.
  induction l as [|a l IH].
  - cbn. case_decide as H; [|done]. by apply elem_of_nil in H.
  - cbn. unfold wallet_row at 1. destruct (wallets s !! a) as [w|] eqn:Ha.
    + cbn. destruct (a =? u) eqn:Hau.
      * apply Z.eqb_eq in Hau. subst a. unfold wallet_row. rewrite Ha.
        rewrite decide_True; [done|set_solver].
      * apply Z.eqb_neq in Hau. unfold find_wallet in IH. rewrite IH.
        repeat case_decide; set_solver.
    + unfold find_wallet in IH. rewrite IH.
      repeat case_decide; try done; try set_solver.
      assert (u = a) as -> by set_solver. unfold wallet_row. by rewrite Ha.
Qed.

Lemma elem_of_sort_ids (a b u : Z) : u ∈ sort_ids a b ↔ u = a ∨ u = b.
Proof. unfold sort_ids. destruct (b <? a); set_solver. Qed.

Lemma SELECT_wallets_IN_find (s : db) (a b u : Z) :
  u = a ∨ u = b →
  find_wallet u (omap (wallet_row s) (remove_dups (sort_ids a b))) = wallet_row s u.
Proof.
  intros Hu. rewrite find_wallet_omap, decide_True; [done|].
  apply elem_of_remove_dups, elem_of_sort_ids, Hu.
Qed.

Lemma checkIdempotency_eq key s : checkIdempotency key s = (s, Return (cached key s)).
Proof.
  unfold checkIdempotency, cached, SELECT_transactions_by_key. exec.
  destruct key as [k|]; [|done]. destruct (String.eqb k ""); [done|].
  by destruct (List.filter _ _).
Qed.

Lemma cached_isDuplicate key s r : cached key s = Some r → isDuplicate r = true.
Proof.
  unfold cached. destruct key as [k|]; [|done]. destruct (String.eqb k ""); [done|].
  destruct (List.filter _ _); [done|]. by intros [= <-].
Qed.

Lemma cached_in_ledger key s r :
  cached key s = Some r →
  ∃ k t, key = Some k ∧ r = Duplicate_response (transaction_status_eqb (status t) SUCCESS) t
         ∧ In t (transactions s) ∧ idempotency_key t = Some k.
Proof.
  unfold cached. destruct key as [k|]; [|done]. destruct (String.eqb k ""); [done|].
  destruct (List.filter _ _) as [|t l] eqn:Hf; [done|]. intros [= <-].
  assert (In t (List.filter (by_key k) (transactions s))) as Hin by (rewrite Hf; by left).
  apply filter_In in Hin as [Hin Hk]. exists k, t. repeat split; try done.
  unfold by_key in Hk. destruct (idempotency_key t) as [k'|]; [|done].
  apply String.eqb_eq in Hk. by subst.
Qed.

(** ** What a call of [transfer] can do *)

Lemma has_transaction_id_app tid l l' :
  has_transaction_id tid (app l l') = has_transaction_id tid l || has_transaction_id tid l'.
Proof. apply existsb_app. Qed.

Lemma transfer_inv e u toEmail amt otp ref key s s' r :
  transfer e u toEmail amt otp ref key s = (s', r) →
  transfer_spec e u toEmail amt otp ref key s s' r.
Proof.
  unfold transfer. unfold bind at 1. unfold SELECT_otps. unfold gets at 1.
  destruct (matching_ids _ _ _) as [|otpId rest] eqn:Hotp.
  { intros [= <- <-]. constructor. }
  unfold bind at 1. rewrite checkIdempotency_eq.
  destruct (cached key s) as [c|] eqn:Hc.
  { intros [= <- <-]. by econstructor. }
  unfold atomic, SELECT_users_by_email, SELECT_wallets_IN.
  unfold bind at 1. unfold gets at 1.
  destruct (List.filter _ (users s)) as [|recipient rest'] eqn:Hrec.
  { intros [= <- <-]. constructor. }
  unfold bind at 1. unfold gets at 1.
  rewrite !SELECT_wallets_IN_find by auto.
  unfold wallet_row.
  destruct (wallets s !! u) as [sw|] eqn:Hsw.
  2:{ intros [= <- <-]. constructor. }
  destruct (wallets s !! id recipient) as [rw|] eqn:Hrw.
  2:{ intros [= <- <-]. constructor. }
  cbn [snd].
  destruct (balance sw <? amt) eqn:Hbal.
  { intros [= <- <-]. constructor. }
  unfold bind at 1. unfold UPDATE_wallets_SET_balance at 1. rewrite Hsw.
  destruct (balance sw - amt <? 0) eqn:Hneg.
  { intros [= <- <-]. constructor. }
  unfold bind at 1. unfold UPDATE_wallets_SET_balance at 1.
  cbn [wallets set_wallets].
  destruct (<[u:=_]> (wallets s) !! id recipient) as [w|] eqn:Hw.
  2:{ rewrite lookup_insert in Hw. case_decide; [done|]. by rewrite Hrw in Hw. }
  assert (currency w = currency rw) as Hcur.
  { rewrite lookup_insert in Hw. case_decide as Heq.
    - injection Hw as <-. cbn. rewrite Heq in Hsw. by simplify_eq.
    - by simplify_eq. }
  destruct (balance rw + amt <? 0) eqn:Hneg'.
  { intros [= <- <-]. constructor. }
  unfold bind at 1. unfold INSERT_INTO_transactions at 1.
  cbn [amount transaction_id idempotency_key transactions set_wallets].
  destruct (0 <? amt) eqn:Hpos; cbn [negb].
  2:{ intros [= <- <-]. constructor. }
  destruct (has_transaction_id (uuid1 e) (transactions s)) eqn:Hid1.
  { intros [= <- <-]. constructor. }
  destruct (match key with Some k => _ | None => false end) eqn:Hkey.
  { intros [= <- <-]. constructor. }
  unfold bind at 1. unfold INSERT_INTO_transactions at 1.
  cbn [amount transaction_id idempotency_key transactions set_wallets set_transactions].
  rewrite Hpos. cbn [negb].
  destruct (has_transaction_id (uuid2 e) _) eqn:Hid2.
  { intros [= <- <-]. constructor. }
  exec. unfold UPDATE_otps_SET_is_used, updateDailyLimit,
    INSERT_daily_limits_ON_DUPLICATE_KEY_UPDATE. exec.
  intros [= <- <-].
  rewrite has_transaction_id_app in Hid2. apply orb_false_iff in Hid2 as [Hid2 Hne].
  cbn in Hne. rewrite orb_false_r in Hne. apply String.eqb_neq in Hne.
  replace (set_daily_limits _ _) with (transfer_commit e u amt key otpId recipient sw rw s).
  2:{ unfold transfer_commit, set_daily_limits, set_otps, set_transactions, set_wallets,
        debit_entry, credit_entry. cbn. by rewrite Hcur. }
  eapply transfer_committed; try done; try lia.
  unfold key_unused. destruct key; [|done]. by rewrite Hkey.
Qed.

(** ** Invariants of the store *)

Section Preserves.

Context (I : db → Prop).

Lemma preserves_ret {A} (a : A) : preserves I (ret a).
Proof. intros s s' r HI [= <- <-]. done. Qed.

Lemma preserves_throw {A} (e : error) : preserves I (@throw A e).
Proof. intros s s' r HI [= <- <-]. done. Qed.

Lemma preserves_gets {A} (f : db → A) : preserves I (gets f).
Proof. intros s s' r HI [= <- <-]. done. Qed.

Lemma preserves_lift {A} (o : outcome A) : preserves I (lift o).
Proof. intros s s' r HI [= <- <-]. done. Qed.

Lemma preserves_bind {A B} (m : M A) (k : A → M B) :
  preserves I m → (∀ a, preserves I (k a)) → preserves I (bind m k).
Proof.
  intros Hm Hk s s' r HI. unfold bind.
  destruct (m s) as [s1 [a|e]] eqn:Hms.
  - intros Hks. eapply Hk; [|done]. eapply Hm; done.
  - intros [= <- <-]. eapply Hm; done.
Qed.

Lemma preserves_atomic {A} (m : M A) : preserves I m → preserves I (atomic m).
Proof.
  intros Hm s s' r HI. unfold atomic.
  destruct (m s) as [s1 [a|e]] eqn:Hms; intros [= <- <-]; [|done].
  eapply Hm; done.
Qed.

End Preserves.

Create HintDb preserve.
#[local] Hint Resolve preserves_ret preserves_throw preserves_gets preserves_lift
  : preserve.

(** Walks through a method of the service, statement by statement. *)
Ltac preserve_step :=
  match goal with
  | |- preserves _ (bind _ _) => apply preserves_bind; [|intros ?]
  | |- preserves _ (atomic _) => apply preserves_atomic
  | |- preserves _ (match ?x with _ => _ end) => destruct x
  | |- preserves _ (let _ := _ in _) => cbv zeta
  | |- preserves _ _ => solve [auto with preserve]
  end.
Ltac preserve := repeat preserve_step.

(** ** Non-negative balances *)

Lemma UPDATE_wallets_nonneg v u : preserves balances_nonneg (UPDATE_wallets_SET_balance v u).
Proof.
  intros s s' r HI. unfold UPDATE_wallets_SET_balance.
  destruct (wallets s !! u) as [w|] eqn:Hw; [|by intros [= <- <-]].
  destruct (v <? 0) eqn:Hv; intros [= <- <-]; [done|].
  intros u' w'. cbn. rewrite lookup_insert. case_decide.
  - intros [= <-]. cbn. lia.
  - apply HI.
Qed.

Lemma keeps_wallets_nonneg (f : db → db) :
  (∀ s, wallets (f s) = wallets s) → preserves balances_nonneg (modify f).
Proof.
  intros Hf s s' r HI [= <- <-]. unfold balances_nonneg. rewrite Hf. apply HI.
Qed.

Lemma INSERT_INTO_transactions_nonneg row :
  preserves balances_nonneg (INSERT_INTO_transactions row).
Proof.
  intros s s' r HI. unfold INSERT_INTO_transactions.
  repeat case_match; intros [= <- <-]; done.
Qed.

Lemma UPDATE_transactions_nonneg f tid : preserves balances_nonneg (UPDATE_transactions f tid).
Proof. by apply keeps_wallets_nonneg. Qed.

Lemma updateDailyLimit_nonneg t u c a : preserves balances_nonneg (updateDailyLimit t u c a).
Proof. by apply keeps_wallets_nonneg. Qed.

Lemma INSERT_INTO_otps_nonneg u c r t : preserves balances_nonneg (INSERT_INTO_otps u c r t).
Proof. by apply keeps_wallets_nonneg. Qed.

Lemma UPDATE_otps_nonneg i : preserves balances_nonneg (UPDATE_otps_SET_is_used i).
Proof. by apply keeps_wallets_nonneg. Qed.

#[local] Hint Resolve UPDATE_wallets_nonneg INSERT_INTO_transactions_nonneg
  UPDATE_transactions_nonneg updateDailyLimit_nonneg INSERT_INTO_otps_nonneg
  UPDATE_otps_nonneg : preserve.

Lemma getBalance_nonneg u : preserves balances_nonneg (getBalance u).
Proof. unfold getBalance, SELECT_wallet. preserve. Qed.

Lemma checkIdempotency_preserves (I : db → Prop) key : preserves I (checkIdempotency key).
Proof. intros s s' r HI. rewrite checkIdempotency_eq. by intros [= <- <-]. Qed.

Lemma checkDailyAddMoneyLimit_preserves (I : db → Prop) cfg t u a :
  preserves I (checkDailyAddMoneyLimit cfg t u a).
Proof. unfold checkDailyAddMoneyLimit, SELECT_daily_limit. preserve. Qed.

Lemma checkDailyTransferLimit_preserves (I : db → Prop) cfg t u a :
  preserves I (checkDailyTransferLimit cfg t u a).
Proof. unfold checkDailyTransferLimit, SELECT_daily_limit. preserve. Qed.

#[local] Hint Resolve checkIdempotency_preserves checkDailyAddMoneyLimit_preserves
  checkDailyTransferLimit_preserves : preserve.

Lemma addMoney_begin_nonneg cfg e u a pm key :
  preserves balances_nonneg (addMoney_begin cfg e u a pm key).
Proof. unfold addMoney_begin, SELECT_wallet. preserve. Qed.

Lemma addMoney_finish_nonneg t call pr :
  preserves balances_nonneg (addMoney_finish t call pr).
Proof. unfold addMoney_finish. preserve. Qed.

#[local] Hint Resolve addMoney_begin_nonneg addMoney_finish_nonneg : preserve.

Lemma addMoney_nonneg cfg e u a pm key :
  preserves balances_nonneg (addMoney cfg e u a pm key).
Proof. unfold addMoney. preserve. Qed.

Lemma generateTransferOTP_nonneg cfg e u toEmail a :
  preserves balances_nonneg (generateTransferOTP cfg e u toEmail a).
Proof.
  unfold generateTransferOTP, SELECT_users_by_email, SELECT_wallet. preserve.
Qed.

Lemma transfer_nonneg e u toEmail a otp ref key :
  preserves balances_nonneg (transfer e u toEmail a otp ref key).
Proof.
  unfold transfer, SELECT_otps, SELECT_users_by_email, SELECT_wallets_IN. preserve.
Qed.

(** An invariant of the store that every method preserves holds after every
    step of the system; issuing an OTP is singled out because some invariants
    constrain the reference id it draws. *)
Lemma step_invariant (I : db → Prop) cfg (r : request) sys :
  (∀ u, preserves I (getBalance u)) →
  (∀ e u a pm k, preserves I (addMoney_begin cfg e u a pm k)) →
  (∀ t c p, preserves I (addMoney_finish t c p)) →
  match r with
  | Req_generateTransferOTP e u m a => preserves I (generateTransferOTP cfg e u m a)
  | _ => True
  end →
  (∀ e u m a o ref k, preserves I (transfer e u m a o ref k)) →
  I (store sys) → I (store (step cfg r sys)).
Proof.
  intros Hget Hbegin Hfinish Hotp Htransfer HI.
  destruct r as [u|e u a pm k|e u a pm k|t n p|e u m a|e u m a o ref k]; cbn [step store].
  - destruct (getBalance _ _) eqn:H. eapply Hget; done.
  - destruct (addMoney _ _ _ _ _ _ _) eqn:H. revert H.
    assert (preserves I (addMoney cfg e u a pm k)) as Hp by (unfold addMoney; preserve).
    intros H. eapply Hp; done.
  - destruct (addMoney_begin _ _ _ _ _ _ _) as [s' o] eqn:H.
    assert (I s') by (eapply Hbegin; done).
    by destruct o as [[?|?]|?].
  - destruct (in_flight sys !! n); [|done]. cbn [store].
    destruct (addMoney_finish _ _ _ _) eqn:H. eapply Hfinish; done.
  - destruct (generateTransferOTP _ _ _ _ _ _) eqn:H. eapply Hotp; done.
  - destruct (transfer _ _ _ _ _ _ _ _) eqn:H. eapply Htransfer; done.
Qed.

Lemma step_nonneg cfg r sys :
  balances_nonneg (store sys) → balances_nonneg (store (step cfg r sys)).
Proof.
  apply step_invariant; auto using getBalance_nonneg, addMoney_begin_nonneg,
    addMoney_finish_nonneg, transfer_nonneg.
  destruct r; auto using generateTransferOTP_nonneg.
Qed.

(** ** A small bank to run the service on *)

Lemma bank_nonneg : balances_nonneg bank.
Proof.
  intros u w. unfold bank. cbn [wallets].
  rewrite !lookup_insert, lookup_empty.
  repeat case_decide; intros Hw; inversion Hw; unfold rupees; cbn; lia.
Defined.

(** C2. In every state the store goes through while it serves any sequence
    of getBalance, addMoney (as a whole, or interleaved with other requests
    around its gateway call), generateTransferOTP and transfer requests, every
    wallet balance is at least 0, provided the balances were so at the start. *)
Theorem balance_never_negative (cfg : config) (reqs : list request) (sys : system) :
  balances_nonneg (store sys) →
  balances_nonneg (store (run cfg reqs sys)).
Proof.
  revert sys. induction reqs as [|r reqs IH]; intros sys HI; [done|].
  cbn. apply IH. by apply step_nonneg.
Qed.

Lemma balance_never_negative_witness :
  balances_nonneg (store (run default_config a_busy_day (idle bank))).
Proof.
  apply (balance_never_negative default_config a_busy_day (idle bank)).
  exact bank_nonneg.
Defined.

(** ** Transfers move money between two wallets *)


(** Beside the cache, [transfer] lacks the check of [generateTransferOTP]
    against a transfer to oneself: both wallet rows are then the sender's,
    the second [UPDATE] overwrites the first, and the sender ends up with
    [amount] more. *)
Lemma transfer_to_self_credits_sender :
  let e := at_time 3000 "t2" "t3" "" Payment_throws in
  let s := fst (generateTransferOTP default_config
                  (at_time 2000 "ref1" "" "111111" Payment_throws) 1 "b@x.com" (rupees 400)
                  bank) in
  let out := transfer e 1 "a@x.com" (rupees 400) "111111" "ref1" None s in
  balance_of s 1 = Some (rupees 1000) ∧
  (success <$> match snd out with Return r => Some r | Throw _ => None end) = Some true ∧
  balance_of (fst out) 1 = Some (rupees 1400).
Proof. vm_compute. done. Qed.



(** ** One-time passwords *)

Lemma matching_ids_head p i l j rest :
  matching_ids p i l = j :: rest →
  ∃ k o, j = (i + k)%nat ∧ l !! k = Some o ∧ p o = true.
Proof.
  revert i. induction l as [|o l IH]; intros i; cbn; [done|].
  destruct (p o) eqn:Hp.
  - intros [= <- _]. exists 0%nat, o. repeat split; [lia|done].
  - intros H. destruct (IH _ H) as (k & o' & -> & Hk & Hp').
    exists (S k), o'. repeat split; [lia|done..].
Qed.


Lemma otp_matches_redeemable u ref code t o :
  otp_matches u ref code t o = true ↔ redeemable u ref code t o.
Proof.
  unfold otp_matches, redeemable.
  rewrite !andb_true_iff, Z.eqb_eq, !String.eqb_eq, negb_true_iff, Z.ltb_lt. tauto.
Qed.

(** The claim of C4 as it is worded does not hold: the [otps] table records
    neither an amount nor a recipient, and [transfer] compares none.  An OTP
    issued for 100.00 to Bob carries a transfer of 500.00 to Carol. *)
Lemma otp_not_bound_to_amount_or_recipient :
  ¬ (∀ cfg e u toEmail amt s s1 issued e' toEmail' amt' key s2 r,
       generateTransferOTP cfg e u toEmail amt s = (s1, Return issued) →
       amt' ≠ amt ∨ toEmail' ≠ toEmail →
       transfer e' u toEmail' amt' (otp_sent issued) (referenceId issued) key s1 = (s2, r) →
       ∃ err, r = Throw err).
Proof.
  intros H.
  pose (e := at_time 2000 "ref1" "" "111111" Payment_throws).
  pose (e' := at_time 3000 "t2" "t3" "" Payment_throws).
  destruct (generateTransferOTP default_config e 1 "b@x.com" (rupees 100) bank)
    as [s1 [issued|err]] eqn:Hg; [|by vm_compute in Hg].
  destruct (transfer e' 1 "c@x.com" (rupees 500) (otp_sent issued) (referenceId issued)
              None s1) as [s2 r] eqn:Ht.
  destruct (H _ _ _ _ _ _ _ _ e' "c@x.com" (rupees 500) None s2 r Hg) as [err ->];
    [left; unfold rupees; lia|done|].
  vm_compute in Hg. injection Hg as <- <-. vm_compute in Ht. discriminate Ht.
Qed.

(** C4 (amended). [transfer] returns a response only if the [otps] table
    holds a row issued to the sender under the presented reference id and
    code, unused and unexpired; amount and recipient are not part of what is
    compared. *)
Theorem transfer_requires_otp (e : env) (u : Z) (toEmail : string) (amt : Z)
    (otp ref : string) (key : option string) (s s' : db) (r : response) :
  transfer e u toEmail amt otp ref key s = (s', Return r) →
  ∃ otpId o, otps s !! otpId = Some o ∧ redeemable u ref otp (now e) o.
Proof.
  intros Ht. apply transfer_inv in Ht.
  inversion Ht as [|otpId rest c Hotp Hc|otpId rest recipient rest' sw rw Hotp]; subst;
    apply matching_ids_head in Hotp as (k & o & -> & Hk & Hp);
    exists k, o; by rewrite <- otp_matches_redeemable.
Qed.

Lemma transfer_requires_otp_witness :
  ∃ otpId o,
    otps (fst (generateTransferOTP default_config
                 (at_time 2000 "ref1" "" "111111" Payment_throws) 1 "b@x.com"
                 (rupees 400) bank)) !! otpId = Some o
    ∧ redeemable 1 "ref1" "111111" 3000 o.
Proof.
  eapply (transfer_requires_otp (at_time 3000 "t2" "t3" "" Payment_throws) 1 "b@x.com"
            (rupees 400) "111111" "ref1" (Some "k2")).
  vm_compute. reflexivity.
Defined.

(** *** Statements that leave a table alone *)

Lemma preserves_modify (I : db → Prop) (f : db → db) :
  (∀ s, I s → I (f s)) → preserves I (modify f).
Proof. intros Hf s s' r HI [= <- <-]. by apply Hf. Qed.

Lemma UPDATE_wallets_frame v u s s' r :
  UPDATE_wallets_SET_balance v u s = (s', r) →
  users s' = users s ∧ transactions s' = transactions s ∧
  daily_limits s' = daily_limits s ∧ otps s' = otps s.
Proof.
  unfold UPDATE_wallets_SET_balance. repeat case_match; by intros [= <- <-].
Qed.

Lemma INSERT_INTO_transactions_frame row s s' r :
  INSERT_INTO_transactions row s = (s', r) →
  users s' = users s ∧ wallets s' = wallets s ∧
  daily_limits s' = daily_limits s ∧ otps s' = otps s.
Proof.
  unfold INSERT_INTO_transactions. repeat case_match; by intros [= <- <-].
Qed.

(** *** A spent OTP stays spent *)


Section Spent.

Context (u : Z) (ref code : string).

Lemma spent_frame {A} (m : M A) :
  (∀ s s' r, m s = (s', r) → otps s' = otps s) → preserves (spent u ref code) m.
Proof. intros Hm s s' r HI H. unfold spent. rewrite (Hm _ _ _ H). apply HI. Qed.

Lemma UPDATE_wallets_spent v w : preserves (spent u ref code) (UPDATE_wallets_SET_balance v w).
Proof. apply spent_frame. intros s s' r H. by apply UPDATE_wallets_frame in H as (_ & _ & _ & ?). Qed.

Lemma INSERT_INTO_transactions_spent row :
  preserves (spent u ref code) (INSERT_INTO_transactions row).
Proof. apply spent_frame. intros s s' r H. by apply INSERT_INTO_transactions_frame in H as (_ & _ & _ & ?). Qed.

Lemma UPDATE_transactions_spent f tid : preserves (spent u ref code) (UPDATE_transactions f tid).
Proof. apply spent_frame. by intros s s' r [= <- <-]. Qed.

Lemma updateDailyLimit_spent t w c a : preserves (spent u ref code) (updateDailyLimit t w c a).
Proof. apply spent_frame. by intros s s' r [= <- <-]. Qed.

Lemma INSERT_INTO_otps_spent w c r t :
  r ≠ ref → preserves (spent u ref code) (INSERT_INTO_otps w c r t).
Proof.
  intros Hne. apply preserves_modify. intros s Hs o. cbn [otps set_otps].
  rewrite elem_of_app, list_elem_of_singleton. intros [Ho | ->]; [by apply Hs|].
  cbn. congruence.
Qed.

Lemma UPDATE_otps_spent i : preserves (spent u ref code) (UPDATE_otps_SET_is_used i).
Proof.
  apply preserves_modify. intros s Hs o. cbn [otps set_otps].
  intros (j & Hj)%list_elem_of_lookup. rewrite list_lookup_alter in Hj.
  case_decide as Hij.
  - destruct (otps s !! i) as [o0|]; [|done]. by injection Hj as <-.
  - intros. apply Hs; [|done..]. apply list_elem_of_lookup. by exists j.
Qed.

Hint Resolve UPDATE_wallets_spent INSERT_INTO_transactions_spent UPDATE_transactions_spent
  updateDailyLimit_spent INSERT_INTO_otps_spent UPDATE_otps_spent : preserve.



End Spent.






(** ** The ledger: every debit has its credit *)

Lemma same_keys_refl t : same_keys t t.
Proof. by repeat split. Qed.

Lemma same_keys_trans t1 t2 t3 : same_keys t1 t2 → same_keys t2 t3 → same_keys t1 t3.
Proof. unfold same_keys. intros (?&?&?&?&?&?) (?&?&?&?&?&?). repeat split; congruence. Qed.

Lemma set_success_keys b g t : same_keys t (set_success b g t).
Proof. by repeat split. Qed.

Lemma set_failed_keys m t : same_keys t (set_failed m t).
Proof. by repeat split. Qed.

Lemma ledger_evolves_refl s : ledger_evolves s s.
Proof. split; intros t Ht; eauto using same_keys_refl. Qed.

Lemma ledger_evolves_same s s' : transactions s' = transactions s → ledger_evolves s s'.
Proof. intros H. unfold ledger_evolves. rewrite H. apply ledger_evolves_refl. Qed.

Lemma ledger_evolves_trans s1 s2 s3 :
  ledger_evolves s1 s2 → ledger_evolves s2 s3 → ledger_evolves s1 s3.
Proof.
  intros [H12 H12'] [H23 H23']. split.
  - intros t3 Ht3 Hty. destruct (H23 t3 Ht3 Hty) as (t2 & Ht2 & Hk).
    destruct (H12 t2 Ht2) as (t1 & Ht1 & Hk').
    { destruct Hk as (_ & -> & _). done. }
    eauto using same_keys_trans.
  - intros t1 Ht1. destruct (H12' t1 Ht1) as (t2 & Ht2 & Hk).
    destruct (H23' t2 Ht2) as (t3 & Ht3 & Hk'). eauto using same_keys_trans.
Qed.

Lemma evolves_ret {A} (a : A) : evolves (ret a).
Proof. intros s s' r [= <- <-]. apply ledger_evolves_refl. Qed.

Lemma evolves_throw {A} (e : error) : evolves (@throw A e).
Proof. intros s s' r [= <- <-]. apply ledger_evolves_refl. Qed.

Lemma evolves_gets {A} (f : db → A) : evolves (gets f).
Proof. intros s s' r [= <- <-]. apply ledger_evolves_refl. Qed.

Lemma evolves_lift {A} (o : outcome A) : evolves (lift o).
Proof. intros s s' r [= <- <-]. apply ledger_evolves_refl. Qed.

Lemma evolves_bind {A B} (m : M A) (k : A → M B) :
  evolves m → (∀ a, evolves (k a)) → evolves (bind m k).
Proof.
  intros Hm Hk s s' r. unfold bind.
  destruct (m s) as [s1 [a|e]] eqn:Hms.
  - intros Hks. eapply ledger_evolves_trans; [by eapply Hm|by eapply Hk].
  - intros [= <- <-]. by eapply Hm.
Qed.

Lemma evolves_atomic {A} (m : M A) : evolves m → evolves (atomic m).
Proof.
  intros Hm s s' r. unfold atomic.
  destruct (m s) as [s1 [a|e]] eqn:Hms; intros [= <- <-].
  - by eapply Hm.
  - apply ledger_evolves_refl.
Qed.

Lemma evolves_modify (f : db → db) :
  (∀ s, transactions (f s) = transactions s) → evolves (modify f).
Proof. intros Hf s s' r [= <- <-]. by apply ledger_evolves_same. Qed.

Lemma UPDATE_wallets_evolves v u : evolves (UPDATE_wallets_SET_balance v u).
Proof.
  intros s s' r H. apply UPDATE_wallets_frame in H as (_ & H & _).
  by apply ledger_evolves_same.
Qed.

Lemma INSERT_add_money_evolves row :
  type row = ADD_MONEY → evolves (INSERT_INTO_transactions row).
Proof.
  intros Hty s s' r. unfold INSERT_INTO_transactions.
  repeat case_match; intros [= <- <-]; try apply ledger_evolves_refl.
  all: split; cbn [transactions set_transactions].
  all: try (intros t'; rewrite elem_of_app, list_elem_of_singleton;
            intros [Ht' | ->] Hne; [|done]; eauto using same_keys_refl).
  all: intros t Ht; exists t; rewrite elem_of_app; eauto using same_keys_refl.
Qed.

Lemma UPDATE_transactions_evolves f tid :
  (∀ t, same_keys t (f t)) → evolves (UPDATE_transactions f tid).
Proof.
  intros Hf s s' r [= <- <-]. split; cbn [transactions set_transactions].
  - intros t' Ht' _. apply list_elem_of_In, in_map_iff in Ht' as (t & <- & Ht).
    exists t. split; [by apply list_elem_of_In|].
    destruct (String.eqb _ _); auto using same_keys_refl.
  - intros t Ht. eexists. split.
    + apply list_elem_of_In, in_map, list_elem_of_In, Ht.
    + cbn. destruct (String.eqb _ _); auto using same_keys_refl.
Qed.

Create HintDb evolve.
#[local] Hint Resolve evolves_ret evolves_throw evolves_gets evolves_lift UPDATE_wallets_evolves
  UPDATE_transactions_evolves set_success_keys set_failed_keys : evolve.

Ltac evolve_step :=
  match goal with
  | |- evolves (bind _ _) => apply evolves_bind; [|intros ?]
  | |- evolves (atomic _) => apply evolves_atomic
  | |- evolves (match ?x with _ => _ end) => destruct x
  | |- evolves (INSERT_INTO_transactions _) => by apply INSERT_add_money_evolves
  | |- evolves (modify _) => by apply evolves_modify
  | |- evolves _ => solve [auto with evolve]
  end.
Ltac evolve := repeat evolve_step.

Lemma getBalance_evolves u : evolves (getBalance u).
Proof. unfold getBalance, SELECT_wallet. evolve. Qed.

Lemma checkIdempotency_evolves key : evolves (checkIdempotency key).
Proof. intros s s' r. rewrite checkIdempotency_eq. intros [= <- <-]. apply ledger_evolves_refl. Qed.

#[local] Hint Resolve checkIdempotency_evolves : evolve.

Lemma addMoney_begin_evolves cfg e u a pm key : evolves (addMoney_begin cfg e u a pm key).
Proof.
  unfold addMoney_begin, checkDailyAddMoneyLimit, SELECT_daily_limit, SELECT_wallet. evolve.
Qed.

Lemma addMoney_finish_evolves t call pr : evolves (addMoney_finish t call pr).
Proof.
  unfold addMoney_finish, updateDailyLimit, INSERT_daily_limits_ON_DUPLICATE_KEY_UPDATE.
  evolve.
Qed.

#[local] Hint Resolve addMoney_begin_evolves addMoney_finish_evolves : evolve.

Lemma addMoney_evolves cfg e u a pm key : evolves (addMoney cfg e u a pm key).
Proof. unfold addMoney. evolve. Qed.

Lemma generateTransferOTP_evolves cfg e u toEmail a :
  evolves (generateTransferOTP cfg e u toEmail a).
Proof.
  unfold generateTransferOTP, SELECT_users_by_email, SELECT_wallet, checkDailyTransferLimit,
    SELECT_daily_limit, INSERT_INTO_otps.
  evolve.
Qed.

(** *** Entry ids stay unique *)

Lemma has_transaction_id_false tid l :
  has_transaction_id tid l = false ↔ (tid ∉ List.map transaction_id l).
Proof.
  unfold has_transaction_id. induction l as [|t l IH]; cbn.
  - split; [|done]. intros _ H. by apply elem_of_nil in H.
  - rewrite orb_false_iff, IH, not_elem_of_cons, String.eqb_neq. naive_solver.
Qed.

Lemma ids_unique_frame {A} (m : M A) :
  (∀ s s' r, m s = (s', r) → transactions s' = transactions s) → preserves ids_unique m.
Proof.
  intros Hm s s' r HI H. unfold ids_unique, entry_ids. rewrite (Hm _ _ _ H). apply HI.
Qed.

Lemma UPDATE_wallets_ids v u : preserves ids_unique (UPDATE_wallets_SET_balance v u).
Proof.
  apply ids_unique_frame. intros s s' r H. by apply UPDATE_wallets_frame in H as (_ & ? & _).
Qed.

Lemma INSERT_INTO_transactions_ids row : preserves ids_unique (INSERT_INTO_transactions row).
Proof.
  intros s s' r HI. unfold INSERT_INTO_transactions.
  destruct (negb _); [by intros [= <- <-]|].
  destruct (has_transaction_id _ _) eqn:Hid; [by intros [= <- <-]|].
  destruct (match idempotency_key row with Some _ => _ | None => _ end);
    intros [= <- <-]; [done|].
  unfold ids_unique, entry_ids. cbn [transactions set_transactions].
  rewrite map_app. cbn. apply NoDup_app. split; [done|]. split.
  - intros x Hx ->%list_elem_of_singleton. by apply has_transaction_id_false in Hid.
  - apply NoDup_singleton.
Qed.

Lemma UPDATE_transactions_ids f tid :
  (∀ t, same_keys t (f t)) → preserves ids_unique (UPDATE_transactions f tid).
Proof.
  intros Hf s s' r HI [= <- <-]. unfold ids_unique, entry_ids in *.
  cbn [transactions set_transactions]. rewrite map_map.
  erewrite map_ext; [done|]. intros t. cbn.
  destruct (String.eqb _ _); [|done]. symmetry. apply Hf.
Qed.

Lemma ids_modify (f : db → db) :
  (∀ s, transactions (f s) = transactions s) → preserves ids_unique (modify f).
Proof. intros Hf. apply ids_unique_frame. intros s s' r [= <- <-]. apply Hf. Qed.

Ltac ids_step :=
  match goal with
  | |- preserves _ (modify _) => by apply ids_modify
  | |- preserves _ (UPDATE_transactions _ _) =>
      apply UPDATE_transactions_ids; auto using set_success_keys, set_failed_keys
  | |- preserves _ (UPDATE_wallets_SET_balance _ _) => apply UPDATE_wallets_ids
  | |- preserves _ (INSERT_INTO_transactions _) => apply INSERT_INTO_transactions_ids
  | _ => preserve_step
  end.
Ltac ids := repeat ids_step.

Lemma step_ids_unique cfg r sys :
  ids_unique (store sys) → ids_unique (store (step cfg r sys)).
Proof.
  apply step_invariant.
  - intros. unfold getBalance, SELECT_wallet. ids.
  - intros. unfold addMoney_begin, SELECT_wallet. ids.
  - intros. unfold addMoney_finish, updateDailyLimit,
      INSERT_daily_limits_ON_DUPLICATE_KEY_UPDATE. ids.
  - destruct r; try done.
    unfold generateTransferOTP, SELECT_users_by_email, SELECT_wallet, INSERT_INTO_otps. ids.
  - intros. unfold transfer, SELECT_otps, SELECT_users_by_email, SELECT_wallets_IN,
      UPDATE_otps_SET_is_used, updateDailyLimit, INSERT_daily_limits_ON_DUPLICATE_KEY_UPDATE.
    ids.
Qed.

(** *** One step of the system, seen from the ledger *)

Lemma transfer_ledger_step e u toEmail amt otp ref key s s' r :
  transfer e u toEmail amt otp ref key s = (s', r) → ledger_step s s'.
Proof.
  intros Ht%transfer_inv.
  inversion Ht as [| |otpId rest recipient rest' sw rw ?????? Hpos ? Hid1 Hid2]; subst;
    [left; apply ledger_evolves_refl..|].
  right. exists (debit_entry e u amt key recipient sw), (credit_entry e u amt recipient rw).
  split; [done|]. split; [by repeat split|]. split.
  - unfold transfer_commit. cbn [transactions]. by rewrite <- app_assoc.
  - split; by apply has_transaction_id_false.
Qed.

Lemma step_ledger cfg r sys : ledger_step (store sys) (store (step cfg r sys)).
Proof.
  destruct r as [u|e u a pm k|e u a pm k|t n p|e u m a|e u m a o ref k]; cbn [step store].
  - left. destruct (getBalance _ _) eqn:H. by eapply getBalance_evolves.
  - left. destruct (addMoney _ _ _ _ _ _ _) eqn:H. by eapply addMoney_evolves.
  - left. destruct (addMoney_begin _ _ _ _ _ _ _) as [s' out] eqn:H.
    assert (ledger_evolves (store sys) s') by (by eapply addMoney_begin_evolves).
    by destruct out as [[?|?]|?].
  - destruct (in_flight sys !! n); [|left; apply ledger_evolves_refl]. cbn [store].
    left. destruct (addMoney_finish _ _ _ _) eqn:H. by eapply addMoney_finish_evolves.
  - left. destruct (generateTransferOTP _ _ _ _ _ _) eqn:H.
    by eapply generateTransferOTP_evolves.
  - destruct (transfer _ _ _ _ _ _ _ _) eqn:H. by eapply transfer_ledger_step.
Qed.

Lemma pairs_same_keys d d' c c' : same_keys d d' → same_keys c c' → pairs d c → pairs d' c'.
Proof.
  unfold same_keys, pairs.
  intros (?&?&?&?&?&?) (?&?&?&?&?&?) (?&?&?&?&?&?). repeat split; congruence.
Qed.

Lemma ledger_step_paired s s' : ledger_step s s' → debits_paired s → debits_paired s'.
Proof.
  intros [[Hback Hfwd] | (d1 & c1 & Hty & Hp & Hl & _)] HI d Hd Hdeb.
  - destruct (Hback d Hd) as (d0 & Hd0 & Hk); [congruence|].
    destruct (HI d0 Hd0) as (c0 & Hc0 & Hp0).
    { destruct Hk as (_ & -> & _). done. }
    destruct (Hfwd c0 Hc0) as (c & Hc & Hk'). eauto using pairs_same_keys.
  - rewrite Hl in *. apply elem_of_app in Hd as [Hd | Hd].
    + destruct (HI d Hd Hdeb) as (c & Hc & Hp'). exists c. rewrite elem_of_app. auto.
    + apply elem_of_cons in Hd as [-> | Hd].
      * exists c1. split; [|done]. rewrite elem_of_app, !elem_of_cons. auto.
      * apply list_elem_of_singleton in Hd as ->. destruct Hp as (Hc1 & _). congruence.
Qed.

Lemma entry_id_in s t : t ∈ transactions s → transaction_id t ∈ entry_ids s.
Proof. intros Ht. unfold entry_ids. apply list_elem_of_In, in_map, list_elem_of_In, Ht. Qed.

(** A debit and its credit enter the ledger in the same step. *)
Lemma ledger_step_together s s' d c :
  ledger_step s s' → debits_paired s →
  d ∈ transactions s' → type d = TRANSFER_DEBIT → c ∈ transactions s' → pairs d c →
  (transaction_id d ∈ entry_ids s ↔ transaction_id c ∈ entry_ids s).
Proof.
  intros [[Hback _] | (d1 & c1 & Hty & Hp1 & Hl & Hd1 & Hc1)] HI Hd Hdeb Hc Hp.
  - destruct (Hback d Hd) as (d0 & Hd0 & Hk); [congruence|].
    destruct (Hback c Hc) as (c0 & Hc0 & Hk').
    { destruct Hp as (-> & _). done. }
    destruct Hk as (<- & _), Hk' as (<- & _). split; intros _; by apply entry_id_in.
  - rewrite Hl in Hd. apply elem_of_app in Hd as [Hd | Hd].
    + destruct (HI d Hd Hdeb) as (c0 & Hc0 & Hp0).
      assert (transaction_id c = transaction_id c0) as ->.
      { destruct Hp as (_&_&_&_&Hx&_), Hp0 as (_&_&_&_&Hy&_). congruence. }
      split; intros _; by apply entry_id_in.
    + apply elem_of_cons in Hd as [-> | Hd].
      * assert (transaction_id c = transaction_id c1) as ->.
        { destruct Hp as (_&_&_&_&Hx&_), Hp1 as (_&_&_&_&Hy&_). congruence. }
        tauto.
      * apply list_elem_of_singleton in Hd as ->. destruct Hp1 as (Hc1' & _). congruence.
Qed.

Lemma unique_by_id s t t' :
  ids_unique s → t ∈ transactions s → t' ∈ transactions s →
  transaction_id t = transaction_id t' → t = t'.
Proof.
  unfold ids_unique, entry_ids. induction (transactions s) as [|a l IH]; cbn.
  - intros _ H. by apply elem_of_nil in H.
  - intros [Ha Hl]%NoDup_cons [-> | Ht]%elem_of_cons [-> | Ht']%elem_of_cons Heq; try done.
    + exfalso. apply Ha. rewrite Heq. apply list_elem_of_In, in_map, list_elem_of_In, Ht'.
    + exfalso. apply Ha. rewrite <- Heq. apply list_elem_of_In, in_map, list_elem_of_In, Ht.
    + by apply IH.
Qed.

Lemma run_ledger_ok cfg reqs sys :
  ledger_ok (store sys) → ledger_ok (store (run cfg reqs sys)).
Proof.
  revert sys. induction reqs as [|r reqs IH]; intros sys [Hids Hp]; [done|].
  cbn. apply IH. split; [by apply step_ids_unique|].
  eapply ledger_step_paired; [apply step_ledger|done].
Qed.

(** C5. Start from a ledger whose entry ids are distinct and whose debits are
    paired (the empty ledger, for one) and serve any requests.  Then every
    TRANSFER_DEBIT entry of the ledger has exactly one TRANSFER_CREDIT entry
    paired with it: same amount, owner and counterparty swapped, each naming
    the other's entry id.  And whatever request is served next, a debit and
    its credit are in the ledger after it only if both were there before or
    neither was: the two are written by one call of [transfer], inside its
    single database transaction. *)
Theorem debit_has_one_credit (cfg : config) (reqs : list request) (sys : system) :
  ledger_ok (store sys) →
  let sys' := run cfg reqs sys in
  (∀ d, d ∈ transactions (store sys') → type d = TRANSFER_DEBIT →
     ∃ c, (c ∈ transactions (store sys') ∧ pairs d c) ∧
          ∀ c', c' ∈ transactions (store sys') → pairs d c' → c' = c) ∧
  (∀ r d c,
     d ∈ transactions (store (step cfg r sys')) → type d = TRANSFER_DEBIT →
     c ∈ transactions (store (step cfg r sys')) → pairs d c →
     (transaction_id d ∈ entry_ids (store sys') ↔ transaction_id c ∈ entry_ids (store sys'))).
Proof.
  intros Hok sys'. destruct (run_ledger_ok cfg reqs sys Hok) as [Hids Hp]. fold sys' in Hids, Hp.
  split.
  - intros d Hd Hdeb. destruct (Hp d Hd Hdeb) as (c & Hc & Hpc). exists c. split; [done|].
    intros c' Hc' Hpc'. eapply unique_by_id; [done..|].
    destruct Hpc as (_&_&_&_&Hx&_), Hpc' as (_&_&_&_&Hy&_). congruence.
  - intros r d c Hd Hdeb Hc Hpc.
    eapply ledger_step_together; [apply step_ledger|done..].
Qed.

Lemma bank_ledger_ok : ledger_ok bank.
Proof.
  split.
  - apply NoDup_nil_2.
  - intros d Hd. cbn in Hd. by apply elem_of_nil in Hd.
Defined.

Lemma debit_has_one_credit_witness :
  let sys' := run default_config a_busy_day (idle bank) in
  (∀ d, d ∈ transactions (store sys') → type d = TRANSFER_DEBIT →
     ∃ c, (c ∈ transactions (store sys') ∧ pairs d c) ∧
          ∀ c', c' ∈ transactions (store sys') → pairs d c' → c' = c) ∧
  (∀ r d c,
     d ∈ transactions (store (step default_config r sys')) → type d = TRANSFER_DEBIT →
     c ∈ transactions (store (step default_config r sys')) → pairs d c →
     (transaction_id d ∈ entry_ids (store sys') ↔ transaction_id c ∈ entry_ids (store sys'))).
Proof.
  apply (debit_has_one_credit default_config a_busy_day (idle bank)).
  exact bank_ledger_ok.
Defined.

(** ** What a call of [addMoney] can do *)

Lemma checkDailyAddMoneyLimit_eq cfg t u amt s :
  checkDailyAddMoneyLimit cfg t u amt s =
  (s, if DAILY_ADD_MONEY_LIMIT cfg <? added_on s u (today t) + amt
      then Throw Daily_add_money_limit_exceeded else Return tt).
Proof.
  unfold checkDailyAddMoneyLimit, SELECT_daily_limit, added_on. exec.
  destruct (daily_limits s !! (u, today t)); by destruct (_ <? _).
Qed.

Lemma addMoney_begin_inv cfg e u amt pm key s s' r :
  addMoney_begin cfg e u amt pm key s = (s', r) →
  addMoney_begin_spec cfg e u amt pm key s s' r.
Proof.
  unfold addMoney_begin. unfold bind at 1. unfold lift.
  destruct (validateAmount cfg amt) as [[]|err] eqn:Hval.
  2:{ intros [= <- <-]. constructor. }
  unfold bind at 1. rewrite checkDailyAddMoneyLimit_eq.
  destruct (_ <? _) eqn:Hlim.
  { intros [= <- <-]. constructor. }
  unfold bind at 1. rewrite checkIdempotency_eq.
  destruct (cached key s) as [c|] eqn:Hc.
  { intros [= <- <-]. constructor; try done. lia. }
  unfold bind at 1. unfold atomic, SELECT_wallet. unfold bind at 1. unfold gets at 1.
  destruct (wallets s !! u) as [w|] eqn:Hw.
  2:{ intros [= <- <-]. constructor. }
  unfold bind at 1. unfold INSERT_INTO_transactions.
  cbn [amount transaction_id idempotency_key].
  destruct (0 <? amt) eqn:Hpos; cbn [negb].
  2:{ intros [= <- <-]. constructor. }
  destruct (has_transaction_id (uuid1 e) (transactions s)) eqn:Hid.
  { intros [= <- <-]. constructor. }
  destruct (match key with Some k => _ | None => false end) eqn:Hkey.
  { intros [= <- <-]. constructor. }
  exec. intros [= <- <-].
  apply (begin_pending cfg e u amt pm key s w); try done; try lia.
  unfold key_unused. destruct key; [|done]. by rewrite Hkey.
Qed.

Lemma addMoney_finish_paid t call msg g s :
  addMoney_finish t call (Payment_success msg g) s =
  if match wallets s !! am_userId call with
     | Some _ => am_currentBalance call + am_amount call <? 0
     | None => false
     end
  then (s, Throw (Constraint_violation chk_positive_balance))
  else (addMoney_commit t call g s,
        Return (Response true msg
                  (addMoney_receipt call (am_currentBalance call + am_amount call) SUCCESS))).
Proof.
  unfold addMoney_finish, atomic. unfold bind at 1.
  unfold UPDATE_wallets_SET_balance, addMoney_commit, with_balance.
  destruct (wallets s !! am_userId call) as [w|] eqn:Hw.
  - destruct (_ <? 0); [done|]. done.
  - done.
Qed.

Lemma addMoney_finish_failed t call msg s :
  addMoney_finish t call (Payment_failure msg) s =
  (set_transactions (update_entry (set_failed msg) (am_transactionId call)) s,
   Return (Response false msg (addMoney_receipt call (am_currentBalance call) FAILED))).
Proof. done. Qed.

Lemma addMoney_finish_throws t call s :
  addMoney_finish t call Payment_throws s = (s, Throw Gateway_exception).
Proof. done. Qed.

(** The mock gateway of the repository always hands back a result object:
    its time-outs are failure results ('Transaction timeout - Please try
    again', 'Net banking session timeout'). *)
Lemma processPayment_returns shouldFail pick timestamp method amt :
  processPayment shouldFail pick timestamp method amt ≠ Payment_throws.
Proof. unfold processPayment, simulateFailure. by destruct shouldFail. Qed.

(** ** addMoney when the gateway does not report success *)


Lemma elem_of_update_entry f tid l t' :
  t' ∈ update_entry f tid l ↔
  ∃ t, t ∈ l ∧ t' = if String.eqb (transaction_id t) tid then f t else t.
Proof.
  unfold update_entry. rewrite list_elem_of_In, in_map_iff.
  split; intros (t & H1 & H2); exists t.
  - by rewrite list_elem_of_In.
  - by rewrite <- list_elem_of_In.
Qed.



(** ** addMoney when the gateway reports success *)

Lemma addMoney_paid_inv cfg e u amt pm key s s' r :
  addMoney cfg e u amt pm key s = (s', Return r) →
  success r = true → isDuplicate r = false →
  ∃ w msg g,
    payment e = Payment_success msg g ∧
    wallets s !! u = Some w ∧
    validateAmount cfg amt = Return tt ∧
    added_on s u (today (now e)) + amt ≤ DAILY_ADD_MONEY_LIMIT cfg ∧
    let call := {| am_transactionId := uuid1 e; am_userId := u; am_amount := amt;
                   am_paymentMethod := pm; am_currentBalance := balance w |} in
    s' = addMoney_commit (now e + gateway_delay e) call g
           (set_transactions (λ l, app l [pending_entry e u amt pm key w]) s) ∧
    r = Response true msg (addMoney_receipt call (balance w + amt) SUCCESS).
Proof.
  unfold addMoney. unfold bind at 1.
  destruct (addMoney_begin cfg e u amt pm key s) as [s1 out] eqn:Hb.
  apply addMoney_begin_inv in Hb.
  inversion Hb as [err|c Hval Hlim Hc|w Hval Hlim Hc Hw Hpos Hid Hkey]; subst; [done|..].
  - intros [= <- <-] _ Hdup. apply cached_isDuplicate in Hc. congruence.
  - destruct (payment e) as [msg g|msg|] eqn:Hpay.
    + rewrite addMoney_finish_paid. cbn [wallets set_transactions am_userId
        am_currentBalance am_amount]. rewrite Hw.
      destruct (_ <? 0); [done|]. intros [= <- <-] _ _. exists w, msg, g. done.
    + rewrite addMoney_finish_failed. by intros [= <- <-].
    + by rewrite addMoney_finish_throws.
Qed.

(** When nothing else runs during the gateway call, a paid [addMoney]
    leaves the wallet with what it held plus the amount. *)
Lemma addMoney_uninterrupted cfg e u amt pm key s s' r :
  addMoney cfg e u amt pm key s = (s', Return r) →
  success r = true → isDuplicate r = false →
  ∃ b, balance_of s u = Some b ∧ balance_of s' u = Some (b + amt).
Proof.
  intros H Hs Hd.
  destruct (addMoney_paid_inv _ _ _ _ _ _ _ _ _ H Hs Hd)
    as (w & msg & g & _ & Hw & _ & _ & -> & _).
  exists (balance w). unfold balance_of, addMoney_commit, with_balance.
  cbn [wallets set_transactions am_userId am_currentBalance am_amount].
  by rewrite Hw, lookup_insert_eq.
Qed.

(** C7 (what the code does). The second transaction of [addMoney] does not
    read the wallet again: it writes the balance read before the gateway call
    plus the amount.  Bob held 500.00 when his call started and 900.00 when it
    was finalized; the committed balance is 800.00, not 1200.00, and the
    400.00 Alice paid are in no wallet, while all three ledger entries are
    SUCCESS. *)
Theorem addMoney_finalizes_on_stale_balance :
  let at_finalize := run default_config credit_during_gateway_call (idle bank) in
  let committed :=
    step default_config (Req_addMoney_finish 5000 0 (paid UPI (rupees 300))) at_finalize in
  balance_of bank 2 = Some (rupees 500) ∧
  balance_of (store at_finalize) 2 = Some (rupees 900) ∧
  balance_of (store committed) 2 = Some (rupees 800) ∧
  balance_of (store committed) 1 = Some (rupees 600) ∧
  List.map (λ t, (transaction_id t, type t, status t, amount t, balance_after t))
    (transactions (store committed))
  = [ ("t1", ADD_MONEY, SUCCESS, rupees 300, rupees 800);
      ("t2", TRANSFER_DEBIT, SUCCESS, rupees 400, rupees 600);
      ("t3", TRANSFER_CREDIT, SUCCESS, rupees 400, rupees 900) ].
Proof. vm_compute. done. Qed.

(** ** The daily add-money ceiling *)

Lemma added_on_upsert s u day amt :
  match upsert_daily_limit u day col_total_added amt (daily_limits s) !! (u, day) with
  | Some d => total_added d
  | None => 0
  end = added_on s u day + amt.
Proof.
  unfold upsert_daily_limit, added_on.
  destruct (daily_limits s !! (u, day)) as [d|]; by rewrite lookup_insert_eq.
Qed.

(** Under the default per-transaction maximum of 200,000 an [addMoney] of
    300,000 does not get as far as the daily limit. *)
Lemma default_maximum_rejects_300000 e u pm key s :
  addMoney default_config e u (rupees 300000) pm key s = (s, Throw Maximum_transaction_amount).
Proof. done. Qed.

(** C9. With a daily add-money ceiling of 500,000: if a user who has added
    nothing yet that day makes an [addMoney] call of 300,000 that completes
    successfully (not a replay), then a second call of 300,000 the same day
    fails with the daily-limit error, leaves the store as it was, and the
    recorded [total_added] of the day is 300,000. *)
Theorem second_add_money_exceeds_daily_limit (cfg : config) (e1 e2 : env) (u : Z)
    (pm1 pm2 : payment_method) (k1 k2 : option string) (s s1 : db) (r1 : response) :
  DAILY_ADD_MONEY_LIMIT cfg = rupees 500000 →
  added_on s u (today (now e2)) = 0 →
  today (now e1 + gateway_delay e1) = today (now e2) →
  addMoney cfg e1 u (rupees 300000) pm1 k1 s = (s1, Return r1) →
  success r1 = true →
  isDuplicate r1 = false →
  addMoney cfg e2 u (rupees 300000) pm2 k2 s1 = (s1, Throw Daily_add_money_limit_exceeded) ∧
  added_on s1 u (today (now e2)) = rupees 300000.
Proof.
  intros Hceil Hzero Hday H1 Hs Hd.
  destruct (addMoney_paid_inv _ _ _ _ _ _ _ _ _ H1 Hs Hd)
    as (w & msg & g & _ & _ & Hval & _ & -> & _).
  assert (added_on (addMoney_commit (now e1 + gateway_delay e1)
             {| am_transactionId := uuid1 e1; am_userId := u; am_amount := rupees 300000;
                am_paymentMethod := pm1; am_currentBalance := balance w |} g
             (set_transactions
                (λ l, app l [pending_entry e1 u (rupees 300000) pm1 k1 w]) s))
            u (today (now e2)) = rupees 300000) as Htotal.
  { unfold added_on at 1, addMoney_commit.
    cbn [daily_limits set_transactions am_userId am_amount].
    rewrite Hday. rewrite (added_on_upsert s u (today (now e2)) (rupees 300000)). lia. }
  split; [|done].
  unfold addMoney, addMoney_begin. unfold bind at 1. unfold bind at 1.
  unfold lift. rewrite Hval. unfold bind at 1.
  rewrite checkDailyAddMoneyLimit_eq, Htotal, Hceil. done.
Qed.

Lemma second_add_money_exceeds_daily_limit_witness :
  let e1 := at_time 1000 "t1" "" "" (paid UPI (rupees 300000)) in
  let e2 := at_time 9000 "t2" "" "" (paid CARD (rupees 300000)) in
  let s1 := fst (addMoney raised_maximum e1 3 (rupees 300000) UPI (Some "k1") bank) in
  addMoney raised_maximum e2 3 (rupees 300000) CARD (Some "k2") s1
    = (s1, Throw Daily_add_money_limit_exceeded) ∧
  added_on s1 3 (today 9000) = rupees 300000.
Proof.
  intros e1 e2 s1.
  eapply (second_add_money_exceeds_daily_limit raised_maximum e1 e2 3 UPI CARD
            (Some "k1") (Some "k2") bank s1).
  - reflexivity.
  - reflexivity.
  - reflexivity.
  - vm_compute. reflexivity.
  - reflexivity.
  - reflexivity.
Defined.

(** ** Amounts that [transfer] accepts *)








(** ** Replays under a used idempotency key *)

(** A call under a key the ledger holds writes nothing; when it answers, it
    answers with the stored entry.  But [addMoney] first validates the amount
    and checks the daily limit, and [transfer] first looks for a redeemable
    OTP: either can throw before the cache is consulted. *)
Lemma replay_writes_nothing key s c :
  cached key s = Some c →
  (∃ k t, key = Some k ∧ t ∈ transactions s ∧ idempotency_key t = Some k
          ∧ entry_id c = transaction_id t) ∧
  (∀ cfg e u amt pm, ∃ r,
     addMoney cfg e u amt pm key s = (s, r) ∧
     (r = Return c ∨ r = Throw Minimum_transaction_amount
      ∨ r = Throw Maximum_transaction_amount ∨ r = Throw Maximum_2_decimal_places
      ∨ r = Throw Daily_add_money_limit_exceeded)) ∧
  (∀ e u toEmail amt otp ref, ∃ r,
     transfer e u toEmail amt otp ref key s = (s, r) ∧
     (r = Return c ∨ r = Throw Invalid_or_expired_OTP)).
Proof.
  intros Hc. split; [|split].
  - destruct (cached_in_ledger _ _ _ Hc) as (k & t & -> & -> & Hin & Hk).
    exists k, t. repeat split; try done. by apply list_elem_of_In.
  - intros cfg e u amt pm. unfold addMoney, addMoney_begin.
    unfold bind at 1. unfold bind at 1. unfold lift, validateAmount.
    destruct (amt <? _); [eauto 10|]. destruct (_ <? amt); [eauto 10|].
    destruct (negb _); [eauto 10|].
    unfold bind at 1. rewrite checkDailyAddMoneyLimit_eq.
    destruct (_ <? _); [eauto 10|].
    unfold bind at 1. rewrite checkIdempotency_eq, Hc. eauto.
  - intros e u toEmail amt otp ref. unfold transfer.
    unfold bind at 1. unfold SELECT_otps. unfold gets at 1.
    destruct (matching_ids _ _ _); [eauto|].
    unfold bind at 1. rewrite checkIdempotency_eq, Hc. eauto.
Qed.

(** C3 (what the code does). Two completed requests, replayed as they were
    sent.  The replay of Carol's second [addMoney] throws the daily-limit
    error, because the 400,000 already added and the 200,000 of the replay
    exceed 500,000, although the ledger holds the SUCCESS entry t2 under the
    key.  The replay of Alice's transfer throws the OTP error, because the
    transfer itself has used the OTP up, although the ledger holds the
    SUCCESS entry t2 under the key.  Neither replay changes the store. *)
Theorem replay_is_rejected_before_the_cache :
  (entry_id <$> cached (Some "k2") after_two_additions = Some "t2" ∧
   success <$> cached (Some "k2") after_two_additions = Some true ∧
   addMoney default_config (at_time 9000 "t3" "" "" (paid UPI (rupees 200000))) 3
     (rupees 200000) UPI (Some "k2") after_two_additions
   = (after_two_additions, Throw Daily_add_money_limit_exceeded)) ∧
  (entry_id <$> cached (Some "k2") after_a_transfer = Some "t2" ∧
   success <$> cached (Some "k2") after_a_transfer = Some true ∧
   transfer (at_time 3500 "t4" "t5" "" Payment_throws) 1 "b@x.com" (rupees 400)
     "111111" "ref1" (Some "k2") after_a_transfer
   = (after_a_transfer, Throw Invalid_or_expired_OTP)).
Proof.
  repeat split; vm_compute; reflexivity.
Qed.

(** ** Reference ids drawn from [uuidv4] *)

Lemma generateTransferOTP_otps cfg e u toEmail amt s s' r :
  generateTransferOTP cfg e u toEmail amt s = (s', r) →
  otps s' = otps s ∨
  otps s' = app (otps s)
              [{| otp_user_id := u; otp_code := otp_digits e; purpose := "TRANSFER";
                  reference_id := uuid1 e; is_used := false;
                  expires_at := now e + OTP_VALIDITY_MINUTES cfg * 60 * 1000 |}].
Proof.
  unfold generateTransferOTP, SELECT_users_by_email, SELECT_wallet, checkDailyTransferLimit,
    SELECT_daily_limit, INSERT_INTO_otps. exec.
  repeat case_match; intros [= <- <-]; simplify_eq; auto.
Qed.

(** As long as every OTP is issued under a reference id that no row carries
    yet, a reference id names at most one row. *)
Lemma fresh_reference_issued_once cfg e u toEmail amt s s' r ref :
  (∀ o, o ∈ otps s → reference_id o ≠ uuid1 e) →
  issued_once ref s →
  generateTransferOTP cfg e u toEmail amt s = (s', r) →
  issued_once ref s'.
Proof.
  intros Hfresh Honce [Heq | Heq]%generateTransferOTP_otps; unfold issued_once in *;
    rewrite Heq; [done|].
  rewrite List.filter_app, length_app. cbn.
  destruct (String.eqb_spec (uuid1 e) ref) as [<-|Hne]; cbn; [|lia].
  assert (List.filter (λ o, String.eqb (reference_id o) (uuid1 e)) (otps s) = []) as ->; [|done].
  clear -Hfresh. induction (otps s) as [|o l IH]; [done|]. cbn.
  destruct (String.eqb_spec (reference_id o) (uuid1 e)) as [Heq|_].
  - destruct (Hfresh o); [by left|done].
  - apply IH. intros o' Ho'. apply Hfresh. by right.
Qed.

(** ** Issuing an OTP *)

Lemma checkDailyTransferLimit_eq cfg t u amt s :
  checkDailyTransferLimit cfg t u amt s =
  (s, if DAILY_TRANSFER_LIMIT cfg <? transferred_on s u (today t) + amt
      then Throw Daily_transfer_limit_exceeded else Return tt).
Proof.
  unfold checkDailyTransferLimit, SELECT_daily_limit, transferred_on. exec.
  destruct (daily_limits s !! (u, today t)); by destruct (_ <? _).
Qed.

Lemma generateTransferOTP_inv cfg e u toEmail amt s s' r :
  generateTransferOTP cfg e u toEmail amt s = (s', r) →
  (can_issue cfg e u toEmail amt s ∧
   s' = set_otps (λ l, app l [issued_otp cfg e u]) s ∧
   ∃ recipient,
     head (List.filter (active_with_email toEmail) (users s)) = Some recipient ∧
     r = Return {| referenceId := uuid1 e; recipient_name := name recipient;
                   recipient_email := toEmail; otp_sent := otp_digits e |})
  ∨
  (¬ can_issue cfg e u toEmail amt s ∧ s' = s ∧ ∃ err, r = Throw err).
Proof.
  unfold generateTransferOTP, can_issue. unfold bind at 1. unfold lift.
  destruct (validateAmount cfg amt) as [[]|err] eqn:Hval.
  2:{ intros [= <- <-]. right. split; [|eauto]. by intros [? _]. }
  unfold bind at 1. unfold SELECT_users_by_email. unfold gets at 1. cbv beta iota.
  destruct (List.filter _ _) as [|recipient rest] eqn:Hrec.
  { intros [= <- <-]. right. split; [|eauto]. intros (_ & ? & ? & Hh & _). discriminate Hh. }
  destruct (id recipient =? u) eqn:Hself.
  { intros [= <- <-]. right. split; [|eauto]. apply Z.eqb_eq in Hself.
    intros (_ & r' & ? & Hh & ? & _). cbn in Hh. by simplify_eq. }
  apply Z.eqb_neq in Hself.
  unfold bind at 1. unfold SELECT_wallet. unfold gets at 1. cbv beta iota.
  destruct (wallets s !! u) as [w|] eqn:Hw.
  2:{ intros [= <- <-]. right. split; [|eauto].
      intros (_ & ? & ? & _ & _ & Hw' & _). discriminate Hw'. }
  destruct (balance w <? amt) eqn:Hbal.
  { intros [= <- <-]. right. split; [|eauto].
    intros (_ & ? & w' & _ & _ & Hw' & ? & _). simplify_eq. lia. }
  unfold bind at 1. rewrite checkDailyTransferLimit_eq. cbv beta iota.
  destruct (DAILY_TRANSFER_LIMIT cfg <? _) eqn:Hlim.
  { intros [= <- <-]. right. split; [|eauto]. intros (_ & ? & w' & _ & _ & _ & _ & ?). lia. }
  intros [= <- <-]. left. split; [|split; [done|eauto]].
  split; [done|]. exists recipient, w. repeat split; try done; lia.
Qed.






(** ** The money in the system *)

Lemma sum_balances_insert m i w :
  m !! i = None → sum_balances (<[i := w]> m) = balance w + sum_balances m.
Proof.
  intros Hi. unfold sum_balances.
  rewrite map_fold_insert_L; [done| |done]. intros. lia.
Qed.

Lemma sum_balances_update m i w w' :
  m !! i = Some w →
  sum_balances (<[i := w']> m) = sum_balances m - balance w + balance w'.
Proof.
  intros Hi.
  rewrite <- (insert_delete_eq m i w'), sum_balances_insert by apply lookup_delete_eq.
  rewrite <- (insert_id m i w) at 2 by done.
  rewrite <- (insert_delete_eq m i w), sum_balances_insert by apply lookup_delete_eq. lia.
Qed.





(** ** What a transfer leaves alone *)

(** X4. Whatever a call of [transfer] does, it touches no wallet but the
    sender's and the recipient's, changes no wallet's currency, opens and
    closes no wallet, leaves the users alone, issues no OTP, and only appends
    to the ledger. *)
Theorem transfer_frame (e : env) (u : Z) (toEmail : string) (amt : Z)
    (otp ref : string) (key : option string) (s : db) :
  let s' := fst (transfer e u toEmail amt otp ref key s) in
  users s' = users s ∧
  (∀ v, v ≠ u → resolve toEmail s ≠ Some v → wallets s' !! v = wallets s !! v) ∧
  (∀ v, currency <$> wallets s' !! v = currency <$> wallets s !! v) ∧
  length (otps s') = length (otps s) ∧
  ∃ new, transactions s' = app (transactions s) new.
Proof.
  cbv zeta. destruct (transfer e u toEmail amt otp ref key s) as [s' r] eqn:Ht.
  apply transfer_inv in Ht. cbn [fst].
  inversion Ht as [|otpId rest c Hotp Hc|otpId rest recipient rest' sw rw Hotp Hc Hrec Hsw Hrw];
    subst.
  1,2: repeat split; try done; exists []; by rewrite app_nil_r.
  unfold transfer_commit. cbn [users wallets otps transactions].
  split; [done|]. split; [|split; [|split]].
  - intros v Hv Hres. rewrite !lookup_insert_ne; [done..|].
    intros <-. apply Hres. unfold resolve. by rewrite Hrec.
  - intros v. destruct (decide (v = id recipient)) as [->|Hv].
    + rewrite lookup_insert_eq, Hrw. done.
    + rewrite lookup_insert_ne by done. destruct (decide (v = u)) as [->|Hv'].
      * rewrite lookup_insert_eq, Hsw. done.
      * by rewrite lookup_insert_ne.
  - by rewrite length_alter.
  - eexists. by rewrite <- app_assoc.
Qed.

(** ** The daily transfer total *)




(** ** Methods that never read the daily totals *)

Lemma ignores_ret {A} (a : A) : ignores_daily_limits (ret a).
Proof. by intros s1 s2 H. Qed.

Lemma ignores_throw {A} (e : error) : ignores_daily_limits (@throw A e).
Proof. by intros s1 s2 H. Qed.

Lemma ignores_gets {A} (f : db → A) :
  (∀ s1 s2, same_but_daily_limits s1 s2 → f s1 = f s2) → ignores_daily_limits (gets f).
Proof. intros Hf s1 s2 H. split; [done|]. cbn. f_equal. by apply Hf. Qed.

Lemma ignores_modify (f : db → db) :
  (∀ s1 s2, same_but_daily_limits s1 s2 → same_but_daily_limits (f s1) (f s2)) →
  ignores_daily_limits (modify f).
Proof. intros Hf s1 s2 H. split; [|done]. by apply Hf. Qed.

Lemma ignores_bind {A B} (m : M A) (k : A → M B) :
  ignores_daily_limits m → (∀ a, ignores_daily_limits (k a)) →
  ignores_daily_limits (bind m k).
Proof.
  intros Hm Hk s1 s2 H. unfold bind. destruct (Hm s1 s2 H) as [Ha Hr].
  destruct (m s1) as [s1' [a|e1]], (m s2) as [s2' [a2|e2]]; cbn in *; simplify_eq;
    [by apply Hk|done].
Qed.

Lemma ignores_atomic {A} (m : M A) : ignores_daily_limits m → ignores_daily_limits (atomic m).
Proof.
  intros Hm s1 s2 H. unfold atomic. destruct (Hm s1 s2 H) as [Ha Hr].
  destruct (m s1) as [s1' [a|e1]], (m s2) as [s2' [a2|e2]]; cbn in *; by simplify_eq.
Qed.

Lemma UPDATE_wallets_ignores v u : ignores_daily_limits (UPDATE_wallets_SET_balance v u).
Proof.
  intros s1 s2 (Hu & Hw & Ht & Ho). unfold UPDATE_wallets_SET_balance. rewrite Hw.
  destruct (wallets s2 !! u); [|done]. destruct (v <? 0); [done|].
  cbn. unfold same_but_daily_limits. cbn. by rewrite Hw.
Qed.

Lemma INSERT_INTO_transactions_ignores row : ignores_daily_limits (INSERT_INTO_transactions row).
Proof.
  intros s1 s2 (Hu & Hw & Ht & Ho). unfold INSERT_INTO_transactions. rewrite Ht.
  destruct (negb _); [done|]. destruct (has_transaction_id _ _); [done|].
  destruct (match idempotency_key row with Some _ => _ | None => _ end); [done|].
  cbn. unfold same_but_daily_limits. cbn. by rewrite Ht.
Qed.

Lemma UPDATE_otps_ignores i : ignores_daily_limits (UPDATE_otps_SET_is_used i).
Proof.
  apply ignores_modify. intros s1 s2 (Hu & Hw & Ht & Ho).
  unfold same_but_daily_limits. cbn. by rewrite Ho.
Qed.

Lemma updateDailyLimit_ignores t u c a : ignores_daily_limits (updateDailyLimit t u c a).
Proof. by apply ignores_modify. Qed.

Lemma checkIdempotency_ignores key : ignores_daily_limits (checkIdempotency key).
Proof.
  intros s1 s2 H. rewrite !checkIdempotency_eq. split; [done|]. cbn. f_equal.
  destruct H as (_ & _ & Ht & _). unfold cached. by rewrite Ht.
Qed.

Lemma transfer_ignores e u toEmail amt otp ref key :
  ignores_daily_limits (transfer e u toEmail amt otp ref key).
Proof.
  unfold transfer.
  apply ignores_bind.
  { apply ignores_gets. intros s1 s2 (_ & _ & _ & Ho). by rewrite Ho. }
  intros [|otpId rest]; [apply ignores_throw|].
  apply ignores_bind; [apply checkIdempotency_ignores|].
  intros [c|]; [apply ignores_ret|]. cbv zeta.
  apply ignores_atomic, ignores_bind.
  { apply ignores_gets. intros s1 s2 (Hu & _). by rewrite Hu. }
  intros [|recipient rest']; [apply ignores_throw|]. cbv zeta.
  apply ignores_bind.
  { apply ignores_gets. intros s1 s2 (_ & Hw & _). unfold wallet_row. by rewrite Hw. }
  intros rows. destruct (find_wallet u rows); [|apply ignores_throw].
  destruct (find_wallet (id recipient) rows); [|apply ignores_throw].
  destruct (_ <? amt); [apply ignores_throw|].
  repeat (apply ignores_bind; [|intros ?]);
    auto using UPDATE_wallets_ignores, INSERT_INTO_transactions_ignores, UPDATE_otps_ignores,
      updateDailyLimit_ignores, ignores_ret.
Qed.

(** X6. [transfer] never reads the daily totals: whatever the [daily_limits]
    table holds, the call ends the same way, with the same answer, wallets,
    ledger and OTPs.  The daily transfer ceiling is enforced when the OTP is
    issued and nowhere else. *)
Theorem transfer_never_reads_daily_totals (e : env) (u : Z) (toEmail : string) (amt : Z)
    (otp ref : string) (key : option string) (s : db) (limits : gmap (Z * Z) daily_limit) :
  let out := transfer e u toEmail amt otp ref key s in
  let out' := transfer e u toEmail amt otp ref key (set_daily_limits (λ _, limits) s) in
  snd out' = snd out ∧
  wallets (fst out') = wallets (fst out) ∧
  transactions (fst out') = transactions (fst out) ∧
  otps (fst out') = otps (fst out).
Proof.
  cbv zeta.
  destruct (transfer_ignores e u toEmail amt otp ref key (set_daily_limits (λ _, limits) s) s)
    as [(_ & ? & ? & ?) ?]; done.
Qed.

(** ** The ways a call of [addMoney] can end *)

Lemma addMoney_inv cfg e u amt pm key s s' r :
  addMoney cfg e u amt pm key s = (s', r) →
  addMoney_spec cfg e u amt pm key s s' r.
Proof.
  unfold addMoney. unfold bind at 1.
  destruct (addMoney_begin cfg e u amt pm key s) as [s1 out] eqn:Hb.
  apply addMoney_begin_inv in Hb.
  inversion Hb as [err|c Hval Hlim Hc|w Hval Hlim Hc Hw Hpos Hid Hkey]; subst.
  - intros [= <- <-]. constructor.
  - intros [= <- <-]. by constructor.
  - assert (begins cfg e u amt key w s) as Hbegins by done.
    fold (with_pending e u amt pm key w s). fold (pending_call e u amt pm w).
    destruct (payment e) as [msg g|msg|] eqn:Hpay.
    + rewrite addMoney_finish_paid.
      cbn [wallets with_pending set_transactions pending_call am_userId am_currentBalance
           am_amount]. rewrite Hw.
      destruct (_ <? 0) eqn:Hneg; intros [= <- <-].
      * eapply addMoney_overdrawn; [done..|lia].
      * eapply addMoney_paid; [done..|lia].
    + rewrite addMoney_finish_failed. intros [= <- <-]. by eapply addMoney_declined.
    + rewrite addMoney_finish_throws. intros [= <- <-]. by eapply addMoney_gateway_threw.
Qed.

(** X7. Whatever a call of [addMoney] does, it leaves the users, the OTPs and
    every wallet but the caller's alone, and the money in the system grows by
    the amount when the call answers with a success of its own and by nothing
    otherwise, be it a failure, an answer from the idempotency cache, or an
    exception. *)
Theorem addMoney_frame (cfg : config) (e : env) (u amt : Z) (pm : payment_method)
    (key : option string) (s : db) :
  let out := addMoney cfg e u amt pm key s in
  users (fst out) = users s ∧
  otps (fst out) = otps s ∧
  (∀ v, v ≠ u → wallets (fst out) !! v = wallets s !! v) ∧
  (∀ v, currency <$> wallets (fst out) !! v = currency <$> wallets s !! v) ∧
  total_balance (fst out) =
    total_balance s +
    match snd out with
    | Return r => if success r && negb (isDuplicate r) then amt else 0
    | Throw _ => 0
    end.
Proof.
  cbv zeta. destruct (addMoney cfg e u amt pm key s) as [s' r] eqn:H.
  apply addMoney_inv in H. cbn [fst snd].
  inversion H as [err|c Hc|w msg g Hb Hpay Hnn|w msg g Hb Hpay Hneg|w msg Hb Hpay|w Hb Hpay];
    subst.
  - repeat split; try done. lia.
  - repeat split; try done. rewrite (cached_isDuplicate _ _ _ Hc), andb_false_r. lia.
  - destruct Hb as (_ & _ & _ & Hw & _).
    unfold addMoney_commit, with_balance, total_balance.
    cbn [users otps wallets with_pending set_transactions pending_call am_userId
         am_currentBalance am_amount]. rewrite Hw.
    repeat split; try done.
    + intros v Hv. by rewrite lookup_insert_ne.
    + intros v. destruct (decide (v = u)) as [->|Hv].
      * by rewrite lookup_insert_eq, Hw.
      * by rewrite lookup_insert_ne.
    + rewrite (sum_balances_update _ u w) by done. cbn. lia.
  - repeat split; try done. unfold total_balance. cbn. lia.
  - repeat split; try done. unfold total_balance. cbn. lia.
  - repeat split; try done. unfold total_balance. cbn. lia.
Qed.

(** ** The daily add-money total *)

Lemma added_on_upsert_added s u day amt v d :
  match upsert_daily_limit u day col_total_added amt (daily_limits s) !! (v, d) with
  | Some row => total_added row
  | None => 0
  end = added_on s v d + (if decide ((v, d) = (u, day)) then amt else 0).
Proof.
  unfold upsert_daily_limit, added_on.
  destruct (decide ((v, d) = (u, day))) as [[= -> ->]|Hne].
  - destruct (daily_limits s !! (u, day)); by rewrite lookup_insert_eq.
  - destruct (daily_limits s !! (u, day));
      rewrite lookup_insert_ne by done; destruct (daily_limits s !! (v, d)); lia.
Qed.

Lemma transferred_on_upsert_added s u day amt v d :
  match upsert_daily_limit u day col_total_added amt (daily_limits s) !! (v, d) with
  | Some row => total_transferred row
  | None => 0
  end = transferred_on s v d.
Proof.
  unfold upsert_daily_limit, transferred_on.
  destruct (decide ((v, d) = (u, day))) as [[= -> ->]|Hne].
  - destruct (daily_limits s !! (u, day)); by rewrite lookup_insert_eq.
  - destruct (daily_limits s !! (u, day)); by rewrite lookup_insert_ne.
Qed.

(** X8. A call of [addMoney] that answers with a success of its own adds its
    amount to the caller's add-money total, on the day the gateway answered
    (the ceiling was checked against the day the call began), and changes no
    other total; a failure, an answer from the idempotency cache and an
    exception change no total. *)
Theorem addMoney_counts_toward_daily_total (cfg : config) (e : env) (u amt : Z)
    (pm : payment_method) (key : option string) (s : db) :
  let out := addMoney cfg e u amt pm key s in
  match snd out with
  | Return r =>
      ∀ v d,
        added_on (fst out) v d =
          added_on s v d +
          (if success r && negb (isDuplicate r)
           then if decide ((v, d) = (u, today (now e + gateway_delay e))) then amt else 0
           else 0)
        ∧ transferred_on (fst out) v d = transferred_on s v d
  | Throw _ => daily_limits (fst out) = daily_limits s
  end.
Proof.
  cbv zeta. destruct (addMoney cfg e u amt pm key s) as [s' r] eqn:H.
  apply addMoney_inv in H. cbn [fst snd].
  inversion H as [err|c Hc|w msg g Hb Hpay Hnn|w msg g Hb Hpay Hneg|w msg Hb Hpay|w Hb Hpay];
    subst; [done| | |done| |done].
  - intros v d. rewrite (cached_isDuplicate _ _ _ Hc), andb_false_r. split; [lia|done].
  - intros v d. cbn [success isDuplicate andb negb]. split.
    + apply (added_on_upsert_added s).
    + apply (transferred_on_upsert_added s).
  - intros v d. cbn [success isDuplicate andb negb]. split; [|done].
    unfold added_on. cbn. lia.
Qed.

(** ** Entries that addMoney settles *)

Lemma update_entry_absent f tid l :
  has_transaction_id tid l = false → update_entry f tid l = l.
Proof.
  unfold update_entry, has_transaction_id. induction l as [|t l IH]; [done|]. cbn.
  intros [Ht Hl]%orb_false_iff. by rewrite Ht, IH.
Qed.

Lemma update_entry_pending f e u amt pm key w l :
  has_transaction_id (uuid1 e) l = false →
  update_entry f (uuid1 e) (app l [pending_entry e u amt pm key w]) =
  app l [f (pending_entry e u amt pm key w)].
Proof.
  intros Hl. unfold update_entry. rewrite map_app. fold (update_entry f (uuid1 e) l).
  rewrite update_entry_absent by done. cbn. by rewrite String.eqb_refl.
Qed.

(** X9. Against the mock gateway of the repository, and with no wallet in
    the red, a call of [addMoney] never leaves an entry of its own pending:
    either it writes nothing to the ledger, or it appends one ADD_MONEY entry
    of the caller for the amount, answers with that entry's id, and the entry
    is SUCCESS when the answer reports success and FAILED when it does not. *)
Theorem addMoney_settles_its_entry (cfg : config) (e : env) (u amt : Z)
    (pm : payment_method) (key : option string) (s : db)
    (shouldFail : bool) (pick : nat) (timestamp : Z) (method : payment_method) (a : Z) :
  payment e = processPayment shouldFail pick timestamp method a →
  balances_nonneg s →
  let out := addMoney cfg e u amt pm key s in
  transactions (fst out) = transactions s ∨
  ∃ t r,
    transactions (fst out) = app (transactions s) [t] ∧
    snd out = Return r ∧ isDuplicate r = false ∧
    transaction_id t = entry_id r ∧ type t = ADD_MONEY ∧ user_id t = u ∧ amount t = amt ∧
    idempotency_key t = key ∧
    status t = (if success r then SUCCESS else FAILED).
Proof.
  intros Hmock Hnn. cbv zeta.
  destruct (addMoney cfg e u amt pm key s) as [s' r] eqn:H.
  apply addMoney_inv in H. cbn [fst snd].
  inversion H as [err|c Hc|w msg g Hb Hpay Hok|w msg g Hb Hpay Hneg|w msg Hb Hpay|w Hb Hpay];
    subst; [by left..| | | |].
  - right. destruct Hb as (_ & _ & _ & _ & _ & Hid & _).
    eexists _, _. split; [|split; [done|]].
    { unfold addMoney_commit, with_pending.
      cbn [transactions set_transactions pending_call am_transactionId].
      by apply update_entry_pending. }
    done.
  - destruct Hb as (_ & _ & _ & Hw & Hpos & _). apply Hnn in Hw. lia.
  - right. destruct Hb as (_ & _ & _ & _ & _ & Hid & _).
    eexists _, _. split; [|split; [done|]].
    { unfold with_pending. cbn [transactions set_transactions].
      by apply update_entry_pending. }
    done.
  - rewrite Hmock in Hpay. by apply processPayment_returns in Hpay.
Qed.

Lemma addMoney_settles_its_entry_witness :
  let e := at_time 1000 "t1" "" "" (processPayment true 3 0 UPI (rupees 250)) in
  let out := addMoney default_config e 3 (rupees 250) UPI (Some "k1") bank in
  balances_nonneg bank ∧
  (transactions (fst out) = transactions bank ∨
   ∃ t r,
     transactions (fst out) = app (transactions bank) [t] ∧
     snd out = Return r ∧ isDuplicate r = false ∧
     transaction_id t = entry_id r ∧ type t = ADD_MONEY ∧ user_id t = 3 ∧
     amount t = rupees 250 ∧ idempotency_key t = Some "k1" ∧
     status t = (if success r then SUCCESS else FAILED)) ∧
  List.map status (transactions (fst out)) = [FAILED].
Proof.
  split; [exact bank_nonneg|]. split; [|vm_compute; reflexivity].
  apply (addMoney_settles_its_entry default_config
           (at_time 1000 "t1" "" "" (processPayment true 3 0 UPI (rupees 250)))
           3 (rupees 250) UPI (Some "k1") bank true 3 0 UPI (rupees 250)).
  - reflexivity.
  - exact bank_nonneg.
Defined.

(** ** Answers kept under an idempotency key *)

Lemma filter_by_key_absent k l :
  has_idempotency_key k l = false → List.filter (by_key k) l = [].
Proof.
  unfold has_idempotency_key. induction l as [|t l IH]; [done|]. cbn.
  intros [Ht Hl]%orb_false_iff. by rewrite Ht, IH.
Qed.

Lemma cached_appended k l row s :
  k ≠ "" →
  transactions s = app l [row] →
  has_idempotency_key k l = false →
  idempotency_key row = Some k →
  cached (Some k) s =
  Some (Duplicate_response (transaction_status_eqb (status row) SUCCESS) row).
Proof.
  intros Hk Hs Hl Hrow. unfold cached.
  destruct (String.eqb_spec k "") as [|_]; [done|].
  rewrite Hs, List.filter_app, filter_by_key_absent by done. cbn.
  unfold by_key. by rewrite Hrow, String.eqb_refl.
Qed.

(** X10. The round trip of an idempotency key.  When [addMoney] or
    [transfer], called under a non-empty key, gives an answer of its own,
    the idempotency cache afterwards answers that key with the entry the
    answer referred to and with the same success flag. *)
Theorem fresh_answer_is_cached (k : string) (m : M response) (s s' : db) (r : response) :
  k ≠ "" →
  (∃ cfg e u amt pm, m = addMoney cfg e u amt pm (Some k)) ∨
  (∃ e u toEmail amt otp ref, m = transfer e u toEmail amt otp ref (Some k)) →
  m s = (s', Return r) →
  isDuplicate r = false →
  ∃ t, cached (Some k) s' = Some (Duplicate_response (success r) t) ∧
       transaction_id t = entry_id r ∧ t ∈ transactions s'.
Proof.
  intros Hk [(cfg & e & u & amt & pm & ->)|(e & u & toEmail & amt & otp & ref & ->)] H Hdup.
  - apply addMoney_inv in H.
    inversion H as [err|c Hc|w msg g Hb Hpay Hok|w msg g Hb Hpay Hneg|w msg Hb Hpay|w Hb Hpay];
      subst.
    + apply cached_isDuplicate in Hc. congruence.
    + destruct Hb as (_ & _ & _ & _ & _ & Hid & Hkey%negb_true_iff).
      exists (set_success (balance w + amt) g (pending_entry e u amt pm (Some k) w)).
      split; [|split; [reflexivity|]].
      * rewrite (cached_appended k (transactions s)
                   (set_success (balance w + amt) g (pending_entry e u amt pm (Some k) w)));
          [done|done| |done|done].
        unfold addMoney_commit, with_pending.
        cbn [transactions set_transactions pending_call am_transactionId].
        by apply update_entry_pending.
      * unfold addMoney_commit, with_pending.
        cbn [transactions set_transactions pending_call am_transactionId].
        rewrite update_entry_pending by done. set_solver.
    + destruct Hb as (_ & _ & _ & _ & _ & Hid & Hkey%negb_true_iff).
      exists (set_failed msg (pending_entry e u amt pm (Some k) w)).
      split; [|split; [reflexivity|]].
      * rewrite (cached_appended k (transactions s)
                   (set_failed msg (pending_entry e u amt pm (Some k) w)));
          [done|done| |done|done].
        unfold with_pending. cbn [transactions set_transactions].
        by apply update_entry_pending.
      * unfold with_pending. cbn [transactions set_transactions].
        rewrite update_entry_pending by done. set_solver.
  - apply transfer_inv in H.
    inversion H as [|otpId rest c Hotp Hc
                    |otpId rest recipient rest' sw rw Hotp Hc Hrec Hsw Hrw Hbal Hrb Hpos
                       Hid1 Hid2 Hne Hkey]; subst.
    + apply cached_isDuplicate in Hc. congruence.
    + apply negb_true_iff in Hkey.
      exists (debit_entry e u amt (Some k) recipient sw). split; [|split; [done|]].
      * unfold cached. destruct (String.eqb_spec k "") as [|_]; [done|].
        unfold transfer_commit. cbn [transactions].
        rewrite !List.filter_app, filter_by_key_absent by done. cbn.
        by rewrite String.eqb_refl.
      * unfold transfer_commit. cbn [transactions]. set_solver.
Qed.

Lemma fresh_answer_is_cached_witness :
  let e := at_time 1000 "t1" "" "" (paid UPI (rupees 250)) in
  ∃ s' r t,
    "k1" ≠ "" ∧
    addMoney default_config e 3 (rupees 250) UPI (Some "k1") bank = (s', Return r) ∧
    isDuplicate r = false ∧
    cached (Some "k1") s' = Some (Duplicate_response (success r) t) ∧
    transaction_id t = entry_id r ∧ t ∈ transactions s'.
Proof.
  assert ("k1" ≠ "") as Hk by done.
  pose (e := at_time 1000 "t1" "" "" (paid UPI (rupees 250))).
  destruct (addMoney default_config e 3 (rupees 250) UPI (Some "k1") bank) as [s' [r|err]] eqn:H;
    [|vm_compute in H; discriminate H].
  assert (isDuplicate r = false) as Hd by (vm_compute in H; by simplify_eq).
  destruct (fresh_answer_is_cached "k1" (addMoney default_config e 3 (rupees 250) UPI (Some "k1"))
              bank s' r Hk (or_introl (ex_intro _ default_config (ex_intro _ e (ex_intro _ 3
                (ex_intro _ (rupees 250) (ex_intro _ UPI eq_refl)))))) H Hd) as (t & Hc & Hid & Hin).
  exists s', r, t. subst e. done.
Defined.

(** X11. The empty string is a key that is never answered from the cache
    ([if (!idempotencyKey) return null]) but is stored like any other: once
    the ledger holds an entry under it, every further [addMoney] and
    [transfer] under the empty key throws and leaves the store as it was. *)
Theorem empty_key_is_accepted_once (s : db) :
  has_idempotency_key "" (transactions s) = true →
  (∀ cfg e u amt pm, ∃ err, addMoney cfg e u amt pm (Some "") s = (s, Throw err)) ∧
  (∀ e u toEmail amt otp ref,
     ∃ err, transfer e u toEmail amt otp ref (Some "") s = (s, Throw err)).
Proof.
  intros Hheld. split.
  - intros cfg e u amt pm.
    destruct (addMoney cfg e u amt pm (Some "") s) as [s' r] eqn:H.
    pose proof (addMoney_inv _ _ _ _ _ _ _ _ _ H) as Hspec.
    inversion Hspec as [err|c Hc|w msg g Hb _ _|w msg g Hb _ _|w msg Hb _|w Hb _]; subst;
      [eauto|done|..];
      destruct Hb as (_ & _ & _ & _ & _ & _ & Hkey); cbn in Hkey; by rewrite Hheld in Hkey.
  - intros e u toEmail amt otp ref.
    destruct (transfer e u toEmail amt otp ref (Some "") s) as [s' r] eqn:H.
    pose proof (transfer_inv _ _ _ _ _ _ _ _ _ _ H) as Hspec.
    inversion Hspec as [|otpId rest c Hotp Hc
      |otpId rest recipient rest' sw rw Hotp Hc Hrec Hsw Hrw Hbal Hrb Hpos Hid1 Hid2 Hne Hkey];
      subst; [eauto|done|].
    cbn in Hkey. by rewrite Hheld in Hkey.
Qed.

Lemma empty_key_is_accepted_once_witness :
  let e := at_time 1000 "t1" "" "" (paid UPI (rupees 250)) in
  let s := fst (addMoney default_config e 3 (rupees 250) UPI (Some "") bank) in
  balance_of s 3 = Some (rupees 250) ∧
  has_idempotency_key "" (transactions s) = true ∧
  (∀ cfg e u amt pm, ∃ err, addMoney cfg e u amt pm (Some "") s = (s, Throw err)) ∧
  (∀ e u toEmail amt otp ref,
     ∃ err, transfer e u toEmail amt otp ref (Some "") s = (s, Throw err)).
Proof.
  split; [vm_compute; reflexivity|]. split; [vm_compute; reflexivity|].
  apply (empty_key_is_accepted_once
           (fst (addMoney default_config (at_time 1000 "t1" "" "" (paid UPI (rupees 250)))
                   3 (rupees 250) UPI (Some "") bank))).
  vm_compute. reflexivity.
Defined.

(** ** One entry per idempotency key *)

Lemma has_idempotency_key_false k l :
  has_idempotency_key k l = false ↔ (k ∉ omap idempotency_key l).
Proof.
  unfold has_idempotency_key, by_key. induction l as [|t l IH]; cbn.
  - split; [|done]. intros _ H. by apply elem_of_nil in H.
  - rewrite orb_false_iff, IH. destruct (idempotency_key t) as [k'|].
    + rewrite not_elem_of_cons, String.eqb_neq. naive_solver.
    + naive_solver.
Qed.

Lemma keys_unique_frame {A} (m : M A) :
  (∀ s s' r, m s = (s', r) → transactions s' = transactions s) → preserves keys_unique m.
Proof.
  intros Hm s s' r HI H. unfold keys_unique. rewrite (Hm _ _ _ H). apply HI.
Qed.

Lemma UPDATE_wallets_keys v u : preserves keys_unique (UPDATE_wallets_SET_balance v u).
Proof.
  apply keys_unique_frame. intros s s' r H. by apply UPDATE_wallets_frame in H as (_ & ? & _).
Qed.

Lemma INSERT_INTO_transactions_keys row : preserves keys_unique (INSERT_INTO_transactions row).
Proof.
  intros s s' r HI. unfold INSERT_INTO_transactions.
  destruct (negb _); [by intros [= <- <-]|].
  destruct (has_transaction_id _ _); [by intros [= <- <-]|].
  destruct (idempotency_key row) as [k|] eqn:Hrow.
  - destruct (has_idempotency_key k (transactions s)) eqn:Hk; intros [= <- <-]; [done|].
    unfold keys_unique. cbn [transactions set_transactions].
    rewrite omap_app. cbn. rewrite Hrow. cbn. apply NoDup_app. split; [done|]. split.
    + intros x Hx ->%list_elem_of_singleton. by apply has_idempotency_key_false in Hk.
    + apply NoDup_singleton.
  - intros [= <- <-]. unfold keys_unique. cbn [transactions set_transactions].
    rewrite omap_app. cbn. rewrite Hrow. cbn. by rewrite app_nil_r.
Qed.

Lemma UPDATE_transactions_keys f tid :
  (∀ t, idempotency_key (f t) = idempotency_key t) →
  preserves keys_unique (UPDATE_transactions f tid).
Proof.
  intros Hf s s' r HI [= <- <-]. unfold keys_unique in *.
  cbn [transactions set_transactions].
  induction (transactions s) as [|t l IH]; [done|]. cbn in *.
  assert (idempotency_key (if String.eqb (transaction_id t) tid then f t else t)
          = idempotency_key t) as -> by (destruct (String.eqb _ _); [apply Hf|done]).
  destruct (idempotency_key t) as [k|]; cbn in *.
  - apply NoDup_cons in HI as [Hk Hl]. apply NoDup_cons. split; [|by apply IH].
    intros Hin. apply Hk. clear -Hin Hf.
    induction l as [|t' l IH]; [done|]. cbn in *.
    assert (idempotency_key (if String.eqb (transaction_id t') tid then f t' else t')
            = idempotency_key t') as Heq by (destruct (String.eqb _ _); [apply Hf|done]).
    rewrite Heq in Hin. destruct (idempotency_key t'); cbn in *; [|by apply IH].
    apply elem_of_cons in Hin as [->|Hin]; [by left|right; by apply IH].
  - by apply IH.
Qed.

Lemma keys_modify (f : db → db) :
  (∀ s, transactions (f s) = transactions s) → preserves keys_unique (modify f).
Proof. intros Hf. apply keys_unique_frame. intros s s' r [= <- <-]. apply Hf. Qed.

Ltac keys_step :=
  match goal with
  | |- preserves _ (modify _) => by apply keys_modify
  | |- preserves _ (UPDATE_transactions _ _) => by apply UPDATE_transactions_keys
  | |- preserves _ (UPDATE_wallets_SET_balance _ _) => apply UPDATE_wallets_keys
  | |- preserves _ (INSERT_INTO_transactions _) => apply INSERT_INTO_transactions_keys
  | _ => preserve_step
  end.
Ltac keys := repeat keys_step.

Lemma step_keys_unique cfg r sys :
  keys_unique (store sys) → keys_unique (store (step cfg r sys)).
Proof.
  apply step_invariant.
  - intros. unfold getBalance, SELECT_wallet. keys.
  - intros. unfold addMoney_begin, SELECT_wallet. keys.
  - intros. unfold addMoney_finish, updateDailyLimit,
      INSERT_daily_limits_ON_DUPLICATE_KEY_UPDATE. keys.
  - destruct r; try done.
    unfold generateTransferOTP, SELECT_users_by_email, SELECT_wallet, INSERT_INTO_otps. keys.
  - intros. unfold transfer, SELECT_otps, SELECT_users_by_email, SELECT_wallets_IN,
      UPDATE_otps_SET_is_used, updateDailyLimit, INSERT_daily_limits_ON_DUPLICATE_KEY_UPDATE.
    keys.
Qed.

Lemma keys_unique_entries s t1 t2 k :
  keys_unique s →
  t1 ∈ transactions s → t2 ∈ transactions s →
  idempotency_key t1 = Some k → idempotency_key t2 = Some k → t1 = t2.
Proof.
  unfold keys_unique. induction (transactions s) as [|t l IH]; intros Hnd H1 H2 Hk1 Hk2.
  { by apply elem_of_nil in H1. }
  assert (∀ t', t' ∈ l → idempotency_key t' = Some k → k ∈ omap idempotency_key l) as Hin.
  { intros t' Ht' Hk'. apply list_elem_of_omap. eauto. }
  cbn in Hnd. apply elem_of_cons in H1 as [->|H1]; apply elem_of_cons in H2 as [->|H2];
    [done|..].
  - rewrite Hk1 in Hnd. apply NoDup_cons in Hnd as [Hk _]. destruct Hk. eauto.
  - rewrite Hk2 in Hnd. apply NoDup_cons in Hnd as [Hk _]. destruct Hk. eauto.
  - apply IH; try done. destruct (idempotency_key t); [|done]. by apply NoDup_cons in Hnd as [_ ?].
Qed.

(** X12. However requests are interleaved, the ledger never holds two
    entries under one idempotency key: a key names at most one entry, and so
    at most one movement of money. *)
Theorem one_entry_per_idempotency_key (cfg : config) (reqs : list request) (sys : system) :
  keys_unique (store sys) →
  let s' := store (run cfg reqs sys) in
  keys_unique s' ∧
  ∀ t1 t2 k, t1 ∈ transactions s' → t2 ∈ transactions s' →
    idempotency_key t1 = Some k → idempotency_key t2 = Some k → t1 = t2.
Proof.
  intros HI. cbv zeta.
  assert (keys_unique (store (run cfg reqs sys))) as H.
  { revert sys HI. induction reqs as [|r reqs IH]; intros sys HI; [done|].
    cbn. apply IH. by apply step_keys_unique. }
  split; [done|]. intros t1 t2 k. by apply keys_unique_entries.
Qed.

Lemma one_entry_per_idempotency_key_witness :
  let s' := store (run default_config a_busy_day (idle bank)) in
  keys_unique (store (idle bank)) ∧
  keys_unique s' ∧
  ∀ t1 t2 k, t1 ∈ transactions s' → t2 ∈ transactions s' →
    idempotency_key t1 = Some k → idempotency_key t2 = Some k → t1 = t2.
Proof.
  assert (keys_unique (store (idle bank))) as H by apply NoDup_nil_2.
  split; [exact H|].
  apply (one_entry_per_idempotency_key default_config a_busy_day (idle bank) H).
Defined.

(** ** Entries that add up *)

Lemma books_same sys s' :
  books_ok sys → transactions s' = transactions (store sys) →
  books_ok {| store := s'; in_flight := in_flight sys |} ∧ settled_kept (store sys) s'.
Proof.
  intros (Hids & Hrows & Hfl & Hnd) Heq. unfold books_ok, settled_kept, awaits_gateway, ids_unique,
    entry_ids in *. cbn [store in_flight]. rewrite Heq. done.
Qed.

Lemma books_append sys s' new :
  books_ok sys → ids_unique s' →
  transactions s' = app (transactions (store sys)) new →
  (∀ t, t ∈ new → entry_consistent t) →
  books_ok {| store := s'; in_flight := in_flight sys |} ∧ settled_kept (store sys) s'.
Proof.
  intros (Hids & Hrows & Hfl & Hnd) Hids' Heq Hnew.
  unfold books_ok, settled_kept, awaits_gateway in *. cbn [store in_flight]. rewrite Heq.
  split; [split; [done|split; [|split; [|done]]]|].
  - intros t [Ht|Ht]%elem_of_app; auto.
  - intros call Hcall. destruct (Hfl call Hcall) as (t & Ht & H). exists t.
    split; [|done]. apply elem_of_app. by left.
  - intros t Ht _. apply elem_of_app. by left.
Qed.

Lemma books_drop sys n :
  books_ok sys → books_ok {| store := store sys; in_flight := delete n (in_flight sys) |}.
Proof.
  intros (Hids & Hrows & Hfl & Hnd). unfold books_ok. cbn [store in_flight].
  split; [done|]. split; [done|]. split.
  - intros call Hcall. apply Hfl. eapply elem_of_sublist; [done|apply sublist_delete].
  - apply (sublist_NoDup _ (List.map am_transactionId (in_flight sys))); [done|].
    apply fmap_sublist, sublist_delete.
Qed.

Lemma other_calls {A B} (f : A → B) (l : list A) n x y :
  NoDup (f <$> l) → l !! n = Some x → y ∈ delete n l → f y ≠ f x.
Proof.
  intros Hnd Hx Hy. rewrite <- (take_drop_middle l n x Hx) in Hnd.
  rewrite delete_take_drop in Hy. rewrite fmap_app, fmap_cons in Hnd.
  apply NoDup_app in Hnd as (_ & Hleft & Hright%NoDup_cons). destruct Hright as [Hright _].
  intros Heq. apply elem_of_app in Hy as [Hy|Hy].
  - apply (Hleft (f y)); [by apply list_elem_of_fmap_2|]. rewrite Heq. by left.
  - apply Hright. rewrite <- Heq. by apply list_elem_of_fmap_2.
Qed.

Lemma books_finish sys s' n call f :
  books_ok sys → in_flight sys !! n = Some call → ids_unique s' →
  transactions s' = update_entry f (am_transactionId call) (transactions (store sys)) →
  (∀ t, entry_consistent t → transaction_id t = am_transactionId call →
        status t = PENDING → type t = ADD_MONEY → amount t = am_amount call →
        balance_before t = am_currentBalance call → entry_consistent (f t)) →
  books_ok {| store := s'; in_flight := delete n (in_flight sys) |} ∧
  settled_kept (store sys) s'.
Proof.
  intros (Hids & Hrows & Hfl & Hnd) Hn Hids' Heq Hf.
  destruct (Hfl call) as (t0 & Ht0 & Hid0 & Hst0 & Hty0 & Ham0 & Hbb0).
  { by eapply list_elem_of_lookup_2. }
  assert (∀ t, t ∈ transactions (store sys) →
               transaction_id t = am_transactionId call → t = t0) as Hone.
  { intros t Ht Hid. apply (unique_by_id (store sys)); [done..|congruence]. }
  unfold books_ok, settled_kept. cbn [store in_flight].
  split; [split; [done|split; [|split]]|].
  - intros t'. rewrite Heq. intros (t & Ht & ->)%elem_of_update_entry.
    destruct (String.eqb_spec (transaction_id t) (am_transactionId call)) as [Hid|_];
      [|by apply Hrows].
    rewrite (Hone t Ht Hid). apply Hf; auto.
  - intros c Hc.
    assert (am_transactionId c ≠ am_transactionId call) as Hne
      by (eapply (other_calls am_transactionId); done).
    destruct (Hfl c) as (t & Ht & Hid & H).
    { eapply elem_of_sublist; [done|apply sublist_delete]. }
    exists t. split; [|done]. rewrite Heq. apply elem_of_update_entry. exists t.
    split; [done|]. destruct (String.eqb_spec (transaction_id t) (am_transactionId call));
      [congruence|done].
  - apply (sublist_NoDup _ (List.map am_transactionId (in_flight sys))); [done|].
    apply fmap_sublist, sublist_delete.
  - intros t Ht Hst. rewrite Heq. apply elem_of_update_entry. exists t. split; [done|].
    destruct (String.eqb_spec (transaction_id t) (am_transactionId call)) as [Hid|_]; [|done].
    rewrite (Hone t Ht Hid) in Hst. congruence.
Qed.

Lemma books_enqueue s' fl call :
  books_ok {| store := s'; in_flight := fl |} →
  awaits_gateway s' call →
  (am_transactionId call ∉ List.map am_transactionId fl) →
  books_ok {| store := s'; in_flight := app fl [call] |}.
Proof.
  intros (Hids & Hrows & Hfl & Hnd) Hcall Hnew. unfold books_ok in *. cbn [store in_flight] in *.
  split; [done|]. split; [done|]. split.
  - intros c [Hc| ->%list_elem_of_singleton]%elem_of_app; auto.
  - rewrite map_app. apply NoDup_app. split; [done|]. split; [|apply NoDup_singleton].
    intros x Hx ->%list_elem_of_singleton. done.
Qed.

Lemma getBalance_store u s : fst (getBalance u s) = s.
Proof. unfold getBalance, SELECT_wallet. exec. by destruct (wallets s !! u). Qed.

Lemma settled_kept_refl s : settled_kept s s.
Proof. by intros t Ht _. Qed.

Lemma pending_entry_consistent e u amt pm key w :
  0 < amt → entry_consistent (pending_entry e u amt pm key w).
Proof. by intros Hpos. Qed.

Lemma set_success_consistent call g t :
  entry_consistent t → status t = PENDING → type t = ADD_MONEY →
  amount t = am_amount call → balance_before t = am_currentBalance call →
  entry_consistent (set_success (am_currentBalance call + am_amount call) g t).
Proof.
  intros (Hpos & _ & _) _ Hty Ham Hbb. unfold entry_consistent. cbn. rewrite Hty.
  split; [done|]. split; [lia|done].
Qed.

Lemma set_failed_consistent msg t :
  entry_consistent t → status t = PENDING → type t = ADD_MONEY →
  entry_consistent (set_failed msg t).
Proof.
  intros (Hpos & Hafter & _) Hst Hty. unfold entry_consistent. cbn. rewrite Hst in Hafter.
  split; [done|]. split; [done|]. by rewrite Hty.
Qed.

(** One step of the system keeps the books in order and every settled entry
    as it is. *)
Lemma step_books cfg r sys :
  books_ok sys →
  books_ok (step cfg r sys) ∧ settled_kept (store sys) (store (step cfg r sys)).
Proof.
  intros Hok. pose proof (step_ids_unique cfg r sys (proj1 Hok)) as Hids'. revert Hids'.
  destruct r as [u|e u a pm k|e u a pm k|t n p|e u m a|e u m a o ref k]; cbn [step store].
  - intros _. apply books_same; [done|]. by rewrite getBalance_store.
  - destruct (addMoney cfg e u a pm k (store sys)) as [s' r] eqn:H. cbn [fst]. intros Hids'.
    apply addMoney_inv in H.
    inversion H as [err|c Hc|w msg g Hb Hpay Hnn|w msg g Hb Hpay Hneg|w msg Hb Hpay|w Hb Hpay];
      subst; [by apply books_same..| | | |];
      destruct Hb as (_ & _ & _ & _ & Hpos & Hid & _).
    + apply (books_append _ _ [set_success (balance w + a) g (pending_entry e u a pm k w)]);
        [done..| |].
      * unfold addMoney_commit, with_pending.
        cbn [transactions set_transactions pending_call am_transactionId am_currentBalance
             am_amount]. by apply update_entry_pending.
      * intros t ->%list_elem_of_singleton. unfold entry_consistent. cbn. done.
    + apply (books_append _ _ [pending_entry e u a pm k w]); [done..|].
      intros t ->%list_elem_of_singleton. by apply pending_entry_consistent.
    + apply (books_append _ _ [set_failed msg (pending_entry e u a pm k w)]); [done..| |].
      * unfold with_pending. cbn [transactions set_transactions].
        by apply update_entry_pending.
      * intros t ->%list_elem_of_singleton. unfold entry_consistent. cbn. done.
    + apply (books_append _ _ [pending_entry e u a pm k w]); [done..|].
      intros t ->%list_elem_of_singleton. by apply pending_entry_consistent.
  - destruct (addMoney_begin cfg e u a pm k (store sys)) as [s' out] eqn:H.
    apply addMoney_begin_inv in H.
    inversion H as [err|c Hval Hlim Hc|w Hval Hlim Hc Hw Hpos Hid Hkey]; subst; cbn [store].
    + intros _. by apply books_same.
    + intros _. by apply books_same.
    + intros Hids'.
      destruct (books_append sys
                  (set_transactions (λ l, app l [pending_entry e u a pm k w]) (store sys))
                  [pending_entry e u a pm k w]) as [Hbooks Hkept]; [done..| |].
      { intros t ->%list_elem_of_singleton. by apply pending_entry_consistent. }
      split; [|done]. apply books_enqueue; [done| |].
      * exists (pending_entry e u a pm k w). cbn. split; [|done].
        apply elem_of_app. right. by left.
      * cbn [am_transactionId]. intros (c' & Hc' & Hin)%list_elem_of_fmap.
        destruct Hok as (_ & _ & Hfl & _).
        destruct (Hfl c' Hin) as (t & Ht & Hidt & _).
        apply has_transaction_id_false in Hid. apply Hid.
        rewrite Hc', <- Hidt. by apply list_elem_of_fmap_2.
  - destruct (in_flight sys !! n) as [call|] eqn:Hn; [|intros _; split;
      [done|apply settled_kept_refl]].
    cbn [store]. destruct p as [msg g|msg|].
    + rewrite addMoney_finish_paid.
      destruct (match wallets (store sys) !! am_userId call with
                | Some _ => am_currentBalance call + am_amount call <? 0
                | None => false
                end); cbn [fst].
      * intros _. split; [by apply books_drop|apply settled_kept_refl].
      * intros Hids'.
        apply (books_finish sys _ n call
                 (set_success (am_currentBalance call + am_amount call) g)); [done..|].
        intros t' ? _ ? ? ? ?. by apply set_success_consistent.
    + rewrite addMoney_finish_failed. cbn [fst]. intros Hids'.
      apply (books_finish sys _ n call (set_failed msg)); [done..|].
      intros t' ? _ ? ? _ _. by apply set_failed_consistent.
    + rewrite addMoney_finish_throws. cbn [fst]. intros _.
      split; [by apply books_drop|apply settled_kept_refl].
  - destruct (generateTransferOTP cfg e u m a (store sys)) as [s' r] eqn:H. cbn [fst].
    intros _. apply books_same; [done|].
    by apply generateTransferOTP_inv in H as [(_ & -> & _)|(_ & -> & _)].
  - destruct (transfer e u m a o ref k (store sys)) as [s' r] eqn:H. cbn [fst]. intros Hids'.
    apply transfer_inv in H.
    inversion H as [|otpId rest c Hotp Hc
      |otpId rest recipient rest' sw rw Hotp Hc Hrec Hsw Hrw Hbal Hrb Hpos Hid1 Hid2 Hne Hkey];
      subst; [by apply books_same..|].
    apply (books_append _ _ [debit_entry e u a k recipient sw; credit_entry e u a recipient rw]);
      [done..| |].
    + unfold transfer_commit. cbn [transactions]. by rewrite <- app_assoc.
    + intros t [->| ->%list_elem_of_singleton]%elem_of_cons; unfold entry_consistent; cbn; done.
Qed.

Lemma run_books cfg reqs sys :
  books_ok sys →
  books_ok (run cfg reqs sys) ∧ settled_kept (store sys) (store (run cfg reqs sys)).
Proof.
  revert sys. induction reqs as [|r reqs IH]; intros sys Hok.
  - split; [done|apply settled_kept_refl].
  - cbn. destruct (step_books cfg r sys Hok) as [Hok' Hkept].
    destruct (IH _ Hok') as [Hok'' Hkept']. split; [done|].
    intros t Ht Hst. apply Hkept'; [|done]. by apply Hkept.
Qed.


Lemma bank_books_ok : books_ok (idle bank).
Proof.
  split; [apply NoDup_nil_2|]. split; [|split; [|apply NoDup_nil_2]].
  - intros t Ht. by apply elem_of_nil in Ht.
  - intros c Hc. by apply elem_of_nil in Hc.
Qed.


(** X14. A settled entry is final.  However requests are interleaved, an
    entry that is SUCCESS or FAILED stays in the ledger exactly as it is:
    no later request changes any of its columns or removes it. *)
Theorem settled_entries_are_final (cfg : config) (reqs : list request) (sys : system)
    (t : transaction) :
  books_ok sys →
  t ∈ transactions (store sys) →
  status t ≠ PENDING →
  t ∈ transactions (store (run cfg reqs sys)).
Proof.
  intros Hok Ht Hst. destruct (run_books cfg reqs sys Hok) as [_ Hkept]. by apply Hkept.
Qed.

Lemma settled_entries_are_final_witness :
  let sys := run default_config
               [ Req_addMoney (at_time 1000 "t1" "" "" (paid UPI (rupees 250))) 3 (rupees 250)
                   UPI (Some "k1") ] (idle bank) in
  ∃ t, books_ok sys ∧ t ∈ transactions (store sys) ∧ status t ≠ PENDING ∧
       t ∈ transactions (store (run default_config a_busy_day sys)).
Proof.
  cbv zeta.
  pose (first := [ Req_addMoney (at_time 1000 "t1" "" "" (paid UPI (rupees 250))) 3
                     (rupees 250) UPI (Some "k1") ]).
  assert (books_ok (run default_config first (idle bank))) as Hok
    by (apply run_books, bank_books_ok).
  pose (t := set_success (rupees 250) {| g_method := UPI; g_amount := rupees 250;
                                         g_timestamp := 0 |}
               (pending_entry (at_time 1000 "t1" "" "" (paid UPI (rupees 250))) 3 (rupees 250)
                  UPI (Some "k1") (INR 0))).
  assert (t ∈ transactions (store (run default_config first (idle bank)))) as Ht
    by (vm_compute; left).
  assert (status t ≠ PENDING) as Hst by done.
  exists t. split; [exact Hok|]. split; [exact Ht|]. split; [exact Hst|].
  exact (settled_entries_are_final default_config a_busy_day
           (run default_config first (idle bank)) t Hok Ht Hst).
Defined.

(** ** What the answer says about the balance *)



(** ** The daily add-money ceiling, once more *)



(** ** Reconciling the wallets with the ledger *)





(** ** The transfer of the concurrency test *)

Lemma performTransfer_inv e u v amt s s' r :
  performTransfer e u v amt s = (s', r) →
  (s' = s ∧ ∃ reason, r = Test_failure reason) ∨
  ∃ sw rw,
    wallets s !! u = Some sw ∧ wallets s !! v = Some rw ∧
    amt ≤ balance sw ∧ 0 < amt ∧
    r = Test_success (uuid1 e) (uuid2 e) ∧
    wallets s' =
      <[v := {| balance := balance rw + amt; currency := currency rw |}]>
        (<[u := {| balance := balance sw - amt; currency := currency sw |}]> (wallets s)) ∧
    users s' = users s ∧ otps s' = otps s ∧ daily_limits s' = daily_limits s ∧
    transactions s' =
      app (transactions s)
        [ {| transaction_id := uuid1 e; idempotency_key := None; user_id := u;
             type := TRANSFER_DEBIT; amount := amt; balance_before := balance sw;
             balance_after := balance sw - amt; status := SUCCESS;
             txn_payment_method := None; counterparty_user_id := Some v;
             counterparty_transaction_id := Some (uuid2 e); metadata := None;
             failure_reason := None |};
          {| transaction_id := uuid2 e; idempotency_key := None; user_id := v;
             type := TRANSFER_CREDIT; amount := amt; balance_before := balance rw;
             balance_after := balance rw + amt; status := SUCCESS;
             txn_payment_method := None; counterparty_user_id := Some u;
             counterparty_transaction_id := Some (uuid1 e); metadata := None;
             failure_reason := None |} ].
Proof.
  unfold performTransfer. cbv zeta.
  rewrite !SELECT_wallets_IN_find by auto. unfold wallet_row.
  destruct (wallets s !! u) as [sw|] eqn:Hsw; [|intros [= <- <-]; eauto].
  destruct (wallets s !! v) as [rw|] eqn:Hrw; [|intros [= <- <-]; eauto].
  cbn [snd]. destruct (balance sw <? amt) eqn:Hbal; [intros [= <- <-]; eauto|].
  unfold bind at 1. unfold UPDATE_wallets_SET_balance at 1. rewrite Hsw.
  destruct (balance sw - amt <? 0) eqn:Hneg; [intros [= <- <-]; eauto|].
  unfold bind at 1. unfold UPDATE_wallets_SET_balance at 1. cbn [wallets set_wallets].
  destruct (<[u:=_]> (wallets s) !! v) as [w|] eqn:Hw.
  2:{ rewrite lookup_insert in Hw. case_decide; [done|]. by rewrite Hrw in Hw. }
  assert (currency w = currency rw) as Hcur.
  { rewrite lookup_insert in Hw. case_decide as Heq.
    - injection Hw as <-. cbn. rewrite Heq in Hsw. by simplify_eq.
    - by simplify_eq. }
  destruct (balance rw + amt <? 0) eqn:Hneg'; [intros [= <- <-]; eauto|].
  unfold bind at 1. unfold INSERT_INTO_transactions at 1.
  cbn [amount transaction_id idempotency_key transactions set_wallets].
  destruct (0 <? amt) eqn:Hpos; cbn [negb]; [|intros [= <- <-]; eauto].
  destruct (has_transaction_id (uuid1 e) (transactions s)) eqn:Hid1;
    [intros [= <- <-]; eauto|].
  unfold INSERT_INTO_transactions at 1.
  cbn [amount transaction_id idempotency_key transactions set_wallets set_transactions].
  rewrite Hpos. cbn [negb].
  destruct (has_transaction_id (uuid2 e) _) eqn:Hid2; [intros [= <- <-]; eauto|].
  intros [= <- <-]. right. exists sw, rw.
  cbn [wallets users otps daily_limits transactions set_transactions set_wallets].
  rewrite Hcur, <- app_assoc. repeat split; try done; lia.
Qed.

Lemma performTransfer_commits e u v amt s sw rw :
  wallets s !! u = Some sw →
  wallets s !! v = Some rw →
  amt ≤ balance sw →
  0 ≤ balance rw + amt →
  0 < amt →
  has_transaction_id (uuid1 e) (transactions s) = false →
  has_transaction_id (uuid2 e) (transactions s) = false →
  uuid1 e ≠ uuid2 e →
  ∃ s', performTransfer e u v amt s = (s', Test_success (uuid1 e) (uuid2 e)).
Proof.
  intros Hsw Hrw Hbal Hrb Hpos Hid1 Hid2 Hne.
  unfold performTransfer. cbv zeta.
  rewrite !SELECT_wallets_IN_find by auto. unfold wallet_row. rewrite Hsw, Hrw. cbn [snd].
  assert ((balance sw <? amt) = false) as -> by lia.
  unfold bind at 1. unfold UPDATE_wallets_SET_balance at 1. rewrite Hsw.
  assert ((balance sw - amt <? 0) = false) as -> by lia.
  unfold bind at 1. unfold UPDATE_wallets_SET_balance at 1. cbn [wallets set_wallets].
  destruct (<[u:=_]> (wallets s) !! v) as [w|] eqn:Hw.
  2:{ rewrite lookup_insert in Hw. case_decide; [done|]. by rewrite Hrw in Hw. }
  assert ((balance rw + amt <? 0) = false) as -> by lia.
  unfold bind at 1. unfold INSERT_INTO_transactions at 1.
  cbn [amount transaction_id idempotency_key transactions set_wallets].
  assert ((0 <? amt) = true) as Hpos' by lia. rewrite Hpos'. cbn [negb]. rewrite Hid1.
  unfold INSERT_INTO_transactions at 1.
  cbn [amount transaction_id idempotency_key transactions set_wallets set_transactions].
  rewrite Hpos'. cbn [negb].
  rewrite has_transaction_id_app, Hid2. cbn [orb has_transaction_id existsb transaction_id].
  assert (String.eqb (uuid1 e) (uuid2 e) = false) as -> by (by apply String.eqb_neq).
  cbn [orb]. eauto.
Qed.

(** X18. The transfer of the concurrency test never throws and keeps what
    the test checks at its end: between two different users it leaves the sum
    of all wallet balances as it was, however it ends; when it reports a
    failure it has changed nothing; and it leaves no balance negative. *)
Theorem performTransfer_keeps_the_total (e : env) (u v amt : Z) (s : db) :
  u ≠ v →
  let out := performTransfer e u v amt s in
  total_balance (fst out) = total_balance s ∧
  (∀ reason, snd out = Test_failure reason → fst out = s) ∧
  (balances_nonneg s → balances_nonneg (fst out)).
Proof.
  intros Hne. cbv zeta. destruct (performTransfer e u v amt s) as [s' r] eqn:H.
  apply performTransfer_inv in H as [(-> & reason & ->)
    |(sw & rw & Hsw & Hrw & Hbal & Hpos & -> & Hw & _)]; cbn [fst snd]; [done|].
  split; [|split; [done|]].
  - unfold total_balance. rewrite Hw.
    rewrite (sum_balances_update _ v rw) by by rewrite lookup_insert_ne.
    rewrite (sum_balances_update _ u sw) by done. cbn. lia.
  - intros Hnn x w. rewrite Hw. rewrite lookup_insert. case_decide.
    { intros [= <-]. cbn. apply Hnn in Hrw. lia. }
    rewrite lookup_insert. case_decide; [|by apply Hnn].
    intros [= <-]. cbn. lia.
Qed.

Lemma performTransfer_keeps_the_total_witness :
  let e := at_time 3000 "t2" "t3" "" Payment_throws in
  let out := performTransfer e 1 2 (rupees 400) bank in
  1 ≠ 2 ∧
  total_balance (fst out) = total_balance bank ∧
  (∀ reason, snd out = Test_failure reason → fst out = bank) ∧
  (balances_nonneg bank → balances_nonneg (fst out)) ∧
  balance_of (fst out) 1 = Some (rupees 600) ∧ balance_of (fst out) 2 = Some (rupees 900).
Proof.
  assert (1 ≠ 2) as H by done. split; [exact H|].
  pose proof (performTransfer_keeps_the_total (at_time 3000 "t2" "t3" "" Payment_throws)
                1 2 (rupees 400) bank H) as (H1 & H2 & H3).
  split; [exact H1|]. split; [exact H2|]. split; [exact H3|].
  split; vm_compute; reflexivity.
Defined.

(** X19. The test's transfer moves money as the service's does: whenever
    [transfer] answers with a success of its own, [performTransfer], run on
    the same store for the same sender, the recipient the address resolved to
    and the same amount, succeeds and leaves the same wallets; what the test
    skips is the OTP, the idempotency key and the daily total. *)
Theorem performTransfer_moves_money_like_transfer (e : env) (u : Z) (toEmail : string)
    (amt : Z) (otp ref : string) (key : option string) (s s' : db) (msg : string)
    (r : receipt) (v : Z) :
  transfer e u toEmail amt otp ref key s = (s', Return (Response true msg r)) →
  resolve toEmail s = Some v →
  let out := performTransfer e u v amt s in
  snd out = Test_success (uuid1 e) (uuid2 e) ∧
  wallets (fst out) = wallets s' ∧
  users (fst out) = users s' ∧
  (key = None → transactions (fst out) = transactions s').
Proof.
  intros H Hres. cbv zeta. apply transfer_inv in H.
  inversion H as [|otpId rest c Hotp Hc
    |otpId rest recipient rest' sw rw Hotp Hc Hrec Hsw Hrw Hbal Hrb Hpos Hid1 Hid2 Hne Hkey];
    subst.
  { apply cached_isDuplicate in Hc. done. }
  unfold resolve in Hres. rewrite Hrec in Hres. cbn in Hres. injection Hres as <-.
  destruct (performTransfer_commits e u (id recipient) amt s sw rw) as [s2 H2]; [done..|].
  rewrite H2. cbn [fst snd].
  apply performTransfer_inv in H2 as [(_ & ? & ?)
    |(sw' & rw' & Hsw' & Hrw' & _ & _ & _ & Hw & Hu & _ & _ & Ht)]; [done|].
  simplify_eq. unfold transfer_commit. cbn [wallets users transactions].
  split; [done|]. split; [done|]. split; [done|].
  intros ->. rewrite Ht, <- app_assoc. done.
Qed.

Lemma performTransfer_moves_money_like_transfer_witness :
  let e := at_time 3000 "t2" "t3" "" Payment_throws in
  ∃ s' msg r,
    transfer e 1 "b@x.com" (rupees 100) "111111" "ref1" None with_otp
      = (s', Return (Response true msg r)) ∧
    resolve "b@x.com" with_otp = Some 2 ∧
    snd (performTransfer e 1 2 (rupees 100) with_otp) = Test_success (uuid1 e) (uuid2 e) ∧
    wallets (fst (performTransfer e 1 2 (rupees 100) with_otp)) = wallets s' ∧
    users (fst (performTransfer e 1 2 (rupees 100) with_otp)) = users s' ∧
    (@None string = None → transactions (fst (performTransfer e 1 2 (rupees 100) with_otp))
                   = transactions s').
Proof.
  cbv zeta. pose (e := at_time 3000 "t2" "t3" "" Payment_throws).
  destruct (transfer e 1 "b@x.com" (rupees 100) "111111" "ref1" None with_otp)
    as [s' [[[] msg r|]|]] eqn:H; try (vm_compute in H; discriminate H).
  assert (resolve "b@x.com" with_otp = Some 2) as Hres by (vm_compute; reflexivity).
  exists s', msg, r. split; [exact H|]. split; [exact Hres|].
  exact (performTransfer_moves_money_like_transfer e 1 "b@x.com" (rupees 100) "111111" "ref1"
           None with_otp s' msg r 2 H Hres).
Defined.

(** ** Transaction history *)

Lemma filter_by_id_at_most_one (us : list user) (c : Z) :
  NoDup (List.map id us) → (length (List.filter (λ u, (id u =? c)%Z) us) ≤ 1)%nat.
Proof.
  induction us as [|a us IH]; cbn; [lia|]. intros [Ha Hus]%NoDup_cons.
  destruct (Z.eqb_spec (id a) c) as [<-|_]; [|by apply IH]. cbn.
  assert (List.filter (λ u, id u =? id a) us = []) as ->; [|done].
  clear -Ha. induction us as [|b us IH]; [done|]. cbn in *.
  apply not_elem_of_cons in Ha as [Hab Ha].
  destruct (Z.eqb_spec (id b) (id a)); [congruence|by apply IH].
Qed.

Lemma LEFT_JOIN_users_one us t :
  NoDup (List.map id us) → length (LEFT_JOIN_users us t) = 1%nat.
Proof.
  intros Hus. unfold LEFT_JOIN_users. destruct (counterparty_user_id t) as [c|]; [|done].
  pose proof (filter_by_id_at_most_one us c Hus) as Hle.
  destruct (List.filter _ us) as [|a [|b l]]; cbn in *; [done..|lia].
Qed.

Lemma LEFT_JOIN_users_rows us t row :
  row ∈ LEFT_JOIN_users us t →
  h_transaction_id row = transaction_id t ∧ h_type row = type t ∧
  h_amount row = amount t ∧ h_balance_after row = balance_after t ∧
  h_status row = status t.
Proof.
  unfold LEFT_JOIN_users. destruct (counterparty_user_id t) as [c|].
  - destruct (List.filter _ us) as [|a l].
    + by intros ->%list_elem_of_singleton.
    + by intros (u & -> & _)%list_elem_of_fmap.
  - by intros ->%list_elem_of_singleton.
Qed.

Lemma flat_map_length_one {A B} (f : A → list B) (l : list A) :
  (∀ a, length (f a) = 1%nat) → length (flat_map f l) = length l.
Proof.
  intros Hf. induction l as [|a l IH]; [done|]. cbn. by rewrite length_app, Hf, IH.
Qed.

Lemma ceil_quotient_bounds total limit :
  0 ≤ total → 1 ≤ limit →
  ∃ n, ceil_quotient total limit = Finite n ∧ (n - 1) * limit < total ≤ n * limit.
Proof.
  intros Htotal Hlimit. unfold ceil_quotient.
  destruct (Z.eqb_spec limit 0) as [|_]; [lia|].
  eexists. split; [done|].
  pose proof (Z.div_mod (- total) limit) as Hdm.
  pose proof (Z.mod_pos_bound (- total) limit). nia.
Qed.

(** X20. A page of the transaction history, for a page number and a limit of
    at least 1 (what the route lets through): [total] is the number of the
    user's entries; [totalPages] is the least number of pages of [limit] rows
    that hold them all; the page has [limit] rows, or what is left of the
    entries after the pages before it, or none; and it is empty exactly when
    its number is beyond [totalPages]. *)
Theorem history_page_sizes (order : list history_row → list history_row)
    (u page limit : Z) (s : db) :
  (∀ l, Permutation (order l) l) →
  NoDup (List.map id (users s)) →
  1 ≤ page → 1 ≤ limit →
  ∃ rows n,
    let total := Z.of_nat (length (entries_of u s)) in
    getTransactionHistory order u page limit s =
      History rows {| p_page := page; p_limit := limit; p_total := total;
                      p_totalPages := Finite n |} ∧
    (n - 1) * limit < total ≤ n * limit ∧
    Z.of_nat (length rows) = Z.min limit (Z.max 0 (total - (page - 1) * limit)) ∧
    (rows = [] ↔ n < page).
Proof.
  intros Horder Hus Hpage Hlimit. cbv zeta.
  destruct (ceil_quotient_bounds (Z.of_nat (length (entries_of u s))) limit)
    as (n & Hn & Hbounds); [lia|done|].
  unfold getTransactionHistory. cbv zeta. fold (entries_of u s).
  assert (0 ≤ (page - 1) * limit) as Hoff by nia.
  assert ((limit <? 0) || ((page - 1) * limit <? 0) = false) as ->.
  { apply orb_false_iff. split; lia. }
  rewrite Hn. eexists _, n. split; [reflexivity|]. split; [done|].
  assert (Z.of_nat (length (take (Z.to_nat limit) (drop (Z.to_nat ((page - 1) * limit))
            (order (flat_map (LEFT_JOIN_users (users s)) (entries_of u s))))))
          = Z.min limit (Z.max 0 (Z.of_nat (length (entries_of u s)) - (page - 1) * limit)))
    as Hlen.
  { rewrite length_take, length_drop, (Permutation_length (Horder _)),
      flat_map_length_one by (intros; by apply LEFT_JOIN_users_one). lia. }
  split; [done|].
  rewrite <- length_zero_iff_nil. split; intros H; nia.
Qed.

Lemma history_page_sizes_witness :
  let s := store (run default_config a_busy_day (idle bank)) in
  ∃ rows n,
    (∀ l : list history_row, Permutation (rev l) l) ∧
    NoDup (List.map id (users s)) ∧ 1 ≤ 2 ∧ 1 ≤ 1 ∧
    getTransactionHistory (@rev history_row) 1 2 1 s =
      History rows {| p_page := 2; p_limit := 1;
                      p_total := Z.of_nat (length (entries_of 1 s));
                      p_totalPages := Finite n |} ∧
    (n - 1) * 1 < Z.of_nat (length (entries_of 1 s)) ≤ n * 1 ∧
    Z.of_nat (length rows)
      = Z.min 1 (Z.max 0 (Z.of_nat (length (entries_of 1 s)) - (2 - 1) * 1)) ∧
    (rows = [] ↔ n < 2).
Proof.
  cbv zeta.
  assert (∀ l : list history_row, Permutation (rev l) l) as Horder
    by (intros l; symmetry; apply Permutation_rev).
  assert (NoDup (List.map id (users (store (run default_config a_busy_day (idle bank))))))
    as Hus.
  { vm_compute. repeat (apply NoDup_cons; split; [set_solver|]). apply NoDup_nil_2. }
  assert (1 ≤ 2) as Hpage by lia. assert (1 ≤ 1) as Hlimit by lia.
  destruct (history_page_sizes (@rev history_row) 1 2 1
              (store (run default_config a_busy_day (idle bank))) Horder Hus Hpage Hlimit)
    as (rows & n & H).
  exists rows, n. split; [exact Horder|]. split; [exact Hus|].
  split; [exact Hpage|]. split; [exact Hlimit|]. exact H.
Defined.

(** X21. The transaction history shows a user nothing but the user's own
    entries: whatever the page and the limit, every row that
    [getTransactionHistory] returns gives the id, type, amount, balance after
    and status of an entry of the ledger that belongs to that user. *)
Theorem history_rows_are_the_users_own (order : list history_row → list history_row)
    (u page limit : Z) (s : db) (rows : list history_row) (p : pagination)
    (row : history_row) :
  (∀ l, Permutation (order l) l) →
  getTransactionHistory order u page limit s = History rows p →
  row ∈ rows →
  ∃ t, t ∈ transactions s ∧ user_id t = u ∧
       h_transaction_id row = transaction_id t ∧ h_type row = type t ∧
       h_amount row = amount t ∧ h_balance_after row = balance_after t ∧
       h_status row = status t.
Proof.
  intros Horder. unfold getTransactionHistory. cbv zeta.
  destruct (_ || _); [done|]. intros [= <- _] Hrow.
  eapply elem_of_sublist in Hrow; [|apply sublist_take].
  eapply elem_of_sublist in Hrow; [|apply sublist_drop]. rewrite (Horder _) in Hrow.
  apply list_elem_of_In, in_flat_map in Hrow as (t & Ht & Hrow).
  apply filter_In in Ht as [Ht Hu]. exists t.
  split; [by apply list_elem_of_In|]. split; [by apply Z.eqb_eq|].
  apply (LEFT_JOIN_users_rows (users s)). by apply list_elem_of_In.
Qed.

Lemma history_rows_are_the_users_own_witness :
  let s := store (run default_config a_busy_day (idle bank)) in
  ∃ rows p row t,
    (∀ l : list history_row, Permutation (rev l) l) ∧
    getTransactionHistory (@rev history_row) 1 1 20 s = History rows p ∧
    row ∈ rows ∧
    t ∈ transactions s ∧ user_id t = 1 ∧
    h_transaction_id row = transaction_id t ∧ h_type row = type t ∧
    h_amount row = amount t ∧ h_balance_after row = balance_after t ∧
    h_status row = status t.
Proof.
  cbv zeta.
  assert (∀ l : list history_row, Permutation (rev l) l) as Horder
    by (intros l; symmetry; apply Permutation_rev).
  destruct (getTransactionHistory (@rev history_row) 1 1 20
              (store (run default_config a_busy_day (idle bank)))) as [rows p|] eqn:H;
    [|vm_compute in H; discriminate H].
  destruct rows as [|row rows]; [vm_compute in H; discriminate H|].
  assert (row ∈ row :: rows) as Hrow by left.
  destruct (history_rows_are_the_users_own (@rev history_row) 1 1 20
              (store (run default_config a_busy_day (idle bank))) (row :: rows) p row
              Horder H Hrow) as (t & Ht).
  exists (row :: rows), p, row, t. split; [exact Horder|]. split; [reflexivity|].
  split; [exact Hrow|]. exact Ht.
Defined.

(** ** One-time codes *)







(** ** AuthService *)

Lemma filter_nil_iff {A} (p : A → bool) (l : list A) :
  List.filter p l = [] ↔ ∀ x, x ∈ l → p x = false.
Proof.
  induction l as [|a l IH]; cbn.
  - split; [|done]. intros _ x Hx. by apply elem_of_nil in Hx.
  - destruct (p a) eqn:Hpa.
    + split; [done|]. intros H. specialize (H a). rewrite Hpa in H. discriminate H. by left.
    + rewrite IH. split.
      * intros H x [->|Hx]%elem_of_cons; [done|by apply H].
      * intros H x Hx. apply H. by right.
Qed.

Lemma existsb_false_iff {A} (p : A → bool) (l : list A) :
  existsb p l = false ↔ ∀ x, x ∈ l → p x = false.
Proof.
  induction l as [|a l IH]; cbn.
  - split; [|done]. intros _ x Hx. by apply elem_of_nil in Hx.
  - rewrite orb_false_iff, IH. split.
    + intros [Ha H] x [->|Hx]%elem_of_cons; [done|by apply H].
    + intros H. split; [apply H; by left|]. intros x Hx. apply H. by right.
Qed.

Lemma register_inv email_eq hashPassword sign now insertId userName userEmail password a a' r :
  fresh_id insertId (wallet_db a) →
  register email_eq hashPassword sign now insertId userName userEmail password a = (a', r) →
  (email_free email_eq userEmail (wallet_db a) ∧
   a' = {| wallet_db :=
             {| users := app (users (wallet_db a))
                           [{| id := insertId; name := userName; email := userEmail;
                               is_active := true |}];
                wallets := <[insertId := {| balance := 0; currency := "INR" |}]>
                             (wallets (wallet_db a));
                transactions := transactions (wallet_db a);
                daily_limits := daily_limits (wallet_db a);
                otps := otps (wallet_db a) |};
           password_hashes := <[insertId := hashPassword password]> (password_hashes a) |} ∧
   r = Auth_return {| a_success := true;
                      a_user := {| au_id := insertId; au_name := userName;
                                   au_email := userEmail |};
                      a_token := sign now insertId userEmail userName |})
  ∨
  (¬ email_free email_eq userEmail (wallet_db a) ∧ a' = a ∧
   r = Auth_throw Email_already_registered).
Proof.
  intros [Hid Hw]. unfold register, email_free. cbv zeta.
  destruct (List.filter _ _) as [|u l] eqn:Hf.
  - assert (existsb (λ u, id u =? insertId) (users (wallet_db a)) = false) as ->.
    { apply existsb_false_iff. intros u Hu. apply Z.eqb_neq. by apply Hid. }
    rewrite Hw. intros [= <- <-]. left. split; [|done]. by apply filter_nil_iff.
  - intros [= <- <-]. right. split; [|done]. intros Hfree.
    apply filter_nil_iff in Hfree. by rewrite Hfree in Hf.
Qed.

(** X23. [register] succeeds exactly when no row of [users], active or
    deactivated, carries the e-mail address; otherwise it throws 'Email
    already registered' and changes nothing.  When it succeeds it adds the
    user, active, a wallet with balance 0.00 in INR, and the hash of the
    password, and answers with the new id, the name and the address. *)
Theorem register_when_email_is_free (email_eq : string → string → bool)
    (hashPassword : string → string) (sign : Z → Z → string → string → string)
    (now insertId : Z) (userName userEmail password : string) (a : auth_db) :
  fresh_id insertId (wallet_db a) →
  let out := register email_eq hashPassword sign now insertId userName userEmail password a in
  (email_free email_eq userEmail (wallet_db a) ↔ ∃ resp, snd out = Auth_return resp) ∧
  ((¬ email_free email_eq userEmail (wallet_db a)) ↔
     out = (a, Auth_throw Email_already_registered)) ∧
  ((∃ resp, snd out = Auth_return resp) →
     a_user <$> (match snd out with Auth_return resp => Some resp | Auth_throw _ => None end)
       = Some {| au_id := insertId; au_name := userName; au_email := userEmail |} ∧
     wallets (wallet_db (fst out)) !! insertId = Some {| balance := 0; currency := "INR" |} ∧
     password_hashes (fst out) !! insertId = Some (hashPassword password) ∧
     {| id := insertId; name := userName; email := userEmail; is_active := true |}
       ∈ users (wallet_db (fst out))).
Proof.
  intros Hfresh. cbv zeta.
  destruct (register email_eq hashPassword sign now insertId userName userEmail password a)
    as [a' r] eqn:H.
  apply register_inv in H; [|done].
  destruct H as [(Hfree & -> & ->)|(Hno & -> & ->)]; cbn [fst snd].
  - split; [|split].
    + split; [eauto|done].
    + split; [done|]. intros [= _ ?].
    + intros _. cbn. rewrite !lookup_insert_eq. repeat split; try done.
      apply elem_of_app. right. by left.
  - split; [|split].
    + split; [done|]. by intros [? ?].
    + done.
    + by intros [? ?].
Qed.

Lemma register_when_email_is_free_witness :
  let out := register String.eqb toy_hash toy_sign 1000 4 "Dave" "d@x.com" "secret"
               no_accounts in
  fresh_id 4 (wallet_db no_accounts) ∧
  (email_free String.eqb "d@x.com" (wallet_db no_accounts)
     ↔ ∃ resp, snd out = Auth_return resp) ∧
  snd out = Auth_return {| a_success := true;
                           a_user := {| au_id := 4; au_name := "Dave";
                                        au_email := "d@x.com" |};
                           a_token := "d@x.com/Dave" |}.
Proof.
  assert (fresh_id 4 (wallet_db no_accounts)) as Hfresh.
  { split; [|vm_compute; reflexivity]. intros u Hu. cbn in Hu.
    repeat (apply elem_of_cons in Hu as [->|Hu]; [done|]). by apply elem_of_nil in Hu. }
  split; [exact Hfresh|]. split; [|vm_compute; reflexivity].
  apply (register_when_email_is_free String.eqb toy_hash toy_sign 1000 4 "Dave" "d@x.com"
           "secret" no_accounts Hfresh).
Defined.

(** X24. Round trip of an account.  After [register] has succeeded, [login]
    with the same address and password succeeds and names the same user;
    [login] with a password whose hash differs throws 'Invalid email or
    password'; and [getProfile] of the new id shows the name, the address and
    a balance of 0.00 INR. *)
Theorem register_then_login (email_eq : string → string → bool)
    (hashPassword : string → string) (sign : Z → Z → string → string → string)
    (now insertId : Z) (userName userEmail password : string) (a a' : auth_db)
    (resp : auth_response) :
  (∀ x, email_eq x x = true) →
  fresh_id insertId (wallet_db a) →
  register email_eq hashPassword sign now insertId userName userEmail password a
    = (a', Auth_return resp) →
  (∀ later,
     login email_eq hashPassword sign later userEmail password a' =
     (a', Auth_return {| a_success := true; a_user := a_user resp;
                         a_token := sign later insertId userEmail userName |})) ∧
  (∀ later other,
     hashPassword other ≠ hashPassword password →
     login email_eq hashPassword sign later userEmail other a' =
     (a', Auth_throw Invalid_email_or_password)) ∧
  getProfile insertId a' =
    (a', Auth_return {| pr_id := insertId; pr_name := userName; pr_email := userEmail;
                        pr_balance := Some 0; pr_currency := Some "INR" |}).
Proof.
  intros Hrefl Hfresh H.
  apply register_inv in H; [|done].
  destruct H as [(Hfree & -> & [= ->])|(_ & _ & ?)]; [|done].
  assert (∀ p, List.filter (λ u, email_eq (email u) userEmail && p u) (users (wallet_db a)) = [])
    as Hnone.
  { intros p. apply filter_nil_iff. intros u Hu. by rewrite (Hfree u Hu). }
  split; [|split].
  - intros later. unfold login, verifyPassword. cbv zeta. cbn [wallet_db users password_hashes].
    rewrite List.filter_app, Hnone. cbn. rewrite Hrefl. cbn.
    by rewrite lookup_insert_eq, String.eqb_refl.
  - intros later other Hother. unfold login, verifyPassword. cbv zeta.
    cbn [wallet_db users password_hashes].
    rewrite List.filter_app, Hnone. cbn. rewrite Hrefl. cbn.
    rewrite lookup_insert_eq. by apply String.eqb_neq in Hother as ->.
  - unfold getProfile. cbv zeta. cbn [wallet_db users wallets].
    rewrite List.filter_app.
    assert (List.filter (λ u, (id u =? insertId) && is_active u) (users (wallet_db a)) = [])
      as ->.
    { apply filter_nil_iff. intros u Hu. destruct Hfresh as [Hid _].
      specialize (Hid u Hu). apply Z.eqb_neq in Hid. by rewrite Hid. }
    cbn. rewrite Z.eqb_refl. cbn. by rewrite lookup_insert_eq.
Qed.

Lemma register_then_login_witness :
  ∃ a' resp,
    (∀ x, String.eqb x x = true) ∧
    fresh_id 4 (wallet_db no_accounts) ∧
    register String.eqb toy_hash toy_sign 1000 4 "Dave" "d@x.com" "secret" no_accounts
      = (a', Auth_return resp) ∧
    (∀ later,
       login String.eqb toy_hash toy_sign later "d@x.com" "secret" a' =
       (a', Auth_return {| a_success := true; a_user := a_user resp;
                           a_token := toy_sign later 4 "d@x.com" "Dave" |})) ∧
    (∀ later other,
       toy_hash other ≠ toy_hash "secret" →
       login String.eqb toy_hash toy_sign later "d@x.com" other a' =
       (a', Auth_throw Invalid_email_or_password)) ∧
    getProfile 4 a' =
      (a', Auth_return {| pr_id := 4; pr_name := "Dave"; pr_email := "d@x.com";
                          pr_balance := Some 0; pr_currency := Some "INR" |}).
Proof.
  assert (fresh_id 4 (wallet_db no_accounts)) as Hfresh.
  { split; [|vm_compute; reflexivity]. intros u Hu. cbn in Hu.
    repeat (apply elem_of_cons in Hu as [->|Hu]; [done|]). by apply elem_of_nil in Hu. }
  destruct (register String.eqb toy_hash toy_sign 1000 4 "Dave" "d@x.com" "secret" no_accounts)
    as [a' [resp|err]] eqn:H; [|vm_compute in H; discriminate H].
  exists a', resp. split; [exact String.eqb_refl|]. split; [exact Hfresh|].
  split; [reflexivity|].
  exact (register_then_login String.eqb toy_hash toy_sign 1000 4 "Dave" "d@x.com" "secret"
           no_accounts a' resp String.eqb_refl Hfresh H).
Defined.

(** X25. Opening an account creates no money and touches none: however
    [register] ends, every wallet that existed holds what it held, the sum of
    all balances is what it was, the ledger, the daily totals and the OTPs
    are untouched, every user that existed is still there, and no balance is
    negative if none was. *)
Theorem register_creates_no_money (email_eq : string → string → bool)
    (hashPassword : string → string) (sign : Z → Z → string → string → string)
    (now insertId : Z) (userName userEmail password : string) (a : auth_db) :
  let s := wallet_db a in
  let s' := wallet_db (fst (register email_eq hashPassword sign now insertId userName
                              userEmail password a)) in
  (∀ v w, wallets s !! v = Some w → wallets s' !! v = Some w) ∧
  total_balance s' = total_balance s ∧
  transactions s' = transactions s ∧ daily_limits s' = daily_limits s ∧ otps s' = otps s ∧
  (∀ u, u ∈ users s → u ∈ users s') ∧
  (balances_nonneg s → balances_nonneg s').
Proof.
  cbv zeta. unfold register. cbv zeta.
  destruct (List.filter _ _); [|done].
  destruct (existsb _ _); [done|].
  destruct (wallets (wallet_db a) !! insertId) as [w0|] eqn:Hw; [done|].
  cbn [fst wallet_db wallets transactions daily_limits otps users].
  split; [|split; [|split; [done|split; [done|split; [done|split]]]]].
  - intros v w Hv. rewrite lookup_insert_ne; [done|]. intros <-. congruence.
  - unfold total_balance. cbn [wallets]. rewrite sum_balances_insert by done. cbn. lia.
  - intros u Hu. apply elem_of_app. by left.
  - intros Hnn v w. cbn [wallets]. rewrite lookup_insert. case_decide; [|by apply Hnn].
    by intros [= <-].
Qed.

(** ** What no request changes *)

Lemma same_accounts_frame {A} s0 (m : M A) :
  (∀ s s' r, m s = (s', r) → users s' = users s ∧ wallets s' = wallets s) →
  preserves (same_accounts s0) m.
Proof.
  intros Hm s s' r [Hu Hw] H. destruct (Hm _ _ _ H) as [Hu' Hw'].
  unfold same_accounts. by rewrite Hu', Hw'.
Qed.

Lemma accounts_modify s0 (f : db → db) :
  (∀ s, users (f s) = users s ∧ wallets (f s) = wallets s) →
  preserves (same_accounts s0) (modify f).
Proof. intros Hf. apply same_accounts_frame. intros s s' r [= <- <-]. apply Hf. Qed.

Lemma UPDATE_wallets_accounts s0 v u :
  preserves (same_accounts s0) (UPDATE_wallets_SET_balance v u).
Proof.
  intros s s' r [Hu Hw]. unfold UPDATE_wallets_SET_balance.
  destruct (wallets s !! u) as [w|] eqn:Hwu; [|by intros [= <- <-]].
  destruct (v <? 0); intros [= <- <-]; [done|].
  split; [done|]. intros x. cbn [wallets set_wallets]. rewrite <- Hw.
  destruct (decide (x = u)) as [->|Hx].
  - by rewrite lookup_insert_eq, Hwu.
  - by rewrite lookup_insert_ne.
Qed.

Lemma INSERT_INTO_transactions_accounts s0 row :
  preserves (same_accounts s0) (INSERT_INTO_transactions row).
Proof.
  apply same_accounts_frame. intros s s' r H.
  by apply INSERT_INTO_transactions_frame in H as (? & ? & _).
Qed.

Ltac accounts_step :=
  match goal with
  | |- preserves _ (modify _) => by apply accounts_modify
  | |- preserves _ (UPDATE_transactions _ _) => by apply accounts_modify
  | |- preserves _ (UPDATE_wallets_SET_balance _ _) => apply UPDATE_wallets_accounts
  | |- preserves _ (INSERT_INTO_transactions _) => apply INSERT_INTO_transactions_accounts
  | _ => preserve_step
  end.
Ltac accounts := repeat accounts_step.

Lemma step_same_accounts s0 cfg r sys :
  same_accounts s0 (store sys) → same_accounts s0 (store (step cfg r sys)).
Proof.
  apply step_invariant.
  - intros. unfold getBalance, SELECT_wallet. accounts.
  - intros. unfold addMoney_begin, SELECT_wallet. accounts.
  - intros. unfold addMoney_finish, updateDailyLimit,
      INSERT_daily_limits_ON_DUPLICATE_KEY_UPDATE. accounts.
  - destruct r; try done.
    unfold generateTransferOTP, SELECT_users_by_email, SELECT_wallet, INSERT_INTO_otps.
    accounts.
  - intros. unfold transfer, SELECT_otps, SELECT_users_by_email, SELECT_wallets_IN,
      UPDATE_otps_SET_is_used, updateDailyLimit, INSERT_daily_limits_ON_DUPLICATE_KEY_UPDATE.
    accounts.
Qed.

(** X26. No request of the wallet service opens, closes or converts a
    wallet, or touches a user: however requests are interleaved, the users
    table is what it was, the same users have wallets, and every wallet is
    in the currency it was in. *)
Theorem accounts_are_fixed (cfg : config) (reqs : list request) (sys : system) :
  let s' := store (run cfg reqs sys) in
  users s' = users (store sys) ∧
  (∀ v, currency <$> wallets s' !! v = currency <$> wallets (store sys) !! v) ∧
  (∀ v, is_Some (wallets s' !! v) ↔ is_Some (wallets (store sys) !! v)).
Proof.
  cbv zeta.
  assert (same_accounts (store sys) (store (run cfg reqs sys))) as [Hu Hw].
  { assert (same_accounts (store sys) (store sys)) as H0 by done. revert H0.
    generalize (store sys) at 1 3 as s0. intros s0. revert sys.
    induction reqs as [|r reqs IH]; intros sys H0; [done|].
    cbn. apply IH. by apply step_same_accounts. }
  split; [done|]. split; [done|]. intros v. specialize (Hw v).
  rewrite <- !fmap_is_Some with (f := currency). by rewrite Hw.
Qed.

(** ** The OTP table as a log *)

Lemma otps_kept_refl s : otps_kept s s.
Proof. intros i o Ho. by left. Qed.

Lemma otps_kept_same s s' : otps s' = otps s → otps_kept s s'.
Proof. intros Heq i o Ho. left. by rewrite Heq. Qed.

Lemma otps_kept_trans s1 s2 s3 : otps_kept s1 s2 → otps_kept s2 s3 → otps_kept s1 s3.
Proof.
  intros H12 H23 i o Ho. destruct (H12 i o Ho) as [H2|H2]; destruct (H23 i _ H2) as [H3|H3];
    auto.
Qed.

Lemma step_otps_kept cfg r sys : otps_kept (store sys) (store (step cfg r sys)).
Proof.
  destruct r as [u|e u a pm k|e u a pm k|t n p|e u m a|e u m a o ref k]; cbn [step store].
  - rewrite getBalance_store. apply otps_kept_refl.
  - destruct (addMoney cfg e u a pm k (store sys)) as [s' r] eqn:H. cbn [fst].
    apply addMoney_inv in H. apply otps_kept_same.
    by inversion H; subst.
  - destruct (addMoney_begin cfg e u a pm k (store sys)) as [s' out] eqn:H.
    apply addMoney_begin_inv in H. inversion H; subst; cbn [store]; by apply otps_kept_same.
  - destruct (in_flight sys !! n) as [call|]; [|apply otps_kept_refl]. cbn [store].
    apply otps_kept_same. destruct p as [msg g|msg|].
    + rewrite addMoney_finish_paid. by destruct (match _ with Some _ => _ | None => _ end).
    + by rewrite addMoney_finish_failed.
    + by rewrite addMoney_finish_throws.
  - destruct (generateTransferOTP cfg e u m a (store sys)) as [s' r] eqn:H. cbn [fst].
    apply generateTransferOTP_inv in H as [(_ & -> & _)|(_ & -> & _)]; [|apply otps_kept_refl].
    intros i o' Ho. left. cbn [otps set_otps]. by apply lookup_app_l_Some.
  - destruct (transfer e u m a o ref k (store sys)) as [s' r] eqn:H. cbn [fst].
    apply transfer_inv in H.
    inversion H as [|otpId rest c Hotp Hc
      |otpId rest recipient rest' sw rw Hotp Hc Hrec Hsw Hrw Hbal Hrb Hpos Hid1 Hid2 Hne Hkey];
      subst; [apply otps_kept_refl..|].
    intros i o' Ho. unfold transfer_commit. cbn [otps].
    destruct (decide (i = otpId)) as [->|Hi].
    + right. by rewrite list_lookup_alter_eq, Ho.
    + left. by rewrite list_lookup_alter_ne.
Qed.

(** X27. The OTP table is a log: however requests are interleaved, no OTP row
    is ever deleted or rewritten, and no used OTP becomes unused again; a row
    keeps its id, user, code, reference and expiry, and all that can happen
    to it is that it is marked used. *)
Theorem otps_are_only_marked_used (cfg : config) (reqs : list request) (sys : system)
    (i : nat) (o : otp) :
  otps (store sys) !! i = Some o →
  ∃ o', otps (store (run cfg reqs sys)) !! i = Some o' ∧
        otp_user_id o' = otp_user_id o ∧ otp_code o' = otp_code o ∧
        reference_id o' = reference_id o ∧ expires_at o' = expires_at o ∧
        (is_used o = true → is_used o' = true).
Proof.
  assert (otps_kept (store sys) (store (run cfg reqs sys))) as Hkept.
  { revert sys. induction reqs as [|r reqs IH]; intros sys; [apply otps_kept_refl|].
    cbn. eapply otps_kept_trans; [apply step_otps_kept|apply IH]. }
  intros Ho. destruct (Hkept i o Ho) as [H|H]; eexists; (split; [exact H|]); done.
Qed.

Lemma otps_are_only_marked_used_witness :
  let sys := idle with_otp in
  let day := [ Req_transfer (at_time 3000 "t2" "t3" "" Payment_throws) 1 "b@x.com"
                 (rupees 100) "111111" "ref1" None ] in
  ∃ o o',
    otps (store sys) !! 0%nat = Some o ∧
    otps (store (run default_config day sys)) !! 0%nat = Some o' ∧
    otp_user_id o' = otp_user_id o ∧ otp_code o' = otp_code o ∧
    reference_id o' = reference_id o ∧ expires_at o' = expires_at o ∧
    (is_used o = true → is_used o' = true) ∧
    is_used o = false ∧ is_used o' = true.
Proof.
  cbv zeta.
  pose (day := [ Req_transfer (at_time 3000 "t2" "t3" "" Payment_throws) 1 "b@x.com"
                   (rupees 100) "111111" "ref1" None ]).
  destruct (otps (store (idle with_otp)) !! 0%nat) as [o|] eqn:Ho;
    [|vm_compute in Ho; discriminate Ho].
  destruct (otps_are_only_marked_used default_config day (idle with_otp) 0 o Ho)
    as (o' & Ho' & H).
  exists o, o'. split; [reflexivity|]. split; [exact Ho'|].
  destruct H as (H1 & H2 & H3 & H4 & H5). repeat (split; [assumption|]).
  vm_compute in Ho, Ho'. injection Ho as <-. injection Ho' as <-. done.
Defined.

(** ** From the OTP to the transfer *)



(** ** Retrying while the gateway is at work *)

(** X29. A retry is not paid twice.  While a call of [addMoney] under a
    non-empty idempotency key awaits the gateway, every further [addMoney]
    and [transfer] under that key leaves the store as it is, and when it
    answers, it answers from the cache with [success: false] and the PENDING
    entry of the first call. *)
Theorem retry_while_pending_is_not_paid_twice (cfg : config) (e : env) (u amt : Z)
    (pm : payment_method) (k : string) (s s1 : db) (call : add_money_call) :
  k ≠ "" →
  addMoney_begin cfg e u amt pm (Some k) s = (s1, Return (inr call)) →
  ∃ t, t ∈ transactions s1 ∧ status t = PENDING ∧
       transaction_id t = am_transactionId call ∧
       (∀ cfg' e' u' amt' pm',
          let out := addMoney cfg' e' u' amt' pm' (Some k) s1 in
          fst out = s1 ∧ ∀ r, snd out = Return r → r = Duplicate_response false t) ∧
       (∀ e' u' toEmail amt' otp ref,
          let out := transfer e' u' toEmail amt' otp ref (Some k) s1 in
          fst out = s1 ∧ ∀ r, snd out = Return r → r = Duplicate_response false t).
Proof.
  intros Hk Hb. apply addMoney_begin_inv in Hb.
  inversion Hb as [| |w Hval Hlim Hc Hw Hpos Hid Hkey]; subst.
  apply negb_true_iff in Hkey.
  set (s1 := set_transactions (λ l, app l [pending_entry e u amt pm (Some k) w]) s).
  assert (cached (Some k) s1 =
          Some (Duplicate_response false (pending_entry e u amt pm (Some k) w))) as Hcached.
  { by rewrite (cached_appended k (transactions s) (pending_entry e u amt pm (Some k) w)). }
  exists (pending_entry e u amt pm (Some k) w).
  split; [apply elem_of_app; right; by left|]. split; [done|]. split; [done|]. split.
  - intros cfg' e' u' amt' pm'. cbv zeta.
    destruct (addMoney cfg' e' u' amt' pm' (Some k) s1) as [s2 r] eqn:H. cbn [fst snd].
    apply addMoney_inv in H.
    inversion H as [err|c Hc'|w' msg g Hb' _ _|w' msg g Hb' _ _|w' msg Hb' _|w' Hb' _]; subst;
      [done|split; [done|intros ? [= <-]; congruence]|..];
      destruct Hb' as (_ & _ & Hnone & _); congruence.
  - intros e' u' toEmail amt' otp ref. cbv zeta.
    destruct (transfer e' u' toEmail amt' otp ref (Some k) s1) as [s2 r] eqn:H. cbn [fst snd].
    apply transfer_inv in H.
    inversion H as [|otpId rest c Hotp Hc'
      |otpId rest recipient rest' sw rw Hotp Hc' _ _ _ _ _ _ _ _ _ _]; subst;
      [done|split; [done|intros ? [= <-]; congruence]|congruence].
Qed.

Lemma retry_while_pending_is_not_paid_twice_witness :
  let e := at_time 1000 "t1" "" "" (paid UPI (rupees 250)) in
  ∃ s1 call t,
    "k1" ≠ "" ∧
    addMoney_begin default_config e 3 (rupees 250) UPI (Some "k1") bank
      = (s1, Return (inr call)) ∧
    t ∈ transactions s1 ∧ status t = PENDING ∧ transaction_id t = am_transactionId call ∧
    (∀ cfg' e' u' amt' pm',
       let out := addMoney cfg' e' u' amt' pm' (Some "k1") s1 in
       fst out = s1 ∧ ∀ r, snd out = Return r → r = Duplicate_response false t) ∧
    (∀ e' u' toEmail amt' otp ref,
       let out := transfer e' u' toEmail amt' otp ref (Some "k1") s1 in
       fst out = s1 ∧ ∀ r, snd out = Return r → r = Duplicate_response false t).
Proof.
  cbv zeta. pose (e := at_time 1000 "t1" "" "" (paid UPI (rupees 250))).
  assert ("k1" ≠ "") as Hk by done.
  destruct (addMoney_begin default_config e 3 (rupees 250) UPI (Some "k1") bank)
    as [s1 [[c|call]|err]] eqn:H; try (vm_compute in H; discriminate H).
  destruct (retry_while_pending_is_not_paid_twice default_config e 3 (rupees 250) UPI "k1"
              bank s1 call Hk H) as (t & Ht).
  exists s1, call, t. split; [exact Hk|]. split; [exact H|]. exact Ht.
Defined.

(** ** The amounts the routes let through *)

(** With the limits of config/constants.js at their defaults, the validator
    of the amount in the routes and [validateAmount] in the service accept
    the same amounts, 100.00 to 200,000.00 inclusive; so [addMoney] never
    throws one of the three amount errors for an amount the route has let
    through. *)
Lemma routes_and_service_accept_the_same_amounts (amt : Z) :
  (route_accepts_amount amt = true ↔ validateAmount default_config amt = Return tt) ∧
  (route_accepts_amount amt = true →
   ∀ e u pm key s err,
     snd (addMoney default_config e u amt pm key s) = Throw err →
     err ≠ Minimum_transaction_amount ∧ err ≠ Maximum_transaction_amount ∧
     err ≠ Maximum_2_decimal_places).
Proof.
  assert (route_accepts_amount amt = true ↔ validateAmount default_config amt = Return tt)
    as Hiff.
  { unfold route_accepts_amount, validateAmount, default_config, rupees. cbn.
    rewrite andb_true_iff, !Z.leb_le.
    repeat case_match; split; try done; try lia. }
  split; [done|]. intros Hroute e u pm key s err.
  apply Hiff in Hroute. unfold addMoney, addMoney_begin. unfold bind at 1. unfold bind at 1.
  unfold lift. rewrite Hroute.
  unfold bind at 1. rewrite checkDailyAddMoneyLimit_eq.
  destruct (_ <? _); [by intros [= <-]|].
  unfold bind at 1. rewrite checkIdempotency_eq.
  destruct (cached key s); [done|].
  unfold atomic, SELECT_wallet, INSERT_INTO_transactions, addMoney_finish,
    UPDATE_wallets_SET_balance. exec. cbn.
  repeat case_match; simplify_eq; cbn; intros [= <-]; done.
Qed.

(** ** A transfer to one's own address *)


